(** * goxlsw: the analysis engine of the spx language server

    A shallow embedding of the parts of [internal/server] (compile.go,
    util.go, text_synchronization.go) and of the AST path utility that the
    specification talks about, followed by the properties proved of them.

    Conventions.  Go [int] and [token.Pos] are [Z]; [uint32] is [N]; Go
    strings and [[]byte] are [string] and [list Z] (bytes in [0, 256));
    a Go [map] is a [gmap], a [map[K]struct{}] a [gset]; pointer identity of
    AST nodes and of [types.Object]s is an explicit identifier.  Mutation of
    the [*compileResult] receiver is explicit state passing. *)

From Stdlib Require Import ZArith NArith String Ascii List Bool Lia.
From Stdlib Require Import DecimalString DecimalN.
From stdpp Require Import base option list gmap sets strings.

#[local] Set Warnings "-register-all,-clear-no-such-hyp".

(* ================================================================== *)
(** * Part I.  The embedding                                           *)
(* ================================================================== *)

(** ** Go formatting verbs used by the code *)

Module fmt.

(** [%d] of an unsigned integer: its decimal digits. *)
Definition d (n : N) : string := NilEmpty.string_of_uint (N.to_uint n).

(** The line feed that separates the parts of a fingerprint. *)
Definition LF : ascii := ascii_of_nat 10.

End fmt.

(** ** LSP protocol types (package server) *)

Definition DocumentURI := string.

Record Position := { Line : N; Character : N }.

Record Range := { Start : Position; End_ : Position }.

(** [DiagnosticSeverity] is a [uint32]; the LSP constants. *)
Definition DiagnosticSeverity := N.
Definition SeverityError : DiagnosticSeverity := 1%N.
Definition SeverityWarning : DiagnosticSeverity := 2%N.

(** The code reads and writes [Severity], [Range] and [Message] only; the
    remaining optional LSP fields travel along as [Source]. *)
Record Diagnostic := {
  Severity : DiagnosticSeverity;
  DRange : Range;
  Message : string;
  Source : string
}.

Global Instance Position_eq_dec : EqDecision Position.
Proof. solve_decision. Defined.
Global Instance Range_eq_dec : EqDecision Range.
Proof. solve_decision. Defined.
Global Instance Diagnostic_eq_dec : EqDecision Diagnostic.
Proof. solve_decision. Defined.

(** [%v] of the nested structs [Position] and [Range]: Go prints the fields
    in braces, separated by a space. *)
Definition fmt_v_Position (p : Position) : string :=
  "{" +:+ fmt.d (Line p) +:+ " " +:+ fmt.d (Character p) +:+ "}".

Definition fmt_v_Range (r : Range) : string :=
  "{" +:+ fmt_v_Position (Start r) +:+ " " +:+ fmt_v_Position (End_ r) +:+ "}".

(** [fmt.Sprintf("%d\n%v\n%s", diag.Severity, diag.Range, diag.Message)] *)
Definition fingerprint (diag : Diagnostic) : string :=
  fmt.d (Severity diag) +:+ String fmt.LF
    (fmt_v_Range (DRange diag) +:+ String fmt.LF (Message diag)).

(** ** The Go+ AST, as far as the server inspects it (package gop/ast)

    A node is identified by [id], which stands for the pointer the Go code
    compares with [==] and uses as a map key. *)

Definition NodeId := positive.

Inductive Token := STRING | INT | FLOAT | CHAR | OTHERTOK.

Inductive Node :=
| Ident (id : NodeId) (NamePos : Z) (Name : string)
| BasicLit (id : NodeId) (ValuePos : Z) (Kind : Token) (Value : string)
| CallExpr (id : NodeId) (Fun : Node) (Args : list Node)
| SelectorExpr (id : NodeId) (X : Node) (Sel : Node)
| SliceLit (id : NodeId) (Lbrack : Z) (Elts : list Node)
| AssignStmt (id : NodeId) (TokPos : Z) (Lhs Rhs : list Node)
| OtherNode (id : NodeId) (pos : Z) (children : list Node).

Definition nodeId (n : Node) : NodeId :=
  match n with
  | Ident id _ _ | BasicLit id _ _ _ | CallExpr id _ _ | SelectorExpr id _ _
  | SliceLit id _ _ | AssignStmt id _ _ _ | OtherNode id _ _ => id
  end.

(** [n.Pos()]; an assignment starts at its first left-hand side. *)
Fixpoint Pos (n : Node) : Z :=
  match n with
  | Ident _ p _ => p
  | BasicLit _ p _ _ => p
  | CallExpr _ f _ => Pos f
  | SelectorExpr _ x _ => Pos x
  | SliceLit _ p _ => p
  | AssignStmt _ p lhs _ => match lhs with l :: _ => Pos l | [] => p end
  | OtherNode _ p _ => p
  end.

(** [token.Pos.IsValid]: [NoPos] is 0. *)
Definition IsValid (p : Z) : bool := negb (p =? 0)%Z.

(** The subtrees [ast.Walk] descends into, in its order. *)
Definition childNodes (n : Node) : list Node :=
  match n with
  | Ident _ _ _ | BasicLit _ _ _ _ => []
  | CallExpr _ f args => f :: args
  | SelectorExpr _ x sel => [x; sel]
  | SliceLit _ _ elts => elts
  | AssignStmt _ _ lhs rhs => lhs ++ rhs
  | OtherNode _ _ cs => cs
  end.

(** ** go/types, as far as the server inspects it *)

Inductive BasicKind := KString | KUntypedString | KInt | KUntypedInt | KBool | KOtherBasic.

(** A type is compared by identity.  The spx types that the server looks up
    in its registry ([GetSpxSoundType()] and the like) are constructors of
    their own; [NamedType] is any other named type, with the name of its
    object. *)
Inductive GoType :=
| SpxBackdropNameType | SpxSpriteNameType | SpxSpriteCostumeNameType
| SpxSpriteAnimationNameType | SpxSoundNameType | SpxWidgetNameType
| SpxGameType | SpxSpriteType | SpxSpriteImplType | SpxSoundType
| NamedType (tid : positive) (objName : string)
| BasicType (k : BasicKind)
| PointerType (elem : GoType)
| SliceType (elem : GoType)
| ArrayType (elem : GoType)
| SignatureType (recv : option GoType) (params : list GoType)
| OtherType (tid : positive).

Global Instance BasicKind_eq_dec : EqDecision BasicKind.
Proof. solve_decision. Defined.
Global Instance GoType_eq_dec : EqDecision GoType.
Proof.
  refine (fix go (x y : GoType) {struct x} : Decision (x = y) :=
    let _ : EqDecision GoType := go in
    match x, y with
    | SpxBackdropNameType, SpxBackdropNameType
    | SpxSpriteNameType, SpxSpriteNameType
    | SpxSpriteCostumeNameType, SpxSpriteCostumeNameType
    | SpxSpriteAnimationNameType, SpxSpriteAnimationNameType
    | SpxSoundNameType, SpxSoundNameType
    | SpxWidgetNameType, SpxWidgetNameType
    | SpxGameType, SpxGameType
    | SpxSpriteType, SpxSpriteType
    | SpxSpriteImplType, SpxSpriteImplType
    | SpxSoundType, SpxSoundType => left eq_refl
    | NamedType a b, NamedType a' b' =>
        cast_if_and (decide (a = a')) (decide (b = b'))
    | BasicType k, BasicType k' => cast_if (decide (k = k'))
    | PointerType e, PointerType e' => cast_if (go e e')
    | SliceType e, SliceType e' => cast_if (go e e')
    | ArrayType e, ArrayType e' => cast_if (go e e')
    | SignatureType r p, SignatureType r' p' =>
        cast_if_and (decide (r = r')) (decide (p = p'))
    | OtherType a, OtherType a' => cast_if (decide (a = a'))
    | _, _ => right _
    end); abstract congruence.
Defined.
Global Instance Token_eq_dec : EqDecision Token.
Proof. solve_decision. Defined.

(** The type assertion to [types.Named]: the registry's struct types are
    named types too. *)
Definition asNamed (t : GoType) : option string :=
  match t with
  | SpxGameType => Some "Game"
  | SpxSpriteType => Some "Sprite"
  | SpxSpriteImplType => Some "SpriteImpl"
  | SpxSoundType => Some "Sound"
  | NamedType _ name => Some name
  | _ => None
  end.

(** [unwrapPointerType] (util.go), exported as [goputil.DerefType]. *)
Definition unwrapPointerType (t : GoType) : GoType :=
  match t with
  | PointerType elem => elem
  | _ => t
  end.
Definition DerefType := unwrapPointerType.

(** [types.AssignableTo(t, types.Typ[types.String])] on the types above: a
    value is assignable to [string] when its type is [string] or it is an
    untyped string constant. *)
Definition AssignableToString (t : GoType) : bool :=
  match t with
  | BasicType KString | BasicType KUntypedString => true
  | _ => false
  end.

Inductive ConstValue := StringVal (s : string) | OtherVal.

(** [types.TypeAndValue]; the zero value is what a missing map key gives. *)
Record TypeAndValue := {
  tvType : option GoType;
  tvIsType : bool;
  tvValue : option ConstValue
}.
Definition zeroTV : TypeAndValue :=
  {| tvType := None; tvIsType := false; tvValue := None |}.

Inductive ObjKind := VarObj | ConstObj | TypeNameObj | FuncObj | PkgNameObj | LabelObj | BuiltinObj.
Global Instance ObjKind_eq_dec : EqDecision ObjKind.
Proof. solve_decision. Defined.

Definition ObjId := positive.

(** A [types.Object]: [objId] is its identity, [objPkgPath] the path of
    [Pkg()] ([None] when [Pkg()] is nil). *)
Record Object := {
  objId : ObjId;
  objKind : ObjKind;
  objName : string;
  objType : GoType;
  objPkgPath : option string
}.

Global Instance Object_eq_dec : EqDecision Object.
Proof. solve_decision. Defined.

(** [isBuiltinObject], [isMainPkgObject] (util.go; [goputil.IsInBuiltinPkg]
    and [goputil.IsInMainPkg] for a non-nil object). *)
Definition isBuiltinObject (obj : Object) : bool :=
  match objPkgPath obj with
  | None => true
  | Some path => bool_decide (path = "")
  end.

Definition isMainPkgObject (obj : Object) : bool :=
  match objPkgPath obj with
  | None => false
  | Some path => bool_decide (path = "main")
  end.

(** ** spx resources *)

(** Modelled from the spec: the resource set ([SpxResourceSet], declared
    outside the files at hand) holds "domain entities keyed by name within a
    kind: Backdrop(name), Sprite(name, with child sets Costume(name),
    Animation(name)), Sound(name), Widget(name)"; a lookup returns the
    resource or nil. *)
Record SpxSpriteResource := {
  SpriteName_ : string;
  Costumes : gset string;
  Animations : gset string
}.

Record SpxResourceSet := {
  backdrops : gset string;
  sprites : gmap string SpxSpriteResource;
  sounds : gset string;
  widgets : gset string
}.

Definition emptyResourceSet : SpxResourceSet :=
  {| backdrops := ∅; sprites := ∅; sounds := ∅; widgets := ∅ |}.

Definition Backdrop (s : SpxResourceSet) (name : string) : option string :=
  if decide (name ∈ backdrops s) then Some name else None.
Definition Sprite (s : SpxResourceSet) (name : string) : option SpxSpriteResource :=
  sprites s !! name.
Definition Sound (s : SpxResourceSet) (name : string) : option string :=
  if decide (name ∈ sounds s) then Some name else None.
Definition Widget (s : SpxResourceSet) (name : string) : option string :=
  if decide (name ∈ widgets s) then Some name else None.
Definition Costume (sp : SpxSpriteResource) (name : string) : option string :=
  if decide (name ∈ Costumes sp) then Some name else None.
Definition Animation (sp : SpxSpriteResource) (name : string) : option string :=
  if decide (name ∈ Animations sp) then Some name else None.

Inductive SpxResourceID :=
| SpxBackdropResourceID (BackdropName : string)
| SpxSpriteResourceID (SpriteName : string)
| SpxSpriteCostumeResourceID (SpriteName CostumeName : string)
| SpxSpriteAnimationResourceID (SpriteName AnimationName : string)
| SpxSoundResourceID (SoundName : string)
| SpxWidgetResourceID (WidgetName : string).

Inductive SpxResourceRefKind :=
| SpxResourceRefKindStringLiteral
| SpxResourceRefKindConstantReference
| SpxResourceRefKindAutoBinding
| SpxResourceRefKindAutoBindingReference.

(** [Node] is the pointer to the AST node. *)
Record SpxResourceRef := {
  ID : SpxResourceID;
  Kind_ : SpxResourceRefKind;
  RefNode : NodeId
}.

Global Instance SpxResourceID_eq_dec : EqDecision SpxResourceID.
Proof. solve_decision. Defined.
Global Instance SpxResourceRefKind_eq_dec : EqDecision SpxResourceRefKind.
Proof. solve_decision. Defined.
Global Instance SpxResourceRef_eq_dec : EqDecision SpxResourceRef.
Proof. solve_decision. Defined.

Definition encodeID (i : SpxResourceID) : nat * string * string :=
  match i with
  | SpxBackdropResourceID a => (0, a, "")
  | SpxSpriteResourceID a => (1, a, "")
  | SpxSpriteCostumeResourceID a b => (2, a, b)
  | SpxSpriteAnimationResourceID a b => (3, a, b)
  | SpxSoundResourceID a => (4, a, "")
  | SpxWidgetResourceID a => (5, a, "")
  end.
Definition decodeID (x : nat * string * string) : SpxResourceID :=
  match x with
  | (0, a, _) => SpxBackdropResourceID a
  | (1, a, _) => SpxSpriteResourceID a
  | (2, a, b) => SpxSpriteCostumeResourceID a b
  | (3, a, b) => SpxSpriteAnimationResourceID a b
  | (4, a, _) => SpxSoundResourceID a
  | (_, a, _) => SpxWidgetResourceID a
  end.
Definition encodeKind (k : SpxResourceRefKind) : nat :=
  match k with
  | SpxResourceRefKindStringLiteral => 0
  | SpxResourceRefKindConstantReference => 1
  | SpxResourceRefKindAutoBinding => 2
  | SpxResourceRefKindAutoBindingReference => 3
  end.
Definition decodeKind (n : nat) : SpxResourceRefKind :=
  match n with
  | 0 => SpxResourceRefKindStringLiteral
  | 1 => SpxResourceRefKindConstantReference
  | 2 => SpxResourceRefKindAutoBinding
  | _ => SpxResourceRefKindAutoBindingReference
  end.

Global Program Instance SpxResourceRef_countable : Countable SpxResourceRef :=
  inj_countable'
    (fun r => (encodeID (ID r), encodeKind (Kind_ r), RefNode r))
    (fun x => {| ID := decodeID x.1.1; Kind_ := decodeKind x.1.2; RefNode := x.2 |}) _.
Next Obligation. by intros [[] [] ?]. Qed.

(** ** The project façade

    [gop.Project], its type information and the position helpers live in
    packages outside the files at hand.  The server only queries them, so a
    project is the record of the answers to these queries. *)

Definition ScopeId := positive.

(** What [compileAt] reads of an [*ast.File]: [astFile.Name.Name],
    [astFile.Pos().IsValid()] and the range of [astFile.Name]. *)
Record ASTFile := {
  PkgName : string;
  FilePosValid : bool;
  NameRange : Range
}.

(** The result of [snapshot.AST(spxFile)].  A scanner error list comes with
    a file ("AST returns a valid file handle even on parse errors"), each
    entry with the range of its position and its message; a code generation
    error with the range of its position and its text; of any other error
    the text that [%v] prints. *)
Inductive ASTResult :=
| ASTParsed (astFile : option ASTFile)
| ASTErrorList (astFile : ASTFile) (errorList : list (Range * string)) (text : string)
| ASTCodeError (astFile : option ASTFile) (range : Range) (text : string)
| ASTOtherError (astFile : option ASTFile) (text : string).

(** An error of the type checker: a [types.Error] with the validity of its
    position, the file name and the range of the position and its message,
    or an error of another type. *)
Inductive CheckError :=
| TypesError (posValid : bool) (filename : string) (range : Range) (msg : string)
| OtherCheckError.

Record Project := {
  (** [typeInfo.Types], [typeInfo.Defs], [typeInfo.Uses]: Go maps, which the
      code also ranges over in an unspecified order; an entry list in some
      order, looked up by key. *)
  Types : list (option Node * TypeAndValue);
  Defs : list (option Node * option Object);
  Uses : list (option Node * option Object);
  (** [typeInfo.ObjectOf(ident)] *)
  ObjectOf : NodeId -> option Object;
  (** [goputil.DefIdentFor(typeInfo, obj)]: the defining identifier. *)
  DefIdentFor : Object -> option NodeId;
  (** [ident.Obj.Decl.(ValueSpec)]: the names and values of the value
      specification that declares the identifier, if there is one. *)
  ValueSpecOf : NodeId -> option (list Node * list Node);
  (** [goputil.NodeFilename], [goputil.PosFilename] *)
  NodeFilename : Node -> string;
  PosFilename : Z -> string;
  (** [goputil.InnermostScopeAt(proj, pos)] and
      [typeInfo.Scopes[astPkg.Files[file]]]; nil is [None]. *)
  InnermostScopeAt : Z -> option ScopeId;
  FileScope : string -> option ScopeId;
  (** [getASTPkg(proj).Files[file]] *)
  ASTFiles : string -> option Node;
  (** [goputil.IsDefinedInClassFieldsDecl(proj, obj)]: declared in the first
      var block of a class file. *)
  IsDefinedInClassFieldsDecl : Object -> bool;
  (** [vfs.HasSpriteType(proj, typ)] *)
  HasSpriteType : GoType -> bool;
  (** [RangeForNode(proj, node)] *)
  RangeForNode : Node -> Range;
  (** The path that [goputil.WalkPathEnclosingInterval(astFile, ident.Pos(),
      ident.End(), false, ...)] walks, innermost node first; [None] when
      [goputil.NodeASTFile] is nil. *)
  PathEnclosing : Node -> option (list Node);
  (** [NewSpxResourceSet(vfs.Sub(snapshot, dir))]: the set or an error. *)
  NewSpxResourceSet : string -> SpxResourceSet + string;
  (** [ident.Implicit()] and [SelectorTypeNameForIdent(proj, ident)] *)
  IdentImplicit : NodeId -> bool;
  SelectorTypeNameForIdent : Node -> string;
  (** [gogen.CheckSigFuncEx(sig)]: its [ok]; and
      [gogen.CheckSigFuncExObjects(sig)]: [None] when the type it returns is
      nil, else the objects; both for the signature of a function. *)
  CheckSigFuncEx : Object -> bool;
  CheckSigFuncExObjects : Object -> option (list Object);
  (** [vfs.ListSpxFiles(snapshot)]: the paths or an error. *)
  ListSpxFiles : list string + string;
  (** [snapshot.AST(spxFile)] *)
  AST : string -> ASTResult;
  (** The errors that [snapshot.TypeInfo()] returns, a list or a single
      one. *)
  TypeInfoErrors : list CheckError;
  (** What the registered analyzers report for each file of the AST
      package, in the order in which the code ranges over that map. *)
  AnalyzerDiagnostics : list (string * list Diagnostic);
  (** [strconv.Unquote] and the verb [%q] of the Go library. *)
  Unquote : string -> option string;
  Quote : string -> string
}.

(** A map lookup [m[key]] with its [ok]; keys are compared as pointers. *)
Fixpoint lookupNode {A} (m : list (option Node * A)) (key : NodeId) : option A :=
  match m with
  | [] => None
  | (Some n, a) :: m' => if decide (nodeId n = key) then Some a else lookupNode m' key
  | (None, _) :: m' => lookupNode m' key
  end.

(** [typeInfo.Types[expr]] without [ok]: the zero value for a missing key. *)
Definition TypesAt (proj : Project) (expr : Node) : TypeAndValue :=
  default zeroTV (lookupNode (Types proj) (nodeId expr)).

(** ** compileResult (compile.go) *)

Record compileResult := {
  proj : Project;
  mainSpxFile : string;
  spxResourceSet : SpxResourceSet;
  spxResourceRefs : list SpxResourceRef;
  (** nil until the first reference is added *)
  seenSpxResourceRefs : option (gset SpxResourceRef);
  spxSoundResourceAutoBindings : gset ObjId;
  spxSpriteResourceAutoBindings : gset ObjId;
  diagnostics : gmap DocumentURI (list Diagnostic);
  (** nil until the first diagnostic is added *)
  seenDiagnostics : option (gmap DocumentURI (gset string));
  hasErrorSeverityDiagnostic : bool
}.

Definition newCompileResult (p : Project) : compileResult :=
  {| proj := p;
     mainSpxFile := "";
     spxResourceSet := emptyResourceSet;
     spxResourceRefs := [];
     seenSpxResourceRefs := None;
     spxSoundResourceAutoBindings := ∅;
     spxSpriteResourceAutoBindings := ∅;
     diagnostics := ∅;
     seenDiagnostics := None;
     hasErrorSeverityDiagnostic := false |}.

(** Field updates of the mutable receiver. *)
Definition set_mainSpxFile (r : compileResult) (f : string) : compileResult :=
  {| proj := proj r; mainSpxFile := f; spxResourceSet := spxResourceSet r;
     spxResourceRefs := spxResourceRefs r;
     seenSpxResourceRefs := seenSpxResourceRefs r;
     spxSoundResourceAutoBindings := spxSoundResourceAutoBindings r;
     spxSpriteResourceAutoBindings := spxSpriteResourceAutoBindings r;
     diagnostics := diagnostics r; seenDiagnostics := seenDiagnostics r;
     hasErrorSeverityDiagnostic := hasErrorSeverityDiagnostic r |}.

Definition set_spxResourceSet (r : compileResult) (s : SpxResourceSet) : compileResult :=
  {| proj := proj r; mainSpxFile := mainSpxFile r; spxResourceSet := s;
     spxResourceRefs := spxResourceRefs r;
     seenSpxResourceRefs := seenSpxResourceRefs r;
     spxSoundResourceAutoBindings := spxSoundResourceAutoBindings r;
     spxSpriteResourceAutoBindings := spxSpriteResourceAutoBindings r;
     diagnostics := diagnostics r; seenDiagnostics := seenDiagnostics r;
     hasErrorSeverityDiagnostic := hasErrorSeverityDiagnostic r |}.

Definition set_refs (r : compileResult) (refs : list SpxResourceRef)
    (seen : option (gset SpxResourceRef)) : compileResult :=
  {| proj := proj r; mainSpxFile := mainSpxFile r;
     spxResourceSet := spxResourceSet r;
     spxResourceRefs := refs; seenSpxResourceRefs := seen;
     spxSoundResourceAutoBindings := spxSoundResourceAutoBindings r;
     spxSpriteResourceAutoBindings := spxSpriteResourceAutoBindings r;
     diagnostics := diagnostics r; seenDiagnostics := seenDiagnostics r;
     hasErrorSeverityDiagnostic := hasErrorSeverityDiagnostic r |}.

Definition set_autoBindings (r : compileResult) (sound sprite : gset ObjId) : compileResult :=
  {| proj := proj r; mainSpxFile := mainSpxFile r;
     spxResourceSet := spxResourceSet r;
     spxResourceRefs := spxResourceRefs r;
     seenSpxResourceRefs := seenSpxResourceRefs r;
     spxSoundResourceAutoBindings := sound;
     spxSpriteResourceAutoBindings := sprite;
     diagnostics := diagnostics r; seenDiagnostics := seenDiagnostics r;
     hasErrorSeverityDiagnostic := hasErrorSeverityDiagnostic r |}.

Definition set_diagnostics (r : compileResult)
    (ds : gmap DocumentURI (list Diagnostic))
    (seen : option (gmap DocumentURI (gset string))) (flag : bool) : compileResult :=
  {| proj := proj r; mainSpxFile := mainSpxFile r;
     spxResourceSet := spxResourceSet r;
     spxResourceRefs := spxResourceRefs r;
     seenSpxResourceRefs := seenSpxResourceRefs r;
     spxSoundResourceAutoBindings := spxSoundResourceAutoBindings r;
     spxSpriteResourceAutoBindings := spxSpriteResourceAutoBindings r;
     diagnostics := ds; seenDiagnostics := seen;
     hasErrorSeverityDiagnostic := flag |}.

(** [addSpxResourceRef] *)
Definition addSpxResourceRef (r : compileResult) (ref : SpxResourceRef) : compileResult :=
  let seen := default ∅ (seenSpxResourceRefs r) in
  if decide (ref ∈ seen) then set_refs r (spxResourceRefs r) (Some seen)
  else set_refs r (spxResourceRefs r ++ [ref]) (Some ({[ref]} ∪ seen)).

(** The diagnostics and the fingerprints stored for a document; a missing
    key reads as nil. *)
Definition diagnosticsFor (r : compileResult) (documentURI : DocumentURI) : list Diagnostic :=
  default [] (diagnostics r !! documentURI).

Definition seenFor (r : compileResult) (documentURI : DocumentURI) : gset string :=
  default ∅ (default ∅ (seenDiagnostics r) !! documentURI).

(** One turn of the loop of [addDiagnostics] over [diags]: the state is the
    document's fingerprint set, its diagnostic list and the error flag. *)
Definition addDiagnostic (st : gset string * list Diagnostic * bool) (diag : Diagnostic)
    : gset string * list Diagnostic * bool :=
  let '(seen, ds, flag) := st in
  let fp := fingerprint diag in
  if decide (fp ∈ seen) then st
  else ({[fp]} ∪ seen, ds ++ [diag],
        if decide (Severity diag = SeverityError) then true else flag).

(** [addDiagnostics]: both maps get an entry for [documentURI], also when
    [diags] is empty. *)
Definition addDiagnostics (r : compileResult) (documentURI : DocumentURI)
    (diags : list Diagnostic) : compileResult :=
  let seenAll := default ∅ (seenDiagnostics r) in
  let '(seen, ds, flag) :=
    foldl addDiagnostic
      (seenFor r documentURI, diagnosticsFor r documentURI,
       hasErrorSeverityDiagnostic r) diags in
  set_diagnostics r (<[documentURI := ds]> (diagnostics r))
    (Some (<[documentURI := seen]> seenAll)) flag.

(** ** Text synchronization (text_synchronization.go) *)

(** [gop.FileImpl]: the content bytes and the version of a file. *)
Record FileImpl := { Content : list Z; Version : Z }.

Record FileChange := {
  ChangePath : string;
  ChangeContent : list Z;
  ChangeVersion : Z
}.

Global Instance FileImpl_eq_dec : EqDecision FileImpl.
Proof. solve_decision. Defined.

(** The project as [ModifyFiles] uses it: [p.File(path)] and
    [p.PutFile(path, file)].  [gop.Project] is declared outside the files at
    hand, so the two methods are an interface here. *)
Class FileStore (P : Type) := {
  File : P -> string -> option FileImpl;
  PutFile : P -> string -> FileImpl -> P
}.

(** [ModifyFiles]: the loop over [changes]. *)
Definition modifyFile `{FileStore P} (p : P) (change : FileChange) : P :=
  let file := {| Content := ChangeContent change; Version := ChangeVersion change |} in
  match File p (ChangePath change) with
  | Some oldFile =>
      if (ChangeVersion change >? Version oldFile)%Z
      then PutFile p (ChangePath change) file
      else p
  | None => PutFile p (ChangePath change) file
  end.

Definition ModifyFiles `{FileStore P} (p : P) (changes : list FileChange) : P :=
  foldl modifyFile p changes.

(** A project whose files are a map from path to file and whose [PutFile]
    stores unconditionally. *)
Global Instance mapFileStore : FileStore (gmap string FileImpl) := {
  File := fun m path => m !! path;
  PutFile := fun m path file => <[path := file]> m
}.

(** Modelled from the spec: [PutFile] of the project façade, "PutFile
    overwrites only when newVersion > oldVersion; otherwise it is a no-op",
    on a map of files. *)
Definition guardedFiles := gmap string FileImpl.
Definition guardedPutFile (m : guardedFiles) (path : string) (file : FileImpl) : guardedFiles :=
  match m !! path with
  | Some old => if (Version file >? Version old)%Z then <[path := file]> m else m
  | None => <[path := file]> m
  end.

(** ** Unicode (packages unicode/utf8 and unicode/utf16 of the Go library)

    Bytes and runes are [Z].  [DecodeRune] is Go's decoder: an invalid or
    truncated encoding yields [RuneError] with width 1. *)

Open Scope Z_scope.

Module utf8.

Definition RuneError : Z := 0xFFFD.
Definition MaxRune : Z := 0x10FFFF.

Inductive firstInfo :=
| ascii              (* 0x00-0x7F *)
| invalid            (* 0x80-0xC1, 0xF5-0xFF *)
| lead (size : nat) (lo hi : Z).  (* width and accepted range of the second byte *)

(** The table [first] with the [acceptRanges] it points to. *)
Definition first (b : Z) : firstInfo :=
  if b <? 0x80 then ascii
  else if b <? 0xC2 then invalid
  else if b <? 0xE0 then lead 2 0x80 0xBF
  else if b =? 0xE0 then lead 3 0xA0 0xBF
  else if b <? 0xED then lead 3 0x80 0xBF
  else if b =? 0xED then lead 3 0x80 0x9F
  else if b <? 0xF0 then lead 3 0x80 0xBF
  else if b =? 0xF0 then lead 4 0x90 0xBF
  else if b <? 0xF4 then lead 4 0x80 0xBF
  else if b =? 0xF4 then lead 4 0x80 0x8F
  else invalid.

(** A continuation byte lies in [locb, hicb]. *)
Definition isCont (b : Z) : bool := (0x80 <=? b) && (b <=? 0xBF).

(** [DecodeRune(p)]: the rune and its width in bytes. *)
Definition DecodeRune (p : list Z) : Z * nat :=
  match p with
  | [] => (RuneError, 0%nat)
  | p0 :: rest =>
      match first p0 with
      | ascii => (p0, 1%nat)
      | invalid => (RuneError, 1%nat)
      | lead sz lo hi =>
          match rest with
          | [] => (RuneError, 1%nat)
          | b1 :: rest1 =>
              if (b1 <? lo) || (hi <? b1) then (RuneError, 1%nat)
              else if (sz <=? 2)%nat then
                (Z.lor (Z.shiftl (Z.land p0 0x1F) 6) (Z.land b1 0x3F), 2%nat)
              else
                match rest1 with
                | [] => (RuneError, 1%nat)
                | b2 :: rest2 =>
                    if negb (isCont b2) then (RuneError, 1%nat)
                    else if (sz <=? 3)%nat then
                      (Z.lor (Z.lor (Z.shiftl (Z.land p0 0x0F) 12)
                                    (Z.shiftl (Z.land b1 0x3F) 6))
                             (Z.land b2 0x3F), 3%nat)
                    else
                      match rest2 with
                      | [] => (RuneError, 1%nat)
                      | b3 :: _ =>
                          if negb (isCont b3) then (RuneError, 1%nat)
                          else
                            (Z.lor (Z.lor (Z.lor (Z.shiftl (Z.land p0 0x07) 18)
                                                 (Z.shiftl (Z.land b1 0x3F) 12))
                                          (Z.shiftl (Z.land b2 0x3F) 6))
                                   (Z.land b3 0x3F), 4%nat)
                      end
                end
          end
      end
  end.

(** [RuneLen(r)]: the number of bytes of the encoding of [r], or -1. *)
Definition RuneLen (r : Z) : Z :=
  if r <? 0 then -1
  else if r <=? 0x7F then 1
  else if r <=? 0x7FF then 2
  else if (0xD800 <=? r) && (r <=? 0xDFFF) then -1
  else if r <=? 0xFFFF then 3
  else if r <=? MaxRune then 4
  else -1.

End utf8.

Module utf16.

(** [RuneLen(r)]: the number of 16-bit words of the encoding of [r], or -1. *)
Definition RuneLen (r : Z) : Z :=
  if (0 <=? r) && (r <? 0xD800) then 1
  else if (0xE000 <=? r) && (r <? 0x10000) then 1
  else if (0x10000 <=? r) && (r <=? utf8.MaxRune) then 2
  else -1.

End utf16.

(** The runes that [for _, r := range s] yields for the bytes [s]: after a
    rune of width [w] the next [w - 1] bytes are skipped. *)
Fixpoint rangeRunes (skip : nat) (s : list Z) : list Z :=
  match s with
  | [] => []
  | b :: rest =>
      match skip with
      | S k => rangeRunes k rest
      | O => let '(r, size) := utf8.DecodeRune s in r :: rangeRunes (size - 1)%nat rest
      end
  end.

(** ** Positions (util.go) *)

(** The loop of [utf16OffsetToUTF8] over the runes still to come. *)
Fixpoint utf16OffsetToUTF8_loop (runes : list Z) (utf16Offset utf16Units utf8Bytes : Z) : Z :=
  match runes with
  | [] => utf8Bytes
  | r :: runes' =>
      if utf16Units >=? utf16Offset then utf8Bytes
      else utf16OffsetToUTF8_loop runes' utf16Offset
             (utf16Units + utf16.RuneLen r) (utf8Bytes + utf8.RuneLen r)
  end.

Definition utf16OffsetToUTF8 (s : list Z) (utf16Offset : Z) : Z :=
  if utf16Offset <=? 0 then 0
  else utf16OffsetToUTF8_loop (rangeRunes 0 s) utf16Offset 0 0.

(** [lineStarts]: offset 0 and the offset after every line feed; [i] is the
    offset of the first byte of [content]. *)
Fixpoint lineStartsFrom (i : Z) (content : list Z) : list Z :=
  match content with
  | [] => []
  | b :: rest =>
      if b =? 10 then (i + 1) :: lineStartsFrom (i + 1) rest
      else lineStartsFrom (i + 1) rest
  end.

Definition lineStarts (content : list Z) : list Z := 0 :: lineStartsFrom 0 content.

(** [s[lo:hi]]; [None] is the run-time panic of a slice out of range. *)
Definition slice {A} (s : list A) (lo hi : Z) : option (list A) :=
  if (0 <=? lo) && (lo <=? hi) && (hi <=? Z.of_nat (length s))
  then Some (take (Z.to_nat (hi - lo)) (drop (Z.to_nat lo) s))
  else None.

(** [s[i]]; [None] is the run-time panic of an index out of range. *)
Definition index {A} (s : list A) (i : Z) : option A :=
  if 0 <=? i then s !! Z.to_nat i else None.

(** [positionOffset]; [None] stands for a panic. *)
Definition positionOffset (content : list Z) (position : Position) : option Z :=
  let len := Z.of_nat (length content) in
  if len =? 0 then Some 0
  else
    let starts := lineStarts content in
    let lineIndex := Z.of_N (Line position) in
    if lineIndex >=? Z.of_nat (length starts) then Some len
    else
      lineOffset ← index starts lineIndex;
      lineEndOffset ←
        (if lineIndex + 1 <? Z.of_nat (length starts)
         then (fun next => next - 1) <$> index starts (lineIndex + 1)
         else Some len);
      if lineOffset >=? len then Some len
      else
        lineContent ← slice content lineOffset (Z.min lineEndOffset len);
        let utf8Offset := utf16OffsetToUTF8 lineContent (Z.of_N (Character position)) in
        Some (lineOffset + utf8Offset).

Close Scope Z_scope.

(** ** The AST path utility (package util: PathEnclosingInterval) *)

Module util.

Open Scope Z_scope.

(** What the path search sees of an AST: every node has its interval
    [Pos(), End()), and [children] is what [childrenOf] returns for it: its
    true subtrees and the [tokenNode]s of its bare tokens, without nil, in
    the order of [sort.Sort(byPos(children))].  A [tokenNode] has no
    children. *)
Inductive Node :=
| tokenNode (pos end_ : Z)
| astNode (id : positive) (pos end_ : Z) (children : list Node).

Definition Pos (n : Node) : Z :=
  match n with tokenNode p _ | astNode _ p _ _ => p end.

Definition End (n : Node) : Z :=
  match n with tokenNode _ e | astNode _ _ e _ => e end.

Definition childrenOf (n : Node) : list Node :=
  match n with tokenNode _ _ => [] | astNode _ _ _ cs => cs end.

Definition isToken (n : Node) : bool :=
  match n with tokenNode _ _ => true | astNode _ _ _ _ => false end.

(** The root [*ast.File] with its [HasPkgDecl()]. *)
Record File := { fileNode : Node; HasPkgDecl : bool }.

(** The result of [visit] for a node without a child that contains
    [start, end): exact when the interval is the node's. *)
Definition nodeResult (path : list Node) (start end_ nodePos nodeEnd : Z) : list Node * bool :=
  (path, (start =? nodePos) && (end_ =? nodeEnd)).

(** The loop of [visit] over [children], from child [i] on: [prevEnd] is
    [children[i-1].End()], or [None] for the first child, and [visit] is
    the recursive call. *)
Fixpoint visitChildren (visit : Node -> Z -> Z -> list Node -> list Node * bool)
    (path : list Node) (start end_ nodePos nodeEnd : Z)
    (prevEnd : option Z) (children : list Node) : list Node * bool :=
  match children with
  | [] => nodeResult path start end_ nodePos nodeEnd
  | child :: rest =>
      let childPos := Pos child in
      let childEnd := End child in
      let augPos := match prevEnd with Some e => e | None => childPos end in
      (* [between]: the interval lies between the child and the next one *)
      let '(between, augEnd) :=
        match rest with
        | next :: _ =>
            ((start >=? childEnd) && (end_ <=? Pos next), Pos next)
        | [] => (false, childEnd)
        end in
      if between then (path, false)
      else if (augPos <=? start) && (end_ <=? augEnd) then
        if isToken child then (path, true) else visit child start end_ path
      else if (start <? childEnd) && (end_ >? augEnd) then
        nodeResult path start end_ nodePos nodeEnd
      else visitChildren visit path start end_ nodePos nodeEnd (Some childEnd) rest
  end.

(** [visit]: [path], [start] and [end] are the variables that the closure
    shares with [PathEnclosingInterval]. *)
Fixpoint visit (node : Node) (start end_ : Z) (path : list Node) : list Node * bool :=
  let path := path ++ [node] in
  let nodePos := Pos node in
  let nodeEnd := End node in
  let start := if start <? nodePos then nodePos else start in
  let end_ := if end_ >? nodeEnd then nodeEnd else end_ in
  match node with
  | tokenNode _ _ => nodeResult path start end_ nodePos nodeEnd
  | astNode _ _ _ children =>
      visitChildren visit path start end_ nodePos nodeEnd None children
  end.

Definition PathEnclosingInterval (root : File) (start end_ : Z) : list Node * bool :=
  let '(start, end_) := if start >? end_ then (end_, start) else (start, end_) in
  let rootPos := Pos (fileNode root) in
  let rootEnd := End (fileNode root) in
  if (start <? rootEnd) &&
     ((end_ >? rootPos) || (negb (HasPkgDecl root) && (end_ =? rootPos)))
  then
    let end_ := if start =? end_ then start + 1 else end_ in
    let '(path, exact) := visit (fileNode root) start end_ [] in
    (rev path, exact)
  else ([fileNode root], false).

Close Scope Z_scope.

End util.

(** ** Go library functions on paths and strings *)

Module path.

Definition slash : ascii := "/"%char.

Fixpoint dropSlashes (l : list ascii) : list ascii :=
  match l with
  | c :: l' => if decide (c = slash) then dropSlashes l' else l
  | [] => []
  end.

Fixpoint untilSlash (l : list ascii) : list ascii :=
  match l with
  | c :: l' => if decide (c = slash) then [] else c :: untilSlash l'
  | [] => []
  end.

(** [path.Base]: the last element of a path; trailing slashes are dropped
    first, an empty path gives ["."], a path of slashes only ["/"].  The
    path is read from its end. *)
Definition Base (p : string) : string :=
  if decide (p = "") then "."
  else
    let stripped := dropSlashes (rev (list_ascii_of_string p)) in
    let elem := rev (untilSlash stripped) in
    if decide (elem = []) then "/" else string_of_list_ascii elem.

End path.

Module strings.

Fixpoint dropPrefix (pre s : list ascii) : option (list ascii) :=
  match pre, s with
  | [], _ => Some s
  | a :: pre', b :: s' => if decide (a = b) then dropPrefix pre' s' else None
  | _ :: _, [] => None
  end.

(** [strings.TrimSuffix(s, suffix)] *)
Definition TrimSuffix (s suffix : string) : string :=
  match dropPrefix (rev (list_ascii_of_string suffix)) (rev (list_ascii_of_string s)) with
  | Some rest => string_of_list_ascii (rev rest)
  | None => s
  end.

End strings.

(** ** The server (server.go, compile.go, util.go) *)

Record Server := { workspaceRootURI : DocumentURI }.

(** [toDocumentURI], [posDocumentURI], [nodeDocumentURI] *)
Definition toDocumentURI (s : Server) (path : string) : DocumentURI :=
  workspaceRootURI s +:+ path.
Definition posDocumentURI (s : Server) (proj : Project) (pos : Z) : DocumentURI :=
  toDocumentURI s (PosFilename proj pos).
Definition nodeDocumentURI (s : Server) (proj : Project) (node : Node) : DocumentURI :=
  posDocumentURI s proj (Pos node).

Definition isIdent (n : Node) : bool :=
  match n with Ident _ _ _ => true | _ => false end.

(** [getStringLitOrConstValue] (util.go; [goputil.StringLitOrConstValue]):
    [None] is the result [("", false)]. *)
Definition getStringLitOrConstValue (unquote : string -> option string)
    (expr : Node) (tv : TypeAndValue) : option string :=
  match expr with
  | BasicLit _ _ kind value =>
      if decide (kind = STRING) then unquote value else None
  | Ident _ _ _ =>
      match tvValue tv with
      | Some (StringVal v) => Some v
      | _ => None
      end
  | _ => None
  end.

(** A diagnostic as the code builds it: the other fields are zero. *)
Definition mkDiagnostic (sev : DiagnosticSeverity) (rng : Range) (msg : string) : Diagnostic :=
  {| Severity := sev; DRange := rng; Message := msg; Source := "" |}.

(** [Diagnostic{Severity: ..., Message: ...}]: the zero range. *)
Definition zeroRange : Range :=
  {| Start := {| Line := 0; Character := 0 |}; End_ := {| Line := 0; Character := 0 |} |}.

(** [typ := exprTV.Type; if declaredType != nil { typ = declaredType }] *)
Definition typeFor (exprTV : TypeAndValue) (declaredType : option GoType) : option GoType :=
  match declaredType with
  | Some t => Some t
  | None => tvType exprTV
  end.

(** The kind of a reference by name. *)
Definition nameRefKind (expr : Node) : SpxResourceRefKind :=
  if isIdent expr then SpxResourceRefKindConstantReference
  else SpxResourceRefKindStringLiteral.

Definition mkRef (id : SpxResourceID) (kind : SpxResourceRefKind) (expr : Node) : SpxResourceRef :=
  {| ID := id; Kind_ := kind; RefNode := nodeId expr |}.

Section Resolvers.

Variable s : Server.

(** [inspectSpxBackdropResourceRefAtExpr] *)
Definition inspectSpxBackdropResourceRefAtExpr (result : compileResult)
    (expr : Node) (declaredType : option GoType) : compileResult * option string :=
  let exprDocumentURI := nodeDocumentURI s (proj result) expr in
  let exprRange := RangeForNode (proj result) expr in
  let exprTV := TypesAt (proj result) expr in
  let typ := typeFor exprTV declaredType in
  if negb (bool_decide (typ = Some SpxBackdropNameType)) then (result, None)
  else
    match getStringLitOrConstValue (Unquote (proj result)) expr exprTV with
    | None => (result, None)
    | Some spxBackdropName =>
        if decide (spxBackdropName = "") then
          (addDiagnostics result exprDocumentURI
             [mkDiagnostic SeverityError exprRange "backdrop resource name cannot be empty"],
           None)
        else
          let result := addSpxResourceRef result
            (mkRef (SpxBackdropResourceID spxBackdropName) (nameRefKind expr) expr) in
          match Backdrop (spxResourceSet result) spxBackdropName with
          | None =>
              (addDiagnostics result exprDocumentURI
                 [mkDiagnostic SeverityError exprRange
                    ("backdrop resource " +:+ Quote (proj result) spxBackdropName +:+ " not found")],
               None)
          | Some res => (result, Some res)
          end
    end.

(** The switch of [inspectSpxSoundResourceRefAtExpr] on the type: the name
    of the sound and the kind of the reference; [None] where the function
    returns nil. *)
Definition spxSoundNameAt (result : compileResult) (expr : Node)
    (declaredType : option GoType) : option (string * SpxResourceRefKind) :=
  let typeInfo := proj result in
  let exprTV := TypesAt typeInfo expr in
  let typ := typeFor exprTV declaredType in
  match typ with
  | Some SpxSoundNameType =>
      match getStringLitOrConstValue (Unquote (proj result)) expr exprTV with
      | None => None
      | Some spxSoundName => Some (spxSoundName, nameRefKind expr)
      end
  | Some SpxSoundType =>
      match expr with
      | Ident id _ _ =>
          match ObjectOf typeInfo id with
          | None => None
          | Some obj =>
              if decide (objId obj ∈ spxSoundResourceAutoBindings result) then
                Some (objName obj,
                      if decide (DefIdentFor typeInfo obj = Some id)
                      then SpxResourceRefKindAutoBinding
                      else SpxResourceRefKindAutoBindingReference)
              else None
          end
      | _ => None
      end
  | _ => None
  end.

(** [inspectSpxSoundResourceRefAtExpr] *)
Definition inspectSpxSoundResourceRefAtExpr (result : compileResult)
    (expr : Node) (declaredType : option GoType) : compileResult * option string :=
  let exprDocumentURI := nodeDocumentURI s (proj result) expr in
  let exprRange := RangeForNode (proj result) expr in
  match spxSoundNameAt result expr declaredType with
  | None => (result, None)
  | Some (spxSoundName, spxResourceRefKind) =>
      if decide (spxSoundName = "") then
        (addDiagnostics result exprDocumentURI
           [mkDiagnostic SeverityError exprRange "sound resource name cannot be empty"],
         None)
      else
        let result := addSpxResourceRef result
          (mkRef (SpxSoundResourceID spxSoundName) spxResourceRefKind expr) in
        match Sound (spxResourceSet result) spxSoundName with
        | None =>
            (addDiagnostics result exprDocumentURI
               [mkDiagnostic SeverityError exprRange
                  ("sound resource " +:+ Quote (proj result) spxSoundName +:+ " not found")],
             None)
        | Some res => (result, Some res)
        end
  end.

(** [inspectSpxWidgetResourceRefAtExpr] *)
Definition inspectSpxWidgetResourceRefAtExpr (result : compileResult)
    (expr : Node) (declaredType : option GoType) : compileResult * option string :=
  let exprDocumentURI := nodeDocumentURI s (proj result) expr in
  let exprRange := RangeForNode (proj result) expr in
  let exprTV := TypesAt (proj result) expr in
  let typ := typeFor exprTV declaredType in
  if negb (bool_decide (typ = Some SpxWidgetNameType)) then (result, None)
  else
    match getStringLitOrConstValue (Unquote (proj result)) expr exprTV with
    | None => (result, None)
    | Some spxWidgetName =>
        let spxResourceRefKind := nameRefKind expr in
        if decide (spxWidgetName = "") then
          (addDiagnostics result exprDocumentURI
             [mkDiagnostic SeverityError exprRange "widget resource name cannot be empty"],
           None)
        else
          let result := addSpxResourceRef result
            (mkRef (SpxWidgetResourceID spxWidgetName) spxResourceRefKind expr) in
          match Widget (spxResourceSet result) spxWidgetName with
          | None =>
              (addDiagnostics result exprDocumentURI
                 [mkDiagnostic SeverityError exprRange
                    ("widget resource " +:+ Quote (proj result) spxWidgetName +:+ " not found")],
               None)
          | Some res => (result, Some res)
          end
    end.

(** [inspectSpxSpriteResourceRefAtExpr]: for a call of a method value
    [x.method] it inspects the identifier [x] instead. *)
Fixpoint inspectSpxSpriteResourceRefAtExpr (result : compileResult)
    (expr : Node) (declaredType : option GoType) {struct expr}
    : compileResult * option SpxSpriteResource :=
  let typeInfo := proj result in
  let exprDocumentURI := nodeDocumentURI s (proj result) expr in
  let exprRange := RangeForNode (proj result) expr in
  let exprTV := TypesAt typeInfo expr in
  let typ := typeFor exprTV declaredType in
  (* the rest of the function, from [if spxSpriteName == ""] on *)
  let finish (spxSpriteName : string) :=
    let named :=
      if decide (spxSpriteName = "") then
        if bool_decide (typ = Some SpxSpriteNameType) then
          match getStringLitOrConstValue (Unquote (proj result)) expr exprTV with
          | None => None
          | Some name => Some (name, Some (nameRefKind expr))
          end
        else
          match expr with
          | Ident id _ _ =>
              match ObjectOf typeInfo id with
              | None => None
              | Some obj =>
                  if decide (objId obj ∈ spxSpriteResourceAutoBindings result) then
                    Some (objName obj,
                          Some (if decide (DefIdentFor typeInfo obj = Some id)
                                then SpxResourceRefKindAutoBinding
                                else SpxResourceRefKindAutoBindingReference))
                  else None
              end
          | _ => None
          end
      else Some (spxSpriteName, None) in
    match named with
    | None => (result, None)
    | Some (spxSpriteName, refKind) =>
        if decide (spxSpriteName = "") then
          (addDiagnostics result exprDocumentURI
             [mkDiagnostic SeverityError exprRange "sprite resource name cannot be empty"],
           None)
        else
          let result :=
            match refKind with
            | Some kind =>
                addSpxResourceRef result (mkRef (SpxSpriteResourceID spxSpriteName) kind expr)
            | None => result
            end in
          match Sprite (spxResourceSet result) spxSpriteName with
          | None =>
              (addDiagnostics result exprDocumentURI
                 [mkDiagnostic SeverityError exprRange
                    ("sprite resource " +:+ Quote (proj result) spxSpriteName +:+ " not found")],
               None)
          | Some res => (result, Some res)
          end
    end in
  match expr with
  | CallExpr _ (Ident _ _ _) _ =>
      finish (strings.TrimSuffix (path.Base (NodeFilename (proj result) expr)) ".spx")
  | CallExpr _ (SelectorExpr _ x _) _ =>
      match x with
      | Ident _ _ _ => inspectSpxSpriteResourceRefAtExpr result x declaredType
      | _ => (result, None)
      end
  | CallExpr _ _ _ => (result, None)
  | _ => finish ""
  end.

(** [inspectSpxSpriteCostumeResourceRefAtExpr] *)
Definition inspectSpxSpriteCostumeResourceRefAtExpr (result : compileResult)
    (spxSpriteResource : SpxSpriteResource) (expr : Node) (declaredType : option GoType)
    : compileResult * option string :=
  let exprDocumentURI := nodeDocumentURI s (proj result) expr in
  let exprRange := RangeForNode (proj result) expr in
  let exprTV := TypesAt (proj result) expr in
  let typ := typeFor exprTV declaredType in
  if negb (bool_decide (typ = Some SpxSpriteCostumeNameType)) then (result, None)
  else
    match getStringLitOrConstValue (Unquote (proj result)) expr exprTV with
    | None => (result, None)
    | Some spxSpriteCostumeName =>
        if decide (spxSpriteCostumeName = "") then
          (addDiagnostics result exprDocumentURI
             [mkDiagnostic SeverityError exprRange
                "sprite costume resource name cannot be empty"],
           None)
        else
          let result := addSpxResourceRef result
            (mkRef (SpxSpriteCostumeResourceID (SpriteName_ spxSpriteResource)
                      spxSpriteCostumeName) (nameRefKind expr) expr) in
          match Costume spxSpriteResource spxSpriteCostumeName with
          | None =>
              (addDiagnostics result exprDocumentURI
                 [mkDiagnostic SeverityError exprRange
                    ("costume resource " +:+ Quote (proj result) spxSpriteCostumeName
                     +:+ " not found in sprite "
                     +:+ Quote (proj result) (SpriteName_ spxSpriteResource))],
               None)
          | Some res => (result, Some res)
          end
    end.

(** [inspectSpxSpriteAnimationResourceRefAtExpr] *)
Definition inspectSpxSpriteAnimationResourceRefAtExpr (result : compileResult)
    (spxSpriteResource : SpxSpriteResource) (expr : Node) (declaredType : option GoType)
    : compileResult * option string :=
  let exprDocumentURI := nodeDocumentURI s (proj result) expr in
  let exprRange := RangeForNode (proj result) expr in
  let exprTV := TypesAt (proj result) expr in
  let typ := typeFor exprTV declaredType in
  if negb (bool_decide (typ = Some SpxSpriteAnimationNameType)) then (result, None)
  else
    match getStringLitOrConstValue (Unquote (proj result)) expr exprTV with
    | None => (result, None)
    | Some spxSpriteAnimationName =>
        let spxResourceRefKind := nameRefKind expr in
        if decide (spxSpriteAnimationName = "") then
          (addDiagnostics result exprDocumentURI
             [mkDiagnostic SeverityError exprRange
                "sprite animation resource name cannot be empty"],
           None)
        else
          let result := addSpxResourceRef result
            (mkRef (SpxSpriteAnimationResourceID (SpriteName_ spxSpriteResource)
                      spxSpriteAnimationName) spxResourceRefKind expr) in
          match Animation spxSpriteResource spxSpriteAnimationName with
          | None =>
              (addDiagnostics result exprDocumentURI
                 [mkDiagnostic SeverityError exprRange
                    ("animation resource " +:+ Quote (proj result) spxSpriteAnimationName
                     +:+ " not found in sprite "
                     +:+ Quote (proj result) (SpriteName_ spxSpriteResource))],
               None)
          | Some res => (result, Some res)
          end
    end.

(** The callback that [inspectSpxResourceRefForTypeAtExpr] walks the
    enclosing path with: the first assignment on the path that has [ident]
    on its left-hand side, at an index that its right-hand side has too,
    gives the expression. *)
Fixpoint indexOfNode (nodes : list Node) (key : NodeId) : option nat :=
  match nodes with
  | [] => None
  | n :: nodes' =>
      if decide (nodeId n = key) then Some O else S <$> indexOfNode nodes' key
  end.

Fixpoint assignedExpr (walked : list Node) (ident : NodeId) : option Node :=
  match walked with
  | [] => None
  | AssignStmt _ _ lhs rhs :: walked' =>
      match indexOfNode lhs ident with
      | Some idx =>
          match rhs !! idx with
          | Some e => Some e
          | None => assignedExpr walked' ident
          end
      | None => assignedExpr walked' ident
      end
  | _ :: walked' => assignedExpr walked' ident
  end.

Definition isNameType (typ : option GoType) : bool :=
  match typ with
  | Some SpxBackdropNameType | Some SpxSpriteNameType
  | Some SpxSoundNameType | Some SpxWidgetNameType => true
  | _ => false
  end.

(** [inspectSpxResourceRefForTypeAtExpr]; a nil [typ] has no sprite type. *)
Definition inspectSpxResourceRefForTypeAtExpr (result : compileResult)
    (expr : Node) (typ : option GoType) (spxSpriteResource : option SpxSpriteResource)
    : compileResult :=
  let target :=
    if isIdent expr && isNameType typ then
      match PathEnclosing (proj result) expr with
      | None => None                       (* astFile == nil: return *)
      | Some walked => Some (default expr (assignedExpr walked (nodeId expr)))
      end
    else Some expr in
  match target with
  | None => result
  | Some expr =>
      match typ with
      | Some SpxBackdropNameType =>
          (inspectSpxBackdropResourceRefAtExpr result expr typ).1
      | Some SpxSpriteNameType | Some SpxSpriteType =>
          (inspectSpxSpriteResourceRefAtExpr result expr typ).1
      | Some SpxSpriteCostumeNameType =>
          match spxSpriteResource with
          | Some sprite => (inspectSpxSpriteCostumeResourceRefAtExpr result sprite expr typ).1
          | None => result
          end
      | Some SpxSpriteAnimationNameType =>
          match spxSpriteResource with
          | Some sprite => (inspectSpxSpriteAnimationResourceRefAtExpr result sprite expr typ).1
          | None => result
          end
      | Some SpxSoundNameType | Some SpxSoundType =>
          (inspectSpxSoundResourceRefAtExpr result expr typ).1
      | Some SpxWidgetNameType =>
          (inspectSpxWidgetResourceRefAtExpr result expr typ).1
      | Some t =>
          if HasSpriteType (proj result) t
          then (inspectSpxSpriteResourceRefAtExpr result expr typ).1
          else result
      | None => result
      end
  end.

(** [gopast.Inspect(node, f)]: [f] is called on a node before its children
    and says whether to descend; [S] is the state that the closure [f]
    updates.  (The final call [f(nil)] changes nothing in the closures of
    this file.) *)
Fixpoint Inspect {S : Type} (f : Node -> S -> bool * S) (node : Node) (st : S) : S :=
  let '(descend, st) := f node st in
  if negb descend then st
  else
    let each := fix each (nodes : list Node) (st : S) : S :=
      match nodes with
      | [] => st
      | n :: nodes' => each nodes' (Inspect f n st)
      end in
    match node with
    | Ident _ _ _ | BasicLit _ _ _ _ => st
    | CallExpr _ fn args => each args (Inspect f fn st)
    | SelectorExpr _ x sel => Inspect f sel (Inspect f x st)
    | SliceLit _ _ elts => each elts st
    | AssignStmt _ _ lhs rhs => each rhs (each lhs st)
    | OtherNode _ _ children => each children st
    end.

(** The closure of [inspectForSpxResourceSet]: its state is the variable
    [spxResourceRootDir] and the compile result. *)
Definition inspectRunCall (mainSpxFile : string) (node : Node)
    (st : string * compileResult) : bool * (string * compileResult) :=
  let '(spxResourceRootDir, result) := st in
  match node with
  | CallExpr _ (Ident _ _ name) (firstArg :: _) =>
      if negb (bool_decide (name = "run")) then (true, st)
      else
        match lookupNode (Types (proj result)) (nodeId firstArg) with
        | None => (true, st)
        | Some firstArgTV =>
            if match tvType firstArgTV with
               | Some t => AssignableToString t
               | None => false
               end
            then
              (false,
               (default "" (getStringLitOrConstValue (Unquote (proj result)) firstArg firstArgTV),
                result))
            else
              let documentURI := toDocumentURI s mainSpxFile in
              (false,
               (spxResourceRootDir,
                addDiagnostics result documentURI
                  [mkDiagnostic SeverityError (RangeForNode (proj result) firstArg)
                     "first argument of run must be a string literal or constant"]))
        end
  | _ => (true, st)
  end.

(** The value of [spxResourceRootDir] after the inspection and the default,
    with the compile result at that point. *)
Definition spxResourceRootDirOf (result : compileResult) : string * compileResult :=
  let '(spxResourceRootDir, result) :=
    match ASTFiles (proj result) (mainSpxFile result) with
    | Some file => Inspect (inspectRunCall (mainSpxFile result)) file ("", result)
    | None => ("", result)
    end in
  (if decide (spxResourceRootDir = "") then "assets" else spxResourceRootDir, result).

(** [inspectForSpxResourceSet] *)
Definition inspectForSpxResourceSet (result : compileResult) : compileResult :=
  let '(spxResourceRootDir, result) := spxResourceRootDirOf result in
  match NewSpxResourceSet (proj result) spxResourceRootDir with
  | inr err =>
      addDiagnostics result (toDocumentURI s (mainSpxFile result))
        [mkDiagnostic SeverityError zeroRange
           ("failed to create spx resource set: " +:+ err)]
  | inl spxResourceSet => set_spxResourceSet result spxResourceSet
  end.

(** [inspectDiagnosticsAnalyzers] *)
Definition inspectDiagnosticsAnalyzers (result : compileResult) : compileResult :=
  foldl (fun result '(spxFile, diagnostics) =>
           addDiagnostics result (toDocumentURI s spxFile) diagnostics)
        result (AnalyzerDiagnostics (proj result)).

(** The auto-binding test of the first pass of [inspectForSpxResourceRefs]
    for a variable [v] of the named type [varType]. *)
Definition isSpxSoundResourceAutoBinding (result : compileResult) (v : Object) (varType : GoType) : bool :=
  match varType with
  | SpxSoundType => bool_decide (is_Some (Sound (spxResourceSet result) (objName v)))
  | _ => false
  end.

Definition isSpxSpriteResourceAutoBinding (result : compileResult) (v : Object) (varType : GoType) : bool :=
  match varType with
  | SpxSoundType => false
  | SpxSpriteType => bool_decide (is_Some (Sprite (spxResourceSet result) (objName v)))
  | _ =>
      bool_decide (Some (objName v) = asNamed varType) && HasSpriteType (proj result) varType
  end.

Definition autoBindingWarning (result : compileResult) (ident : Node) : Diagnostic :=
  mkDiagnostic SeverityWarning (RangeForNode (proj result) ident)
    "resources must be defined in the first var block for auto-binding".

(** The first part of the body of the loop over [typeInfo.Defs]: the
    initializer of a constant or variable. *)
Definition inspectInitializer (result : compileResult) (ident : Node) (obj : Object) : compileResult :=
  match objKind obj with
  | ConstObj | VarObj =>
      match ValueSpecOf (proj result) (nodeId ident) with
      | Some (names, values) =>
          match indexOfNode names (nodeId ident) with
          | Some idx =>
              match values !! idx with
              | Some expr =>
                  inspectSpxResourceRefForTypeAtExpr result expr
                    (Some (DerefType (objType obj))) None
              | None => result
              end
          | None => result
          end
      | None => result
      end
  | _ => result
  end.

(** The second part: the auto-binding of a variable of the main file. *)
Definition inspectAutoBinding (result : compileResult) (ident : Node) (obj : Object) : compileResult :=
  if negb (bool_decide (objKind obj = VarObj)) then result
  else
    let varType := objType obj in
    if negb (bool_decide (is_Some (asNamed varType))) then result
    else
      let spxFile := NodeFilename (proj result) ident in
      if negb (bool_decide (spxFile = mainSpxFile result)) ||
         negb (bool_decide (InnermostScopeAt (proj result) (Pos ident)
                            = FileScope (proj result) (mainSpxFile result)))
      then result
      else
        let isSound := isSpxSoundResourceAutoBinding result obj varType in
        let isSprite := isSpxSpriteResourceAutoBinding result obj varType in
        if negb isSound && negb isSprite then result
        else if negb (IsDefinedInClassFieldsDecl (proj result) obj) then
          addDiagnostics result (toDocumentURI s spxFile) [autoBindingWarning result ident]
        else
          let result :=
            if isSound then
              set_autoBindings result
                ({[objId obj]} ∪ spxSoundResourceAutoBindings result)
                (spxSpriteResourceAutoBindings result)
            else
              set_autoBindings result
                (spxSoundResourceAutoBindings result)
                ({[objId obj]} ∪ spxSpriteResourceAutoBindings result) in
          inspectSpxResourceRefForTypeAtExpr result ident
            (Some (DerefType (objType obj))) None.

(** The body of the loop over [typeInfo.Defs]. *)
Definition inspectDef (result : compileResult) (entry : option Node * option Object) : compileResult :=
  match entry with
  | (Some ident, Some obj) =>
      if negb (IsValid (Pos ident)) then result
      else inspectAutoBinding (inspectInitializer result ident obj) ident obj
  | _ => result
  end.

(** The body of the loop over [typeInfo.Uses]. *)
Definition inspectUse (result : compileResult) (entry : option Node * option Object) : compileResult :=
  match entry with
  | (Some ident, Some obj) =>
      if negb (IsValid (Pos ident)) then result
      else inspectSpxResourceRefForTypeAtExpr result ident (Some (DerefType (objType obj))) None
  | _ => result
  end.

(** The loop over the arguments of a call: [i] counts them, [lastParamType]
    is the type of the last parameter seen. *)
Fixpoint inspectArgs (result : compileResult) (params : list GoType)
    (spxSpriteResource : option SpxSpriteResource)
    (i : nat) (lastParamType : option GoType) (args : list Node) : compileResult :=
  match args with
  | [] => result
  | arg :: args' =>
      let paramType :=
        match params !! i with
        | Some t => Some (DerefType t)
        | None => lastParamType
        end in
      let lastParamType := paramType in
      let paramType :=
        match paramType with
        | Some (SliceType elem) => Some (DerefType elem)
        | Some (ArrayType elem) => Some (DerefType elem)
        | other => other
        end in
      let result :=
        match arg with
        | SliceLit _ _ elts =>
            foldl (fun result elt =>
                     inspectSpxResourceRefForTypeAtExpr result elt paramType spxSpriteResource)
                  result elts
        | _ => inspectSpxResourceRefForTypeAtExpr result arg paramType spxSpriteResource
        end in
      inspectArgs result params spxSpriteResource (S i) lastParamType args'
  end.

(** The body of the loop over [typeInfo.Types]. *)
Definition inspectTyped (result : compileResult) (entry : option Node * TypeAndValue) : compileResult :=
  match entry with
  | (Some expr, tv) =>
      if negb (IsValid (Pos expr)) || tvIsType tv || negb (bool_decide (is_Some (tvType tv)))
      then result
      else
        match expr with
        | CallExpr _ fn args =>
            match lookupNode (Types (proj result)) (nodeId fn) with
            | Some funcTV =>
                match tvType funcTV with
                | Some (SignatureType recv params) =>
                    let '(result, spxSpriteResource) :=
                      match recv with
                      | Some recvT =>
                          let recvType := DerefType recvT in
                          match recvType with
                          | SpxSpriteType | SpxSpriteImplType =>
                              inspectSpxSpriteResourceRefAtExpr result expr (Some recvType)
                          | _ => (result, None)
                          end
                      | None => (result, None)
                      end in
                    inspectArgs result params spxSpriteResource 0 None args
                | _ => result
                end
            | None => result
            end
        | _ => inspectSpxResourceRefForTypeAtExpr result expr (DerefType <$> tvType tv) None
        end
  | _ => result
  end.

(** [inspectForSpxResourceRefs]: the three loops, each over its map in the
    order of the entry list. *)
Definition inspectForSpxResourceRefs (result : compileResult) : compileResult :=
  let result := foldl inspectDef result (Defs (proj result)) in
  let result := foldl inspectUse result (Uses (proj result)) in
  foldl inspectTyped result (Types (proj result)).

(** [errNoMainSpxFile] *)
Definition errNoMainSpxFile : string := "no valid main.spx file found in main package".

(** What [compileAt] returns: a result, an error, or a panic. *)
Inductive compileOutcome :=
| compiled (result : compileResult)
| compileError (err : string)
| compilePanic (msg : string).

(** The diagnostics for the error of [snapshot.AST]. *)
Definition astErrorDiagnostics (ast : ASTResult) : list Diagnostic :=
  match ast with
  | ASTParsed _ => []
  | ASTErrorList astFile errorList text =>
      if FilePosValid astFile then
        (fun e : Range * string => mkDiagnostic SeverityError e.1 e.2) <$> errorList
      else
        [mkDiagnostic SeverityError zeroRange ("failed to parse spx file: " +:+ text)]
  | ASTCodeError _ range text => [mkDiagnostic SeverityError range text]
  | ASTOtherError _ text =>
      [mkDiagnostic SeverityError zeroRange ("failed to parse spx file: " +:+ text)]
  end.

Definition astFileOf (ast : ASTResult) : option ASTFile :=
  match ast with
  | ASTParsed f | ASTCodeError f _ _ | ASTOtherError f _ => f
  | ASTErrorList f _ _ => Some f
  end.

(** The body of the loop of [compileAt] over [spxFiles]. *)
Definition compileFile (result : compileResult) (spxFile : string) : compileResult :=
  let documentURI := toDocumentURI s spxFile in
  (* result.diagnostics[documentURI] = []Diagnostic{} *)
  let result :=
    set_diagnostics result (<[documentURI := []]> (diagnostics result))
      (seenDiagnostics result) (hasErrorSeverityDiagnostic result) in
  let ast := AST (proj result) spxFile in
  (* one call of addDiagnostics for each diagnostic *)
  let result :=
    foldl (fun result d => addDiagnostics result documentURI [d]) result
      (astErrorDiagnostics ast) in
  match astFileOf ast with
  | None => result
  | Some astFile =>
      if negb (bool_decide (PkgName astFile = "main")) && FilePosValid astFile then
        addDiagnostics result documentURI
          [mkDiagnostic SeverityError (NameRange astFile) "package name must be main"]
      else if bool_decide (path.Base spxFile = "main.spx") then
        set_mainSpxFile result spxFile
      else result
  end.

(** [handleErr] over the errors of the type checker; [None] is its panic. *)
Definition handleErr (result : option compileResult) (err : CheckError) : option compileResult :=
  match result, err with
  | None, _ => None
  | Some result, OtherCheckError => Some result
  | Some result, TypesError posValid filename range msg =>
      if negb posValid then None
      else Some (addDiagnostics result (toDocumentURI s filename)
                   [mkDiagnostic SeverityError range msg])
  end.

(** [compileAt] *)
Definition compileAt (snapshot : Project) : compileOutcome :=
  match ListSpxFiles snapshot with
  | inr err => compileError ("failed to get spx files: " +:+ err)
  | inl spxFiles =>
      if decide (length spxFiles = 0%nat) then compileError errNoMainSpxFile
      else
        let result := foldl compileFile (newCompileResult snapshot) spxFiles in
        if decide (mainSpxFile result = "") then
          if decide (size (diagnostics result) = 0%nat) then compileError errNoMainSpxFile
          else compiled result
        else
          match foldl handleErr (Some result) (TypeInfoErrors snapshot) with
          | None => compilePanic "unexpected nopos error"
          | Some result =>
              let result := inspectForSpxResourceSet result in
              let result := inspectForSpxResourceRefs result in
              compiled (inspectDiagnosticsAnalyzers result)
          end
  end.

(** ** Definitions of identifiers (compile.go, util.go) *)

(** The package documentation passed along: that of the project for an
    object of the main package, else what [pkgdata.GetPkgDoc] has for the
    path of the object's package. *)
Inductive PkgDoc := MainPkgDoc | ImportedPkgDoc (pkgPath : string).

(** The definition records, by the function that makes each of them (the
    [GetSpxDefinitionFor...] functions are outside the files at hand). *)
Inductive SpxDefinition :=
| GetSpxDefinitionForBuiltinObj (obj : Object)
| GetSpxDefinitionForVar (v : Object) (selectorTypeName : string) (forceVar : bool) (pkgDoc : PkgDoc)
| GetSpxDefinitionForConst (c : Object) (pkgDoc : PkgDoc)
| GetSpxDefinitionForType (t : Object) (pkgDoc : PkgDoc)
| GetSpxDefinitionForFunc (fn : Object) (selectorTypeName : string) (pkgDoc : PkgDoc)
| GetSpxDefinitionForPkg (p : Object) (pkgDoc : PkgDoc).

(** [isUnexpandableGopOverloadableFunc] (util.go) *)
Definition isUnexpandableGopOverloadableFunc (proj : Project) (fn : Object) : bool :=
  CheckSigFuncEx proj fn && negb (bool_decide (is_Some (CheckSigFuncExObjects proj fn))).

(** The type assertion [obj.(types.Func)]; [None] is its panic. *)
Definition assertFunc (obj : Object) : option Object :=
  if decide (objKind obj = FuncObj) then Some obj else None.

(** [expandGopOverloadableFunc] (util.go): the outer [None] is a panic, the
    inner one the nil slice. *)
Definition expandGopOverloadableFunc (proj : Project) (fn : Object) : option (option (list Object)) :=
  match CheckSigFuncExObjects proj fn with
  | None => Some None
  | Some objs => Some <$> mapM assertFunc objs
  end.

(** [spxDefinitionsFor]; [None] is a panic. *)
Definition spxDefinitionsFor (result : compileResult) (obj : option Object)
    (selectorTypeName : string) : option (list SpxDefinition) :=
  match obj with
  | None => Some []
  | Some obj =>
      if isBuiltinObject obj then Some [GetSpxDefinitionForBuiltinObj obj]
      else
        let pkgDoc :=
          if isMainPkgObject obj then MainPkgDoc
          else ImportedPkgDoc (default "" (objPkgPath obj)) in
        match objKind obj with
        | VarObj =>
            Some [GetSpxDefinitionForVar obj selectorTypeName
                    (IsDefinedInClassFieldsDecl (proj result) obj) pkgDoc]
        | ConstObj => Some [GetSpxDefinitionForConst obj pkgDoc]
        | TypeNameObj => Some [GetSpxDefinitionForType obj pkgDoc]
        | FuncObj =>
            if match DefIdentFor (proj result) obj with
               | Some defIdent => IdentImplicit (proj result) defIdent
               | None => false
               end
            then Some []
            else if isUnexpandableGopOverloadableFunc (proj result) obj then Some []
            else
              match expandGopOverloadableFunc (proj result) obj with
              | None => None
              | Some (Some funcOverloads) =>
                  Some ((fun funcOverload =>
                           GetSpxDefinitionForFunc funcOverload selectorTypeName pkgDoc)
                        <$> funcOverloads)
              | Some None => Some [GetSpxDefinitionForFunc obj selectorTypeName pkgDoc]
              end
        | PkgNameObj => Some [GetSpxDefinitionForPkg obj pkgDoc]
        | _ => Some []
        end
  end.

(** [spxDefinitionsForIdent] *)
Definition spxDefinitionsForIdent (result : compileResult) (ident : Node) : option (list SpxDefinition) :=
  match ident with
  | Ident id _ name =>
      if decide (name = "_") then Some []
      else spxDefinitionsFor result (ObjectOf (proj result) id)
             (SelectorTypeNameForIdent (proj result) ident)
  | _ => Some []
  end.

End Resolvers.

(** ** Document URIs (server.go) *)

(** [strings.CutPrefix(s, prefix)]: [None] when [s] does not start with
    [prefix]; [HasPrefix] and [TrimPrefix] are its two halves. *)
Fixpoint CutPrefix (s prefix : string) : option string :=
  match prefix, s with
  | EmptyString, _ => Some s
  | String a prefix', String b s' =>
      if decide (a = b) then CutPrefix s' prefix' else None
  | String _ _, EmptyString => None
  end.

Definition HasPrefix (s prefix : string) : bool :=
  match CutPrefix s prefix with Some _ => true | None => false end.

Definition TrimPrefix (s prefix : string) : string :=
  match CutPrefix s prefix with Some rest => rest | None => s end.

(** The error of [fromDocumentURI]: "document URI %q does not have workspace
    root URI %q as prefix". *)
Inductive uriError := errNoRootPrefix (uri rootURI : string).

(** [fromDocumentURI] *)
Definition fromDocumentURI (s : Server) (documentURI : DocumentURI) : string + uriError :=
  let uri := documentURI in
  let rootURI := workspaceRootURI s in
  if negb (HasPrefix uri rootURI) then inr (errNoRootPrefix uri rootURI)
  else inl (TrimPrefix uri rootURI).

(** ** Document changes (text_synchronization.go) *)

(** [protocol.TextDocumentContentChangeEvent]: [Range] is a pointer. *)
Record TextDocumentContentChangeEvent := {
  EventRange : option Range;
  RangeLength : N;
  Text : list Z
}.

(** The errors of [changedText] and [applyIncrementalChanges], all wrapping
    [jsonrpc2.ErrInternal]. *)
Inductive changeError :=
| errNoContentChanges   (* "no content changes provided" *)
| errFileNotFound       (* "file not found" *)
| errNilRange           (* "unexpected nil range for change" *)
| errInvalidRange.      (* "invalid range for content change" *)

(** What the two functions do: return the content, return an error, or
    panic on a slice out of range. *)
Inductive changeOutcome :=
| Changed (content : list Z)
| ChangeFailed (err : changeError)
| ChangePanic.

(** The loop of [applyIncrementalChanges].  [content[:start]] panics when
    [start] exceeds the capacity; when [start] exceeds the length only,
    [content[end:]] panics, since [end >= start]: either way the call
    panics when an offset lies beyond the length, which is what [slice]
    says. *)
Fixpoint applyChanges (content : list Z) (changes : list TextDocumentContentChangeEvent)
    : changeOutcome :=
  match changes with
  | [] => Changed content
  | change :: changes' =>
      match EventRange change with
      | None => ChangeFailed errNilRange
      | Some range =>
          match positionOffset content (Start range),
                positionOffset content (End_ range) with
          | Some start, Some end_ =>
              if (end_ <? start)%Z then ChangeFailed errInvalidRange
              else
                match slice content 0 start,
                      slice content end_ (Z.of_nat (length content)) with
                | Some before, Some after =>
                    applyChanges (before ++ Text change ++ after) changes'
                | _, _ => ChangePanic
                end
          | _, _ => ChangePanic
          end
      end
  end.

(** [applyIncrementalChanges] *)
Definition applyIncrementalChanges `{FileStore P} (p : P) (path : string)
    (changes : list TextDocumentContentChangeEvent) : changeOutcome :=
  match File p path with
  | None => ChangeFailed errFileNotFound
  | Some file => applyChanges (Content file) changes
  end.


(** ** Locations (util.go) *)

Record Location := { LocURI : DocumentURI; LocRange : Range }.

Global Instance Location_eq_dec : EqDecision Location.
Proof. solve_decision. Defined.

(** [fmt.Sprintf("%s:%d:%d", loc.URI, loc.Range.Start.Line,
    loc.Range.Start.Character)] *)
Definition locationKey (loc : Location) : string :=
  LocURI loc +:+ ":" +:+ fmt.d (Line (Start (LocRange loc))) +:+ ":"
    +:+ fmt.d (Character (Start (LocRange loc))).

(** One turn of the loop of [deduplicateLocations]. *)
Definition deduplicateLocation (st : list Location * gset string) (loc : Location)
    : list Location * gset string :=
  let '(result, seen) := st in
  let key := locationKey loc in
  if decide (key ∈ seen) then st else (result ++ [loc], {[key]} ∪ seen).

(** [deduplicateLocations] *)
Definition deduplicateLocations (locations : list Location) : list Location :=
  (foldl deduplicateLocation ([], ∅) locations).1.

(** ** Names (util.go, internal/util/util.go) *)

(** [string(b)] for a byte [b]: the UTF-8 encoding of the code point [b],
    two bytes from 0x80 on. *)
Definition stringOfByte (b : N) : string :=
  if (b <? 0x80)%N then String (ascii_of_N b) ""
  else String (ascii_of_N (N.lor 0xC0 (N.shiftr b 6)))
         (String (ascii_of_N (N.lor 0x80 (N.land b 0x3F))) "").

(** [toLowerCamelCase]: [string(s[0]|32) + s[1:]]. *)
Definition toLowerCamelCase (s : string) : string :=
  match s with
  | EmptyString => s
  | String c rest => stringOfByte (N.lor (N_of_ascii c) 32) +:+ rest
  end.

(** [strings.Cut(s, sep)] for a separator of one byte: the text before and
    after its first occurrence, [None] when there is none. *)
Fixpoint Cut (s : string) (sep : ascii) : option (string * string) :=
  match s with
  | EmptyString => None
  | String c s' =>
      if decide (c = sep) then Some (EmptyString, s')
      else match Cut s' sep with
           | Some (before, after) => Some (String c before, after)
           | None => None
           end
  end.

Definition GoptPrefix : string := "Gopt_".
Definition GopxPrefix : string := "Gopx_".

(** [SplitGoptMethodName]: [None] is the result [("", "", false)].
    [name[len(GoptPrefix):]] is what [CutPrefix] leaves. *)
Definition SplitGoptMethodName (name : string) : option (string * string) :=
  if negb (HasPrefix name GoptPrefix) then None
  else
    match Cut (TrimPrefix name GoptPrefix) "_"%char with
    | None => None
    | Some (recvTypeName, methodName) =>
        Some (recvTypeName, TrimPrefix methodName GopxPrefix)
    end.

(** ** Parentheses (internal/analysis/ast/astutil) *)

Module astutil.

(** An expression is a [*ast.ParenExpr] around another one, or any other
    expression. *)
Inductive Expr :=
| ParenExpr (Lparen : Z) (X : Expr) (Rparen : Z)
| OtherExpr (e : Node).

(** [Unparen]: the loop ends at the first expression that is no
    [ParenExpr]. *)
Fixpoint Unparen (e : Expr) : Expr :=
  match e with
  | ParenExpr _ X _ => Unparen X
  | OtherExpr _ => e
  end.

End astutil.

(** ** The resource reference at a position (compile.go) *)

(** [token.Position] *)
Record TokenPosition := { Filename : string; PosLine : Z; Column : Z }.

Section ResourceRefAt.

(** [fset.Position], and [Pos()] and [End()] of the node of a reference,
    which the result knows by its identity. *)
Variable FsetPosition : Z -> TokenPosition.
Variable NodePos : NodeId -> Z.
Variable NodeEnd : NodeId -> Z.

(** The test that skips a reference in [spxResourceRefAtASTFilePosition]. *)
Definition refOutside (position : TokenPosition) (ref : SpxResourceRef) : bool :=
  let nodePos := FsetPosition (NodePos (RefNode ref)) in
  let nodeEnd := FsetPosition (NodeEnd (RefNode ref)) in
  negb (bool_decide (Filename nodePos = Filename position)) ||
  negb (bool_decide (PosLine position = PosLine nodePos)) ||
  (Column position <? Column nodePos)%Z ||
  (Column position >? Column nodeEnd)%Z.

Definition refSpan (ref : SpxResourceRef) : Z :=
  (Column (FsetPosition (NodeEnd (RefNode ref))) -
   Column (FsetPosition (NodePos (RefNode ref))))%Z.

(** One turn of its loop: the state is [bestRef] and [bestNodeSpan].  The
    loop variable is a new one in every turn (Go 1.22), so that [&ref] is
    the reference of the turn that stored it. *)
Definition refAtStep (position : TokenPosition) (st : option SpxResourceRef * Z)
    (ref : SpxResourceRef) : option SpxResourceRef * Z :=
  let '(bestRef, bestNodeSpan) := st in
  if refOutside position ref then st
  else
    let nodeSpan := refSpan ref in
    if bool_decide (bestRef = None) || (nodeSpan <? bestNodeSpan)%Z
    then (Some ref, nodeSpan)
    else st.

(** [spxResourceRefAtASTFilePosition]; the AST file is not used. *)
Definition spxResourceRefAtASTFilePosition (r : compileResult) (position : TokenPosition)
    : option SpxResourceRef :=
  (foldl (refAtStep position) (None, 0%Z) (spxResourceRefs r)).1.

End ResourceRefAt.

(** ** UTF-16 lengths (util.go) *)

(** [utf16Offset]: [len(utf16.Encode([]rune(s)))]; [Encode] writes two
    words for a rune of [RuneLen] 2 and one word for any other, the
    replacement character included. *)
Definition utf16Offset (s : list Z) : Z :=
  foldr (fun r n => ((if (utf16.RuneLen r =? 2)%Z then 2 else 1) + n)%Z) 0%Z
        (rangeRunes 0 s).

(* ================================================================== *)
(** * Part II.  Properties                                             *)
(* ================================================================== *)

(** ** Fingerprints identify the (severity, range, message) triple *)

Section Fingerprint.

(** [c] does not occur in [s]. *)
Fixpoint absent (c : ascii) (s : string) : Prop :=
  match s with
  | EmptyString => True
  | String a s' => a <> c /\ absent c s'
  end.

(** The three characters that delimit the parts of a fingerprint; none of
    them is a decimal digit. *)
Definition delimiter (c : ascii) : Prop :=
  c = fmt.LF \/ c = " "%char \/ c = "}"%char.

Lemma append_nil (s : string) : "" +:+ s = s.
Proof. reflexivity. Qed.

Lemma append_cons (a : ascii) (s t : string) :
  String a s +:+ t = String a (s +:+ t).
Proof. reflexivity. Qed.

Lemma append_assoc (s1 s2 s3 : string) :
  (s1 +:+ s2) +:+ s3 = s1 +:+ (s2 +:+ s3).
Proof.
  induction s1 as [|a s1 IH]; [reflexivity|].
  rewrite !append_cons. by f_equal.
Qed.

Lemma String_tail_inj (a : ascii) (s t : string) :
  String a s = String a t -> s = t.
Proof. intros H. by injection H. Qed.

(** Bring a concatenation into the form [a1 :: ... :: (s +:+ ...)]. *)
Ltac string_norm :=
  repeat (rewrite append_cons || rewrite append_nil || rewrite append_assoc).

Lemma absent_digits (c : ascii) (u : Decimal.uint) :
  delimiter c -> absent c (NilEmpty.string_of_uint u).
Proof.
  intros Hc. induction u; simpl; try exact I;
    (split; [ | assumption ]);
    destruct Hc as [-> | [-> | ->]]; discriminate.
Qed.

Lemma absent_fmt_d (c : ascii) (n : N) : delimiter c -> absent c (fmt.d n).
Proof. apply absent_digits. Qed.

(** Two strings that are free of [c] and are followed by [c] are cut at the
    same place. *)
Lemma cut_at_delimiter (c : ascii) (s1 s2 t1 t2 : string) :
  absent c s1 -> absent c s2 ->
  s1 +:+ String c t1 = s2 +:+ String c t2 -> s1 = s2 /\ t1 = t2.
Proof.
  revert s2. induction s1 as [|a s1 IH]; intros [|b s2]; simpl;
    rewrite ?append_cons, ?append_nil.
  - intros _ _ H. by injection H.
  - intros _ [Hb _] H. injection H as H _. by subst.
  - intros [Ha _] _ H. injection H as H _. by subst.
  - intros [_ H1] [_ H2] H. injection H as -> H.
    destruct (IH _ H1 H2 H) as [-> ->]. done.
Qed.

Lemma string_of_uint_inj (u v : Decimal.uint) :
  NilEmpty.string_of_uint u = NilEmpty.string_of_uint v -> u = v.
Proof.
  intros H. pose proof (NilEmpty.usu u) as Hu. rewrite H, NilEmpty.usu in Hu.
  by injection Hu.
Qed.

Lemma fmt_d_inj (m n : N) : fmt.d m = fmt.d n -> m = n.
Proof.
  intros H. apply DecimalN.Unsigned.to_uint_inj. by apply string_of_uint_inj.
Qed.

(** Cutting a number off the front of a string. *)
Lemma cut_number (c : ascii) (m n : N) (t1 t2 : string) :
  delimiter c ->
  fmt.d m +:+ String c t1 = fmt.d n +:+ String c t2 -> m = n /\ t1 = t2.
Proof.
  intros Hc H.
  apply cut_at_delimiter in H as [H ->]; [ | by apply absent_fmt_d ..].
  split; [by apply fmt_d_inj | done].
Qed.

Lemma fmt_v_Position_cut (p q : Position) (t1 t2 : string) :
  fmt_v_Position p +:+ t1 = fmt_v_Position q +:+ t2 -> p = q /\ t1 = t2.
Proof.
  destruct p as [a b], q as [a' b']. unfold fmt_v_Position.
  cbn [Line Character]. string_norm. intros H. apply String_tail_inj in H.
  apply cut_number in H as [-> H]; [ | right; by left].
  apply cut_number in H as [-> H]; [ | right; by right].
  done.
Qed.

Lemma fmt_v_Range_cut (r s : Range) (t1 t2 : string) :
  fmt_v_Range r +:+ t1 = fmt_v_Range s +:+ t2 -> r = s /\ t1 = t2.
Proof.
  destruct r as [a b], s as [a' b']. unfold fmt_v_Range. cbn [Start End_].
  remember (fmt_v_Position a) as pa eqn:Epa.
  remember (fmt_v_Position b) as pb eqn:Epb.
  remember (fmt_v_Position a') as pa' eqn:Epa'.
  remember (fmt_v_Position b') as pb' eqn:Epb'.
  string_norm. intros H. apply String_tail_inj in H. subst pa pb pa' pb'.
  apply fmt_v_Position_cut in H as [-> H]. apply String_tail_inj in H.
  apply fmt_v_Position_cut in H as [-> H]. apply String_tail_inj in H.
  by subst.
Qed.

(** The triple that the duplicate check compares. *)
Definition sameTriple (d1 d2 : Diagnostic) : Prop :=
  Severity d1 = Severity d2 /\ DRange d1 = DRange d2 /\ Message d1 = Message d2.

Lemma fingerprint_sameTriple (d1 d2 : Diagnostic) :
  fingerprint d1 = fingerprint d2 <-> sameTriple d1 d2.
Proof.
  unfold fingerprint, sameTriple. split.
  - intros H. apply cut_number in H as [-> H]; [ | by left].
    apply fmt_v_Range_cut in H as [-> H]. apply String_tail_inj in H.
    by subst.
  - intros (-> & -> & ->). done.
Qed.

End Fingerprint.

(** ** Diagnostics: de-duplication and the error flag (compile.go) *)

Section Diagnostics.

Global Instance sameTriple_dec (d1 d2 : Diagnostic) : Decision (sameTriple d1 d2).
Proof. unfold sameTriple. apply _. Defined.

(** The fingerprints of a list of diagnostics. *)
Definition fingerprints (ds : list Diagnostic) : gset string :=
  list_to_set (fingerprint <$> ds).

Lemma elem_of_fingerprints (fp : string) (ds : list Diagnostic) :
  fp ∈ fingerprints ds <-> exists d, d ∈ ds /\ fingerprint d = fp.
Proof.
  unfold fingerprints. rewrite elem_of_list_to_set, list_elem_of_fmap.
  split; intros (d & H1 & H2); exists d; done.
Qed.

Lemma fingerprints_app (ds es : list Diagnostic) :
  fingerprints (ds ++ es) = fingerprints ds ∪ fingerprints es.
Proof. unfold fingerprints. rewrite fmap_app. apply list_to_set_app_L. Qed.

(** Some diagnostic of [ds] has the triple of [diag]. *)
Definition stored (diag : Diagnostic) (ds : list Diagnostic) : Prop :=
  Exists (fun e => sameTriple e diag) ds.

(** Some diagnostic of [ds] is an error. *)
Definition hasError (ds : list Diagnostic) : Prop :=
  Exists (fun d => Severity d = SeverityError) ds.

Lemma stored_fingerprint (diag : Diagnostic) (ds : list Diagnostic) :
  stored diag ds <-> fingerprint diag ∈ fingerprints ds.
Proof.
  unfold stored. rewrite Exists_exists, elem_of_fingerprints.
  split; intros (e & He & H); exists e; (split; [done|]).
  - by apply fingerprint_sameTriple.
  - by apply fingerprint_sameTriple.
Qed.

(** What one turn of the loop does to a state whose fingerprint set is that
    of its list. *)
Lemma addDiagnostic_spec (seen : gset string) (ds : list Diagnostic)
    (flag : bool) (diag : Diagnostic) :
  seen = fingerprints ds ->
  addDiagnostic (seen, ds, flag) diag =
    if decide (stored diag ds)
    then (seen, ds, flag)
    else (fingerprints (ds ++ [diag]), ds ++ [diag],
          if decide (Severity diag = SeverityError) then true else flag).
Proof.
  intros ->. unfold addDiagnostic.
  destruct (decide (fingerprint diag ∈ fingerprints ds)) as [Hin|Hnin].
  - rewrite (decide_True (P := stored diag ds)); [done|].
    by apply stored_fingerprint.
  - rewrite (decide_False (P := stored diag ds));
      [ | by intros H%stored_fingerprint].
    f_equal. f_equal. rewrite fingerprints_app. unfold fingerprints at 2.
    simpl. set_solver.
Qed.

(** The three components of the state after the loop. *)
Definition loopState (r : compileResult) (uri : DocumentURI) (diags : list Diagnostic) :=
  foldl addDiagnostic
    (seenFor r uri, diagnosticsFor r uri, hasErrorSeverityDiagnostic r) diags.

Lemma addDiagnostics_eq (r : compileResult) (uri : DocumentURI) (diags : list Diagnostic) :
  addDiagnostics r uri diags =
  set_diagnostics r
    (<[uri := (loopState r uri diags).1.2]> (diagnostics r))
    (Some (<[uri := (loopState r uri diags).1.1]> (default ∅ (seenDiagnostics r))))
    (loopState r uri diags).2.
Proof.
  unfold addDiagnostics, loopState.
  by destruct (foldl _ _ _) as [[? ?] ?].
Qed.

Lemma diagnosticsFor_add (r : compileResult) (uri uri' : DocumentURI) (diags : list Diagnostic) :
  diagnosticsFor (addDiagnostics r uri diags) uri' =
  if decide (uri = uri') then (loopState r uri diags).1.2 else diagnosticsFor r uri'.
Proof.
  rewrite addDiagnostics_eq. unfold diagnosticsFor. simpl.
  rewrite lookup_insert. by case_decide.
Qed.

Lemma seenFor_add (r : compileResult) (uri uri' : DocumentURI) (diags : list Diagnostic) :
  seenFor (addDiagnostics r uri diags) uri' =
  if decide (uri = uri') then (loopState r uri diags).1.1 else seenFor r uri'.
Proof.
  rewrite addDiagnostics_eq. unfold seenFor. simpl.
  rewrite lookup_insert. by case_decide.
Qed.

Lemma flag_add (r : compileResult) (uri : DocumentURI) (diags : list Diagnostic) :
  hasErrorSeverityDiagnostic (addDiagnostics r uri diags) = (loopState r uri diags).2.
Proof. by rewrite addDiagnostics_eq. Qed.

(** A document whose fingerprint set is exactly that of its stored list,
    without a fingerprint stored twice. *)
Definition seenConsistent (r : compileResult) (uri : DocumentURI) : Prop :=
  seenFor r uri = fingerprints (diagnosticsFor r uri) /\
  NoDup (fingerprint <$> diagnosticsFor r uri).

Lemma hasError_cons_bool (d : Diagnostic) (ds : list Diagnostic) :
  bool_decide (hasError (d :: ds)) =
  bool_decide (Severity d = SeverityError) || bool_decide (hasError ds).
Proof.
  rewrite <- bool_decide_or. apply bool_decide_ext. apply Exists_cons.
Qed.

(** The loop keeps the state consistent, only appends, and raises the flag
    exactly when it appends an error. *)
Lemma loop_spec (diags : list Diagnostic) :
  forall (seen : gset string) (ds : list Diagnostic) (flag : bool),
  seen = fingerprints ds -> NoDup (fingerprint <$> ds) ->
  exists added,
    foldl addDiagnostic (seen, ds, flag) diags =
      (fingerprints (ds ++ added), ds ++ added,
       flag || bool_decide (hasError added)) /\
    NoDup (fingerprint <$> (ds ++ added)) /\
    (forall d, d ∈ added -> d ∈ diags) /\
    (forall d, d ∈ diags -> stored d (ds ++ added)).
Proof.
  induction diags as [|diag diags IH]; intros seen ds flag Hseen Hnd.
  - exists []. rewrite app_nil_r. simpl. split_and!; [ | done | done | ].
    + by rewrite orb_false_r, Hseen.
    + intros d Hd. by apply elem_of_nil in Hd.
  - cbn [foldl]. rewrite (addDiagnostic_spec _ _ _ _ Hseen).
    destruct (decide _) as [Hdup|Hnew].
    + destruct (IH seen ds flag Hseen Hnd) as (added & -> & Hnd' & Hsub & Hall).
      exists added. split_and!; [done | done | | ].
      * intros d Hd. apply elem_of_cons. right. by apply Hsub.
      * intros d [->|Hd]%elem_of_cons; [ | by apply Hall].
        unfold stored in *. rewrite Exists_app. by left.
    + assert (NoDup (fingerprint <$> (ds ++ [diag]))) as Hnd1.
      { rewrite fmap_app. apply NoDup_app. split_and!; [done | | apply NoDup_singleton].
        intros fp Hfp. simpl. rewrite list_elem_of_singleton. intros ->.
        apply Hnew. apply stored_fingerprint. unfold fingerprints.
        by apply elem_of_list_to_set. }
      destruct (IH _ (ds ++ [diag])
                  (if decide (Severity diag = SeverityError) then true else flag)
                  eq_refl Hnd1) as (added & -> & Hnd' & Hsub & Hall).
      exists (diag :: added). rewrite <- !app_assoc. simpl.
      rewrite <- !app_assoc in Hnd'. simpl in Hnd'.
      split_and!; [ | done | | ].
      * f_equal. rewrite hasError_cons_bool.
        destruct (decide (Severity diag = SeverityError)) as [Herr|Hnerr].
        -- rewrite (bool_decide_eq_true_2 _ Herr). simpl. by rewrite orb_true_r.
        -- by rewrite (bool_decide_eq_false_2 _ Hnerr).
      * intros d [->|Hd]%elem_of_cons; apply elem_of_cons; [by left | right; by apply Hsub].
      * intros d [->|Hd]%elem_of_cons.
        -- unfold stored. rewrite !Exists_app, Exists_cons. right. left.
           by apply fingerprint_sameTriple.
        -- specialize (Hall d Hd). by rewrite <- app_assoc in Hall.
Qed.

(** [addDiagnostics] on a consistent document: what it appends and what it
    does to the flag. *)
Lemma addDiagnostics_spec (r : compileResult) (uri : DocumentURI) (diags : list Diagnostic) :
  seenConsistent r uri ->
  exists added,
    diagnosticsFor (addDiagnostics r uri diags) uri = diagnosticsFor r uri ++ added /\
    hasErrorSeverityDiagnostic (addDiagnostics r uri diags) =
      hasErrorSeverityDiagnostic r || bool_decide (hasError added) /\
    seenConsistent (addDiagnostics r uri diags) uri /\
    (forall d, d ∈ added -> d ∈ diags) /\
    (forall d, d ∈ diags -> stored d (diagnosticsFor r uri ++ added)).
Proof.
  intros [Hseen Hnd].
  destruct (loop_spec diags _ _ (hasErrorSeverityDiagnostic r) Hseen Hnd)
    as (added & Hloop & Hnd' & Hsub & Hall).
  exists added. unfold seenConsistent.
  rewrite diagnosticsFor_add, seenFor_add, flag_add, !decide_True by done.
  unfold loopState. rewrite Hloop. done.
Qed.

Lemma addDiagnostics_other (r : compileResult) (uri uri' : DocumentURI) (diags : list Diagnostic) :
  uri <> uri' ->
  diagnosticsFor (addDiagnostics r uri diags) uri' = diagnosticsFor r uri' /\
  seenFor (addDiagnostics r uri diags) uri' = seenFor r uri'.
Proof.
  intros Hne. by rewrite diagnosticsFor_add, seenFor_add, !decide_False.
Qed.

Lemma seenConsistent_add (r : compileResult) (uri : DocumentURI) (diags : list Diagnostic) :
  (forall u, seenConsistent r u) ->
  forall u, seenConsistent (addDiagnostics r uri diags) u.
Proof.
  intros Hall u. destruct (decide (uri = u)) as [<-|Hne].
  - destruct (addDiagnostics_spec r uri diags (Hall uri)) as (? & _ & _ & H & _).
    exact H.
  - destruct (addDiagnostics_other r uri u diags Hne) as [Hd Hs].
    unfold seenConsistent. rewrite Hd, Hs. apply Hall.
Qed.

(** Adding one diagnostic to a consistent document. *)
Lemma addDiagnostics_single (r : compileResult) (uri : DocumentURI) (d : Diagnostic) :
  seenConsistent r uri ->
  diagnosticsFor (addDiagnostics r uri [d]) uri =
    if decide (stored d (diagnosticsFor r uri)) then diagnosticsFor r uri
    else diagnosticsFor r uri ++ [d].
Proof.
  intros [Hseen _]. rewrite diagnosticsFor_add, decide_True by done.
  unfold loopState. cbn [foldl]. rewrite (addDiagnostic_spec _ _ _ _ Hseen).
  by destruct (decide (stored d _)).
Qed.

(** The compile results that a sequence of [addDiagnostics] calls builds
    from a new one. *)
Definition addAll (p : Project) (calls : list (DocumentURI * list Diagnostic)) : compileResult :=
  foldl (fun r call => addDiagnostics r call.1 call.2) (newCompileResult p) calls.

(** The invariant of such results. *)
Definition diagnosticsInvariant (r : compileResult) : Prop :=
  (forall u, seenConsistent r u) /\
  (hasErrorSeverityDiagnostic r = true <-> exists u, hasError (diagnosticsFor r u)).

Lemma diagnosticsInvariant_new (p : Project) : diagnosticsInvariant (newCompileResult p).
Proof.
  split.
  - intros u. split; [done | apply NoDup_nil_2].
  - split; [done|]. intros [u H]. unfold diagnosticsFor in H. simpl in H.
    rewrite lookup_empty in H. simpl in H. unfold hasError in H.
    by apply Exists_nil in H.
Qed.

Lemma diagnosticsInvariant_add (r : compileResult) (uri : DocumentURI) (diags : list Diagnostic) :
  diagnosticsInvariant r -> diagnosticsInvariant (addDiagnostics r uri diags).
Proof.
  intros [Hcons Hflag]. split; [by apply seenConsistent_add|].
  destruct (addDiagnostics_spec r uri diags (Hcons uri))
    as (added & Hds & Hfl & _ & _ & _).
  rewrite Hfl, orb_true_iff, bool_decide_eq_true, Hflag. split.
  - intros [[u Hu] | Hadd].
    + exists u. destruct (decide (uri = u)) as [<-|Hne].
      * rewrite Hds. unfold hasError. rewrite Exists_app. by left.
      * by rewrite (proj1 (addDiagnostics_other r uri u diags Hne)).
    + exists uri. rewrite Hds. unfold hasError. rewrite Exists_app. by right.
  - intros [u Hu]. destruct (decide (uri = u)) as [<-|Hne].
    + rewrite Hds in Hu. unfold hasError in Hu. rewrite Exists_app in Hu.
      destruct Hu as [Hu|Hu]; [left; by exists uri | by right].
    + rewrite (proj1 (addDiagnostics_other r uri u diags Hne)) in Hu.
      left. by exists u.
Qed.

Lemma diagnosticsInvariant_addAll (p : Project) (calls : list (DocumentURI * list Diagnostic)) :
  diagnosticsInvariant (addAll p calls).
Proof.
  unfold addAll. generalize (diagnosticsInvariant_new p).
  generalize (newCompileResult p). induction calls as [|[u ds] calls IH]; intros r Hr.
  - exact Hr.
  - simpl. apply IH. by apply diagnosticsInvariant_add.
Qed.

End Diagnostics.

(** ** Fixtures for the worked instances *)

(** A project without files. *)
Definition emptyProject : Project :=
  {| Types := []; Defs := []; Uses := [];
     ObjectOf := fun _ => None;
     DefIdentFor := fun _ => None;
     ValueSpecOf := fun _ => None;
     NodeFilename := fun _ => "";
     PosFilename := fun _ => "";
     InnermostScopeAt := fun _ => None;
     FileScope := fun _ => None;
     ASTFiles := fun _ => None;
     IsDefinedInClassFieldsDecl := fun _ => false;
     HasSpriteType := fun _ => false;
     RangeForNode := fun _ =>
       {| Start := {| Line := 0; Character := 0 |};
          End_ := {| Line := 0; Character := 0 |} |};
     PathEnclosing := fun _ => None;
     NewSpxResourceSet := fun _ => inl emptyResourceSet;
     IdentImplicit := fun _ => false;
     SelectorTypeNameForIdent := fun _ => "";
     CheckSigFuncEx := fun _ => false;
     CheckSigFuncExObjects := fun _ => None;
     ListSpxFiles := inl [];
     AST := fun _ => ASTParsed None;
     TypeInfoErrors := [];
     AnalyzerDiagnostics := [];
     Unquote := fun _ => None;
     Quote := fun s => s |}.

Definition range00 : Range :=
  {| Start := {| Line := 0; Character := 0 |};
     End_ := {| Line := 0; Character := 4 |} |}.

Definition diagTypeError : Diagnostic :=
  {| Severity := SeverityError; DRange := range00;
     Message := "undefined: foo"; Source := "" |}.

(** The same triple with another source. *)
Definition diagTypeError' : Diagnostic :=
  {| Severity := SeverityError; DRange := range00;
     Message := "undefined: foo"; Source := "types" |}.

(** ** C2: a triple is stored once per document *)

Section DiagnosticDedup.

Lemma filter_none {A} (P : A -> Prop) `{forall x, Decision (P x)} (l : list A) :
  Forall (fun x => ~ P x) l -> filter P l = [].
Proof.
  induction 1 as [|x l Hx _ IH]; [done|].
  by rewrite filter_cons_False.
Qed.

(** Among diagnostics with pairwise different fingerprints a stored triple
    is the triple of exactly one of them. *)
Lemma stored_once (d : Diagnostic) (ds : list Diagnostic) :
  NoDup (fingerprint <$> ds) -> stored d ds ->
  length (filter (fun e => sameTriple e d) ds) = 1.
Proof.
  induction ds as [|e ds IH]; intros Hnd Hst.
  - by apply Exists_nil in Hst.
  - rewrite fmap_cons in Hnd. apply NoDup_cons in Hnd as [Hnot Hnd].
    destruct (decide (sameTriple e d)) as [He|He].
    + rewrite filter_cons_True by done. rewrite (filter_none _ ds); [done|].
      apply Forall_forall. intros e' He' Hs. apply Hnot.
      apply list_elem_of_fmap. exists e'. split; [|done].
      apply fingerprint_sameTriple.
      destruct He as (? & ? & ?), Hs as (? & ? & ?). repeat split; congruence.
    + rewrite filter_cons_False by done. apply IH; [done|].
      by apply Exists_cons in Hst as [?|?].
Qed.

(** A compile result that already holds a diagnostic for [main.spx]. *)
Definition storedResult : compileResult :=
  addDiagnostics (newCompileResult emptyProject) "file:///main.spx" [diagTypeError].

Lemma storedResult_diagnostics :
  diagnosticsFor storedResult "file:///main.spx" = [diagTypeError].
Proof.
  unfold storedResult. rewrite addDiagnostics_single by apply diagnosticsInvariant_new.
  rewrite decide_False; [done|]. intros H. by apply Exists_nil in H.
Qed.

Lemma storedResult_consistent (uri : DocumentURI) : seenConsistent storedResult uri.
Proof. apply seenConsistent_add, diagnosticsInvariant_new. Qed.

(** C2.  As stated the claim fails on a compile result that already holds
    the triple: adding it twice more leaves the list of the document at its
    length, one. *)
Lemma addDiagnostics_stored_triple_no_growth :
  length (diagnosticsFor storedResult "file:///main.spx") = 1 /\
  length
    (diagnosticsFor
       (addDiagnostics
          (addDiagnostics storedResult "file:///main.spx" [diagTypeError])
          "file:///main.spx" [diagTypeError])
       "file:///main.spx") = 1.
Proof.
  assert (stored diagTypeError [diagTypeError]) as Hst
    by (apply Exists_cons; left; repeat split).
  assert (diagnosticsFor (addDiagnostics storedResult "file:///main.spx" [diagTypeError])
            "file:///main.spx" = [diagTypeError]) as H1.
  { rewrite addDiagnostics_single by apply storedResult_consistent.
    rewrite storedResult_diagnostics. by rewrite decide_True. }
  split; [by rewrite storedResult_diagnostics|].
  rewrite addDiagnostics_single.
  - rewrite H1. by rewrite decide_True.
  - apply seenConsistent_add, storedResult_consistent.
Qed.

(** C2, amended.  On a compile result whose fingerprint set for [uri] is
    that of the diagnostics stored for [uri] (every result that
    [addDiagnostics] builds from a new one is such), adding a diagnostic and
    then a diagnostic with the same (severity, range, message) triple, in
    two calls or in one, appends the first diagnostic when its triple is not
    stored yet and nothing when it is: the list of [uri] grows by one
    element or by none.  Either way the list then holds exactly one
    diagnostic with this triple.  The de-duplication is per document: adding
    the triple under another document URI stores it there exactly once as
    well, and does not touch the list of [uri]. *)
Theorem addDiagnostics_same_triple_stored_once
    (r : compileResult) (uri : DocumentURI) (d d' : Diagnostic) :
  seenConsistent r uri ->
  sameTriple d d' ->
  let r2 := addDiagnostics (addDiagnostics r uri [d]) uri [d'] in
  let new := if decide (stored d (diagnosticsFor r uri)) then [] else [d] in
  diagnosticsFor r2 uri = diagnosticsFor r uri ++ new /\
  diagnosticsFor (addDiagnostics r uri [d; d']) uri = diagnosticsFor r uri ++ new /\
  length (diagnosticsFor r2 uri) = (length (diagnosticsFor r uri) + length new)%nat /\
  length (filter (fun e => sameTriple e d) (diagnosticsFor r2 uri)) = 1 /\
  forall uri2, uri2 <> uri -> seenConsistent r uri2 ->
    let r3 := addDiagnostics r2 uri2 [d] in
    diagnosticsFor r3 uri2 =
      diagnosticsFor r uri2 ++
        (if decide (stored d (diagnosticsFor r uri2)) then [] else [d]) /\
    length (filter (fun e => sameTriple e d) (diagnosticsFor r3 uri2)) = 1 /\
    diagnosticsFor r3 uri = diagnosticsFor r2 uri.
Proof.
  intros Hcons Hsame. cbv zeta.
  assert (forall (r0 : compileResult) (u : DocumentURI), seenConsistent r0 u ->
            diagnosticsFor (addDiagnostics r0 u [d]) u =
              diagnosticsFor r0 u ++
                (if decide (stored d (diagnosticsFor r0 u)) then [] else [d]) /\
            stored d (diagnosticsFor (addDiagnostics r0 u [d]) u) /\
            length (filter (fun e => sameTriple e d)
                      (diagnosticsFor (addDiagnostics r0 u [d]) u)) = 1) as Hone.
  { intros r0 u Hc.
    destruct (addDiagnostics_spec r0 u [d] Hc) as (_ & _ & _ & [_ Hnd] & _).
    assert (diagnosticsFor (addDiagnostics r0 u [d]) u =
              diagnosticsFor r0 u ++
                (if decide (stored d (diagnosticsFor r0 u)) then [] else [d])) as Heq.
    { rewrite addDiagnostics_single by done.
      destruct (decide (stored d _)); by rewrite ?app_nil_r. }
    assert (stored d (diagnosticsFor (addDiagnostics r0 u [d]) u)) as Hst.
    { rewrite Heq.
      destruct (decide (stored d _)) as [Hs|_];
        unfold stored in *; rewrite Exists_app; [by left|].
      right. apply Exists_cons. left. repeat split. }
    split_and!; [done | done | by apply stored_once]. }
  destruct (Hone r uri Hcons) as (H1 & Hst1 & Hcount1).
  destruct (addDiagnostics_spec r uri [d] Hcons) as (_ & _ & _ & Hcons1 & _).
  assert (stored d' (diagnosticsFor (addDiagnostics r uri [d]) uri)) as Hst1'.
  { unfold stored in *. eapply Exists_impl; [exact Hst1|]. cbn beta.
    intros e (? & ? & ?). destruct Hsame as (? & ? & ?). repeat split; congruence. }
  assert (diagnosticsFor (addDiagnostics (addDiagnostics r uri [d]) uri [d']) uri
          = diagnosticsFor (addDiagnostics r uri [d]) uri) as H2.
  { rewrite addDiagnostics_single by done. by rewrite decide_True. }
  split_and!.
  - by rewrite H2, H1.
  - destruct Hcons as [Hseen _]. rewrite diagnosticsFor_add, decide_True by done.
    unfold loopState. cbn [foldl]. rewrite (addDiagnostic_spec _ _ _ _ Hseen).
    destruct (decide (stored d (diagnosticsFor r uri))) as [Hs|Hs].
    + rewrite (addDiagnostic_spec _ _ _ _ Hseen). rewrite decide_True.
      * by rewrite app_nil_r.
      * unfold stored in *. eapply Exists_impl; [exact Hs|]. cbn beta.
        intros e (? & ? & ?). destruct Hsame as (? & ? & ?). repeat split; congruence.
    + rewrite (addDiagnostic_spec _ _ _ _ eq_refl). rewrite decide_True; [done|].
      unfold stored. rewrite Exists_app, Exists_cons. right. by left.
  - by rewrite H2, H1, length_app.
  - by rewrite H2.
  - intros uri2 Hne [Hseen2 Hnd2].
    destruct (addDiagnostics_other (addDiagnostics r uri [d]) uri uri2 [d'])
      as [Hd2 Hs2]; [done|].
    destruct (addDiagnostics_other r uri uri2 [d]) as [Hd1 Hs1]; [done|].
    assert (seenConsistent (addDiagnostics (addDiagnostics r uri [d]) uri [d']) uri2)
      as Hc2 by (split; rewrite ?Hs2, ?Hs1, ?Hd2, ?Hd1; done).
    destruct (Hone _ uri2 Hc2) as (H3 & _ & Hcount3).
    split_and!.
    + by rewrite H3, Hd2, Hd1.
    + done.
    + by rewrite (proj1 (addDiagnostics_other _ uri2 uri [d] Hne)).
Qed.

(** The theorem at work on a compile result that already holds the triple:
    the two further diagnostics with this triple are dropped, and the
    triple is stored once. *)
Lemma addDiagnostics_same_triple_stored_once_witness :
  diagnosticsFor
    (addDiagnostics
       (addDiagnostics storedResult "file:///main.spx" [diagTypeError])
       "file:///main.spx" [diagTypeError'])
    "file:///main.spx"
  = diagnosticsFor storedResult "file:///main.spx" ++
      (if decide (stored diagTypeError (diagnosticsFor storedResult "file:///main.spx"))
       then [] else [diagTypeError]).
Proof.
  refine (proj1 (addDiagnostics_same_triple_stored_once
                   storedResult "file:///main.spx"
                   diagTypeError diagTypeError' _ _)).
  - apply storedResult_consistent.
  - repeat split.
Defined.

End DiagnosticDedup.

(** ** C10: the error flag *)

Section ErrorFlag.

(** C10.  In every compile result that a sequence of [addDiagnostics] calls
    builds from [newCompileResult], [hasErrorSeverityDiagnostic] is true if
    and only if a diagnostic of error severity is stored for some document;
    and an addition that is dropped as a duplicate changes neither the flag
    nor the list. *)
Theorem hasErrorSeverityDiagnostic_iff_error_stored
    (p : Project) (calls : list (DocumentURI * list Diagnostic)) :
  (hasErrorSeverityDiagnostic (addAll p calls) = true <->
   exists uri d, d ∈ diagnosticsFor (addAll p calls) uri /\ Severity d = SeverityError) /\
  forall uri d, stored d (diagnosticsFor (addAll p calls) uri) ->
    hasErrorSeverityDiagnostic (addDiagnostics (addAll p calls) uri [d]) =
      hasErrorSeverityDiagnostic (addAll p calls) /\
    diagnosticsFor (addDiagnostics (addAll p calls) uri [d]) uri =
      diagnosticsFor (addAll p calls) uri.
Proof.
  destruct (diagnosticsInvariant_addAll p calls) as [Hcons Hflag]. split.
  - rewrite Hflag. unfold hasError. setoid_rewrite Exists_exists. naive_solver.
  - intros uri d Hst. destruct (Hcons uri) as [Hseen Hnd]. split.
    + rewrite flag_add. unfold loopState. cbn [foldl].
      rewrite (addDiagnostic_spec _ _ _ _ Hseen). by rewrite decide_True.
    + rewrite addDiagnostics_single by done. by rewrite decide_True.
Qed.

End ErrorFlag.

(** ** C3: file versions only grow *)

Section VersionMonotonicity.

(** What [ModifyFiles] relies on: a [PutFile] of a new path or of a newer
    version is read back by [File], and leaves the other paths alone.  Both
    the unconditional store and the version-guarded store of the
    specification satisfy this. *)
Class FileStoreLaws (P : Type) `{FileStore P} : Prop := {
  File_PutFile : forall (p : P) path file,
    (forall old, File p path = Some old -> (Version old < Version file)%Z) ->
    File (PutFile p path file) path = Some file;
  File_PutFile_ne : forall (p : P) path path' file,
    path <> path' -> File (PutFile p path file) path' = File p path'
}.

Global Instance mapFileStore_laws : FileStoreLaws (gmap string FileImpl).
Proof.
  split; simpl.
  - intros. apply lookup_insert_eq.
  - intros. by apply lookup_insert_ne.
Qed.

Definition guardedFileStore : FileStore guardedFiles :=
  {| File := fun m path => m !! path; PutFile := guardedPutFile |}.

Lemma guardedFileStore_laws : @FileStoreLaws guardedFiles guardedFileStore.
Proof.
  split; simpl; unfold guardedPutFile.
  - intros m path file Hnewer. destruct (m !! path) as [old|] eqn:E.
    + specialize (Hnewer old eq_refl).
      rewrite (proj2 (Z.gtb_lt _ _)) by lia. apply lookup_insert_eq.
    + apply lookup_insert_eq.
  - intros m path path' file Hne.
    destruct (m !! path) as [old|]; [destruct (_ >? _)%Z|];
      first [done | by apply lookup_insert_ne].
Qed.

Context {P : Type} `{FileStoreLaws P}.

Definition change (path : string) (c : list Z) (v : Z) : FileChange :=
  {| ChangePath := path; ChangeContent := c; ChangeVersion := v |}.

Definition file (c : list Z) (v : Z) : FileImpl := {| Content := c; Version := v |}.

(** A change to an existing path takes effect exactly when its version is
    strictly greater than the stored one. *)
Lemma modifyFile_existing (p : P) (ch : FileChange) (old : FileImpl) :
  File p (ChangePath ch) = Some old ->
  modifyFile p ch =
    if (Version old <? ChangeVersion ch)%Z
    then PutFile p (ChangePath ch) (file (ChangeContent ch) (ChangeVersion ch))
    else p.
Proof.
  intros Hold. unfold modifyFile. rewrite Hold. by rewrite Z.gtb_ltb.
Qed.

Lemma modifyFile_new (p : P) (ch : FileChange) :
  File p (ChangePath ch) = None ->
  modifyFile p ch = PutFile p (ChangePath ch) (file (ChangeContent ch) (ChangeVersion ch)).
Proof. intros Hnone. unfold modifyFile. by rewrite Hnone. Qed.

(** C3.  When [(c1, v1)] is stored at [path] (the path is new or holds an
    older version), a later update of [path] with a version [v2 < v1] is a
    no-op and the stored file stays [(c1, v1)], whether the two changes come
    in two calls of [ModifyFiles] or in one batch.  In general an update of
    an existing entry overwrites it if its version is strictly greater than
    the stored one and otherwise leaves the project as it is. *)
Theorem ModifyFiles_version_monotone
    (p : P) (path : string) (c1 c2 : list Z) (v1 v2 : Z) :
  (v2 < v1)%Z ->
  (forall old, File p path = Some old -> (Version old < v1)%Z) ->
  let p1 := ModifyFiles p [change path c1 v1] in
  let p2 := ModifyFiles p1 [change path c2 v2] in
  File p1 path = Some (file c1 v1) /\
  p2 = p1 /\
  File p2 path = Some (file c1 v1) /\
  ModifyFiles p [change path c1 v1; change path c2 v2] = p1 /\
  forall (q : P) (ch : FileChange) (old : FileImpl),
    File q (ChangePath ch) = Some old ->
    ((Version old < ChangeVersion ch)%Z ->
       ModifyFiles q [ch] =
         PutFile q (ChangePath ch) (file (ChangeContent ch) (ChangeVersion ch)) /\
       File (ModifyFiles q [ch]) (ChangePath ch) =
         Some (file (ChangeContent ch) (ChangeVersion ch))) /\
    ((ChangeVersion ch <= Version old)%Z -> ModifyFiles q [ch] = q).
Proof.
  intros Hlt Hfresh. cbv zeta. unfold ModifyFiles. cbn [foldl].
  assert (File (modifyFile p (change path c1 v1)) path = Some (file c1 v1)) as H1.
  { destruct (File p path) as [old|] eqn:E.
    - rewrite (modifyFile_existing p (change path c1 v1) old E). simpl.
      rewrite (proj2 (Z.ltb_lt _ _)) by (by apply Hfresh).
      apply File_PutFile. simpl. intros old' E'. apply Hfresh. congruence.
    - rewrite (modifyFile_new p (change path c1 v1) E). apply File_PutFile.
      simpl. intros old' E'. congruence. }
  assert (modifyFile (modifyFile p (change path c1 v1)) (change path c2 v2)
          = modifyFile p (change path c1 v1)) as H2.
  { rewrite (modifyFile_existing _ (change path c2 v2) _ H1). simpl.
    by rewrite (proj2 (Z.ltb_ge _ _)) by lia. }
  split_and!; [done | done | by rewrite H2 | done | ].
  intros q ch old Hold. rewrite (modifyFile_existing _ _ old Hold). split.
  - intros Hnewer. rewrite (proj2 (Z.ltb_lt _ _)) by done. split; [done|].
    apply File_PutFile. intros old' E'. simpl. congruence.
  - intros Hle. by rewrite (proj2 (Z.ltb_ge _ _)) by lia.
Qed.

End VersionMonotonicity.

(** The theorem at work on an empty file map: version 3 does not replace
    version 5. *)
Lemma ModifyFiles_version_monotone_witness :
  ModifyFiles (ModifyFiles (∅ : gmap string FileImpl) [change "main.spx" [104%Z] 5])
    [change "main.spx" [105%Z] 3] !! "main.spx"
  = Some (file [104%Z] 5).
Proof.
  refine (proj1 (proj2 (proj2
    (ModifyFiles_version_monotone (∅ : gmap string FileImpl) "main.spx"
       [104%Z] [105%Z] 5 3 _ _)))).
  - reflexivity.
  - intros old E. simpl in E. by rewrite lookup_empty in E.
Defined.

(** ** C8: positions to byte offsets *)

Section PositionOffset.

Open Scope Z_scope.

Definition position (line character : N) : Position :=
  {| Line := line; Character := character |}.

(** Every line start after the first lies behind the offset the scan began
    at, and not behind the end of the content. *)
Lemma lineStartsFrom_bounds (content : list Z) :
  forall (i x : Z), x ∈ lineStartsFrom i content ->
  i < x <= i + Z.of_nat (length content).
Proof.
  induction content as [|b rest IH]; intros i x Hx; simpl in *.
  - by apply elem_of_nil in Hx.
  - destruct (b =? 10).
    + apply elem_of_cons in Hx as [->|Hx]; [lia|].
      apply IH in Hx. lia.
    + apply IH in Hx. lia.
Qed.

(** Line starts are strictly increasing. *)
Lemma lineStartsFrom_increasing (content : list Z) :
  forall (i : Z) (k : nat) (a b : Z),
  lineStartsFrom i content !! k = Some a ->
  lineStartsFrom i content !! S k = Some b -> a < b.
Proof.
  induction content as [|c rest IH]; intros i k a b Ha Hb; simpl in *.
  - done.
  - destruct (c =? 10).
    + destruct k as [|k].
      * simpl in *. injection Ha as <-.
        assert (b ∈ lineStartsFrom (i + 1) rest) as Hin
          by (apply list_elem_of_lookup; by exists 0%nat).
        apply lineStartsFrom_bounds in Hin. lia.
      * simpl in *. by eapply IH.
    + by eapply IH.
Qed.

Lemma lineStarts_increasing (content : list Z) (k : nat) (a b : Z) :
  lineStarts content !! k = Some a -> lineStarts content !! S k = Some b -> a < b.
Proof.
  unfold lineStarts. destruct k as [|k]; simpl.
  - intros [= <-] Hb.
    assert (b ∈ lineStartsFrom 0 content) as Hin
      by (apply list_elem_of_lookup; by exists 0%nat).
    apply lineStartsFrom_bounds in Hin. lia.
  - apply lineStartsFrom_increasing.
Qed.

Lemma lineStarts_bounds (content : list Z) (k : nat) (a : Z) :
  lineStarts content !! k = Some a -> 0 <= a <= Z.of_nat (length content).
Proof.
  unfold lineStarts. destruct k as [|k]; simpl.
  - intros [= <-]. lia.
  - intros Ha.
    assert (a ∈ lineStartsFrom 0 content) as Hin
      by (apply list_elem_of_lookup; by exists k).
    apply lineStartsFrom_bounds in Hin. lia.
Qed.

Lemma index_Some {A} (s : list A) (i : Z) :
  0 <= i < Z.of_nat (length s) ->
  exists x, index s i = Some x /\ s !! Z.to_nat i = Some x.
Proof.
  intros Hi. unfold index. rewrite (proj2 (Z.leb_le _ _)) by lia.
  destruct (lookup_lt_is_Some_2 s (Z.to_nat i)) as [x Hx]; [lia|].
  by exists x.
Qed.

Lemma slice_Some {A} (s : list A) (lo hi : Z) :
  0 <= lo <= hi -> hi <= Z.of_nat (length s) -> is_Some (slice s lo hi).
Proof.
  intros H1 H2. unfold slice.
  rewrite !(proj2 (Z.leb_le _ _)) by lia. by eexists.
Qed.

(** [positionOffset] never panics. *)
Lemma positionOffset_total (content : list Z) (p : Position) :
  is_Some (positionOffset content p).
Proof.
  unfold positionOffset.
  destruct (Z.of_nat (length content) =? 0) eqn:Elen; [by eexists|].
  apply Z.eqb_neq in Elen.
  destruct (Z.of_N (Line p) >=? Z.of_nat (length (lineStarts content))) eqn:Eline;
    [by eexists|].
  rewrite Z.geb_leb in Eline. apply Z.leb_gt in Eline.
  destruct (index_Some (lineStarts content) (Z.of_N (Line p))) as (lo & -> & Hlo);
    [lia|]. cbn [mbind option_bind].
  pose proof (lineStarts_bounds _ _ _ Hlo) as Hlob.
  destruct (Z.of_N (Line p) + 1 <? Z.of_nat (length (lineStarts content))) eqn:Enext.
  - apply Z.ltb_lt in Enext.
    destruct (index_Some (lineStarts content) (Z.of_N (Line p) + 1))
      as (next & -> & Hnext); [lia|]. cbn [fmap option_fmap option_map mbind option_bind].
    replace (Z.to_nat (Z.of_N (Line p) + 1)) with (S (Z.to_nat (Z.of_N (Line p))))
      in Hnext by lia.
    pose proof (lineStarts_increasing _ _ _ _ Hlo Hnext) as Hinc.
    pose proof (lineStarts_bounds _ _ _ Hnext) as Hnb.
    destruct (lo >=? _); [by eexists|].
    destruct (slice_Some content lo (Z.min (next - 1) (Z.of_nat (length content))))
      as [l ->]; [lia | lia | by eexists].
  - cbn [mbind option_bind].
    destruct (lo >=? _) eqn:Ege; [by eexists|].
    rewrite Z.geb_leb in Ege. apply Z.leb_gt in Ege.
    destruct (slice_Some content lo
                (Z.min (Z.of_nat (length content)) (Z.of_nat (length content))))
      as [l ->]; [lia | lia | by eexists].
Qed.

(** Empty content gives offset 0. *)
Lemma positionOffset_empty (p : Position) : positionOffset [] p = Some 0.
Proof. reflexivity. Qed.

(** A line at or beyond the number of lines gives the length of the
    content. *)
Lemma positionOffset_line_out_of_range (content : list Z) (p : Position) :
  content <> [] ->
  Z.of_nat (length (lineStarts content)) <= Z.of_N (Line p) ->
  positionOffset content p = Some (Z.of_nat (length content)).
Proof.
  intros Hne Hline. unfold positionOffset.
  destruct content as [|b rest]; [done|].
  rewrite (proj2 (Z.eqb_neq _ _)) by (simpl; lia).
  rewrite Z.geb_leb. by rewrite (proj2 (Z.leb_le _ _)).
Qed.

(** C8.  [positionOffset] is total, gives 0 for empty content and the
    length of the content for a line out of range; but the byte offset
    within the line is not saturated at the end of the line when the line
    holds a byte that is not valid UTF-8: for the one-byte content [0xFF]
    and the position (line 0, character 1) the result is 3, which exceeds
    the length 1 of the content.  The loop adds [utf8.RuneLen(RuneError)],
    which is 3, for a byte that the decoder consumed as one. *)
Theorem positionOffset_exceeds_content :
  positionOffset [0xFF] (position 0 1) = Some 3 /\
  Z.of_nat (length [0xFF]) = 1 /\
  (forall content p, is_Some (positionOffset content p)) /\
  (forall p, positionOffset [] p = Some 0).
Proof.
  split_and!; [reflexivity | reflexivity | apply positionOffset_total
              | apply positionOffset_empty].
Qed.

End PositionOffset.

(** ** C9: the path enclosing an interval *)

Section PathEnclosing.

Import util.
Open Scope Z_scope.

(** Induction on nodes, with the property of all children at hand. *)
Lemma Node_nested_ind (P : util.Node -> Prop)
    (Htok : forall p e, P (tokenNode p e))
    (Hast : forall id p e cs, Forall P cs -> P (astNode id p e cs)) :
  forall n, P n.
Proof.
  fix IH 1. intros [p e | id p e cs].
  - apply Htok.
  - apply Hast. induction cs as [|c cs IHcs]; constructor; [apply IH | apply IHcs].
Qed.





(** The whitespace-augmented interval of the child [c] of a node, with the
    children [pre] before it and the children [post] behind it: it starts
    where the child before [c] ends, and ends where the child behind [c]
    starts. *)
Definition augPos (pre : list util.Node) (c : util.Node) : Z :=
  match last pre with Some b => End b | None => Pos c end.

Definition augEnd (c : util.Node) (post : list util.Node) : Z :=
  match post with next :: _ => Pos next | [] => End c end.














End PathEnclosing.

(** ** C7: the definitions of an overloadable function *)

Section OverloadExpansion.

Definition isFunc (obj : Object) : Prop := objKind obj = FuncObj.

Lemma mapM_assertFunc (objs : list Object) :
  Forall isFunc objs -> mapM assertFunc objs = Some objs.
Proof.
  intros H. apply mapM_Some. induction H as [|o objs Ho _ IH]; constructor; [|done].
  unfold assertFunc. by rewrite decide_True.
Qed.

(** The package documentation that [spxDefinitionsFor] passes along. *)
Definition pkgDocFor (obj : Object) : PkgDoc :=
  if isMainPkgObject obj then MainPkgDoc
  else ImportedPkgDoc (default "" (objPkgPath obj)).

(** The defining identifier of [obj] is implicit. *)
Definition definedImplicitly (p : Project) (obj : Object) : bool :=
  match DefIdentFor p obj with
  | Some defIdent => IdentImplicit p defIdent
  | None => false
  end.

(** C7, amended.  For an identifier other than [_] whose object is a
    function: if the function is in the builtin package, the result is the
    one builtin record, whatever its overloads; else if its defining
    identifier is implicit, the result is empty; else, if the function
    expands to the overloads [overloads], all of them functions, the result
    is one record per overload, in the order of [overloads], so exactly as
    many records as overloads; and if the function is overloadable but
    cannot be expanded, the result is empty. *)
Theorem spxDefinitionsForIdent_overloadable
    (result : compileResult) (id : NodeId) (pos : Z) (name : string) (fn : Object) :
  name <> "_" ->
  ObjectOf (proj result) id = Some fn ->
  isFunc fn ->
  let ident := Ident id pos name in
  let selector := SelectorTypeNameForIdent (proj result) ident in
  (isBuiltinObject fn = true ->
     spxDefinitionsForIdent result ident = Some [GetSpxDefinitionForBuiltinObj fn]) /\
  (isBuiltinObject fn = false -> definedImplicitly (proj result) fn = true ->
     spxDefinitionsForIdent result ident = Some []) /\
  (isBuiltinObject fn = false -> definedImplicitly (proj result) fn = false ->
     (forall overloads,
        CheckSigFuncExObjects (proj result) fn = Some overloads ->
        Forall isFunc overloads ->
        spxDefinitionsForIdent result ident =
          Some ((fun o => GetSpxDefinitionForFunc o selector (pkgDocFor fn)) <$> overloads) /\
        (forall defs, spxDefinitionsForIdent result ident = Some defs ->
           length defs = length overloads)) /\
     (CheckSigFuncEx (proj result) fn = true ->
      CheckSigFuncExObjects (proj result) fn = None ->
      spxDefinitionsForIdent result ident = Some [])).
Proof.
  intros Hname Hobj Hfn. cbv zeta. unfold spxDefinitionsForIdent.
  rewrite decide_False by done. rewrite Hobj. unfold spxDefinitionsFor.
  unfold isFunc in Hfn. rewrite Hfn. fold (definedImplicitly (proj result) fn).
  split_and!.
  - by intros ->.
  - by intros -> ->.
  - intros -> ->. split.
    + intros overloads Hobjs Hall.
      unfold isUnexpandableGopOverloadableFunc, expandGopOverloadableFunc.
      rewrite Hobjs. rewrite bool_decide_eq_true_2 by done.
      rewrite andb_false_r. rewrite mapM_assertFunc by done. simpl.
      split; [done|]. intros defs [= <-]. by rewrite length_fmap.
    + intros Hex Hnone. unfold isUnexpandableGopOverloadableFunc.
      rewrite Hex, Hnone. by rewrite bool_decide_eq_false_2 by (by intros [? ?]).
Qed.

End OverloadExpansion.

(** Fixtures: [Sprite.turn] of the spx package with two overloads, and the
    builtin [real] with three. *)
Definition funcObject (id : ObjId) (name : string) (pkg : option string) : Object :=
  {| objId := id; objKind := FuncObj; objName := name;
     objType := SignatureType None []; objPkgPath := pkg |}.

Definition turnFunc : Object := funcObject 10%positive "Turn" (Some "github.com/goplus/spx").
Definition turnOverloads : list Object :=
  [funcObject 11%positive "Turn__0" (Some "github.com/goplus/spx");
   funcObject 12%positive "Turn__1" (Some "github.com/goplus/spx")].

Definition realFunc : Object := funcObject 20%positive "real" (Some "").
Definition realOverloads : list Object :=
  [funcObject 21%positive "real" (Some ""); funcObject 22%positive "real" (Some "");
   funcObject 23%positive "real" (Some "")].

Definition overloadProject : Project :=
  {| Types := []; Defs := []; Uses := [];
     ObjectOf := fun id =>
       if decide (id = 1%positive) then Some turnFunc
       else if decide (id = 2%positive) then Some realFunc else None;
     DefIdentFor := fun _ => None;
     ValueSpecOf := fun _ => None;
     NodeFilename := fun _ => "main.spx";
     PosFilename := fun _ => "main.spx";
     InnermostScopeAt := fun _ => None;
     FileScope := fun _ => None;
     ASTFiles := fun _ => None;
     IsDefinedInClassFieldsDecl := fun _ => false;
     HasSpriteType := fun _ => false;
     RangeForNode := fun _ => range00;
     PathEnclosing := fun _ => None;
     NewSpxResourceSet := fun _ => inl emptyResourceSet;
     IdentImplicit := fun _ => false;
     SelectorTypeNameForIdent := fun _ => "Sprite";
     CheckSigFuncEx := fun _ => true;
     CheckSigFuncExObjects := fun obj =>
       if decide (objId obj = 10%positive) then Some turnOverloads
       else if decide (objId obj = 20%positive) then Some realOverloads else None;
     ListSpxFiles := inl ["main.spx"];
     AST := fun _ => ASTParsed None;
     TypeInfoErrors := [];
     AnalyzerDiagnostics := [];
     Unquote := fun _ => None;
     Quote := fun s => s |}.

(** C7.  As stated the claim fails for a function of the builtin package:
    [real] has three overloads, and the result is the one builtin record. *)
Lemma spxDefinitionsForIdent_builtin_one_record :
  CheckSigFuncExObjects overloadProject realFunc = Some realOverloads /\
  length realOverloads = 3%nat /\
  spxDefinitionsForIdent (newCompileResult overloadProject) (Ident 2%positive 7%Z "real")
  = Some [GetSpxDefinitionForBuiltinObj realFunc].
Proof. split_and!; reflexivity. Qed.

(** The theorem at work on [turn]: one record for each of its two
    overloads. *)
Lemma spxDefinitionsForIdent_overloadable_witness :
  spxDefinitionsForIdent (newCompileResult overloadProject) (Ident 1%positive 3%Z "turn")
  = Some [GetSpxDefinitionForFunc (funcObject 11%positive "Turn__0" (Some "github.com/goplus/spx"))
            "Sprite" (ImportedPkgDoc "github.com/goplus/spx");
          GetSpxDefinitionForFunc (funcObject 12%positive "Turn__1" (Some "github.com/goplus/spx"))
            "Sprite" (ImportedPkgDoc "github.com/goplus/spx")].
Proof.
  refine (proj1 (proj1 (proj2 (proj2
    (spxDefinitionsForIdent_overloadable (newCompileResult overloadProject)
       1%positive 3%Z "turn" turnFunc _ _ _)) _ _) turnOverloads _ _)).
  - discriminate.
  - reflexivity.
  - reflexivity.
  - reflexivity.
  - reflexivity.
  - reflexivity.
  - repeat constructor.
Defined.

(** ** C1: compiling without a main file *)

Section NoMainFile.

Variable s : Server.

Lemma addDiagnostics_entry (r : compileResult) (uri : DocumentURI) (ds : list Diagnostic) :
  is_Some (diagnostics (addDiagnostics r uri ds) !! uri).
Proof. rewrite addDiagnostics_eq. simpl. rewrite lookup_insert_eq. by eexists. Qed.

Lemma addDiagnostics_each_entry (r : compileResult) (uri : DocumentURI) (ds : list Diagnostic) :
  is_Some (diagnostics r !! uri) ->
  is_Some (diagnostics (foldl (fun r d => addDiagnostics r uri [d]) r ds) !! uri).
Proof.
  revert r. induction ds as [|d ds IH]; intros r Hr; [done|].
  simpl. apply IH. apply addDiagnostics_entry.
Qed.

(** Every file that the loop of [compileAt] handles gets an entry in the
    diagnostics map, be it an empty list. *)
Lemma compileFile_entry (r : compileResult) (spxFile : string) :
  is_Some (diagnostics (compileFile s r spxFile) !! toDocumentURI s spxFile).
Proof.
  unfold compileFile. cbv zeta.
  match goal with |- context [foldl ?f ?r0 ?l] =>
    assert (is_Some (diagnostics (foldl f r0 l) !! toDocumentURI s spxFile)) as H;
      [ apply addDiagnostics_each_entry; simpl; rewrite lookup_insert_eq; by eexists
      | revert H; generalize (foldl f r0 l) ] end.
  intros r' Hr'. destruct (astFileOf _) as [astFile|]; [|done].
  destruct (_ && _); [apply addDiagnostics_entry|].
  by destruct (bool_decide _).
Qed.

Lemma compileFiles_nonempty (r : compileResult) (spxFiles : list string) :
  spxFiles <> [] ->
  size (diagnostics (foldl (compileFile s) r spxFiles)) <> 0%nat.
Proof.
  intros Hne. destruct (exists_last Hne) as (init & last & ->).
  rewrite foldl_app. simpl. intros Hsize.
  apply map_size_empty_iff in Hsize.
  pose proof (compileFile_entry (foldl (compileFile s) r init) last) as [x Hx].
  rewrite Hsize in Hx. by rewrite lookup_empty in Hx.
Qed.

(** With a file to compile and no main file recorded, [compileAt] returns
    the compile result. *)
Lemma compileAt_without_main (snapshot : Project) (spxFiles : list string) :
  ListSpxFiles snapshot = inl spxFiles -> spxFiles <> [] ->
  mainSpxFile (foldl (compileFile s) (newCompileResult snapshot) spxFiles) = "" ->
  compileAt s snapshot =
    compiled (foldl (compileFile s) (newCompileResult snapshot) spxFiles).
Proof.
  intros H Hne Hmain. unfold compileAt. rewrite H.
  rewrite decide_False by (by destruct spxFiles).
  rewrite decide_True by done.
  by rewrite decide_False by (by apply compileFiles_nonempty).
Qed.

End NoMainFile.

(** A project with the one file [Hero.spx], which parses without error
    into package [main]. *)
Definition heroProject : Project :=
  {| Types := []; Defs := []; Uses := [];
     ObjectOf := fun _ => None;
     DefIdentFor := fun _ => None;
     ValueSpecOf := fun _ => None;
     NodeFilename := fun _ => "Hero.spx";
     PosFilename := fun _ => "Hero.spx";
     InnermostScopeAt := fun _ => None;
     FileScope := fun _ => None;
     ASTFiles := fun _ => None;
     IsDefinedInClassFieldsDecl := fun _ => false;
     HasSpriteType := fun _ => false;
     RangeForNode := fun _ => range00;
     PathEnclosing := fun _ => None;
     NewSpxResourceSet := fun _ => inl emptyResourceSet;
     IdentImplicit := fun _ => false;
     SelectorTypeNameForIdent := fun _ => "";
     CheckSigFuncEx := fun _ => false;
     CheckSigFuncExObjects := fun _ => None;
     ListSpxFiles := inl ["Hero.spx"];
     AST := fun _ =>
       ASTParsed (Some {| PkgName := "main"; FilePosValid := true; NameRange := range00 |});
     TypeInfoErrors := [];
     AnalyzerDiagnostics := [];
     Unquote := fun _ => None;
     Quote := fun s => s |}.

Definition server0 : Server := {| workspaceRootURI := "file:///" |}.

(** C1.  Without a file with the [.spx] extension [compileAt] fails with
    the no-main-file error.  With such files it never does: every file gets
    an entry in the diagnostics map, so that the test [len(result.diagnostics)
    == 0] that guards the error cannot succeed, and a compile result is
    returned whenever no main file is recorded.  For the project with the
    one file [Hero.spx], which has no diagnostics at all, [compileAt]
    returns the compile result with an empty diagnostic list instead of the
    error. *)
Theorem compileAt_no_main_file :
  (forall s snapshot,
     ListSpxFiles snapshot = inl [] ->
     compileAt s snapshot = compileError errNoMainSpxFile) /\
  (forall s snapshot spxFiles,
     ListSpxFiles snapshot = inl spxFiles -> spxFiles <> [] ->
     mainSpxFile (foldl (compileFile s) (newCompileResult snapshot) spxFiles) = "" ->
     compileAt s snapshot =
       compiled (foldl (compileFile s) (newCompileResult snapshot) spxFiles)) /\
  (exists result,
     compileAt server0 heroProject = compiled result /\
     mainSpxFile result = "" /\
     diagnostics result = {["file:///Hero.spx" := []]} /\
     hasErrorSeverityDiagnostic result = false).
Proof.
  split_and!.
  - intros s snapshot H. unfold compileAt. by rewrite H.
  - intros s snapshot spxFiles. apply compileAt_without_main.
  - exists (foldl (compileFile server0) (newCompileResult heroProject) ["Hero.spx"]).
    assert (mainSpxFile (foldl (compileFile server0) (newCompileResult heroProject)
                           ["Hero.spx"]) = "") as Hmain by (vm_compute; reflexivity).
    split_and!; [ | exact Hmain | vm_compute; reflexivity | vm_compute; reflexivity].
    by apply compileAt_without_main.
Qed.

(** ** What the resolvers leave alone *)

Section Frame.

Definition isError (d : Diagnostic) : Prop := Severity d = SeverityError.

(** The loop of [addDiagnostics] only appends diagnostics it was given. *)
Lemma loop_appends (P : Diagnostic -> Prop) (diags : list Diagnostic) :
  Forall P diags ->
  forall st, exists added,
    (foldl addDiagnostic st diags).1.2 = st.1.2 ++ added /\ Forall P added.
Proof.
  induction 1 as [|d diags Hd _ IH]; intros [[seen ds] flag].
  - exists []. by rewrite app_nil_r.
  - cbn [foldl]. unfold addDiagnostic at 2.
    destruct (decide _).
    + apply IH.
    + destruct (IH ({[fingerprint d]} ∪ seen, ds ++ [d],
                    if decide (Severity d = SeverityError) then true else flag))
        as (added & -> & Hadded).
      exists (d :: added). simpl. rewrite <- app_assoc. split; [done|].
      by constructor.
Qed.

Lemma addDiagnostics_appends (P : Diagnostic -> Prop) (r : compileResult)
    (uri : DocumentURI) (diags : list Diagnostic) :
  Forall P diags ->
  forall u, exists added,
    diagnosticsFor (addDiagnostics r uri diags) u = diagnosticsFor r u ++ added /\
    Forall P added.
Proof.
  intros HP u. rewrite diagnosticsFor_add. destruct (decide (uri = u)) as [->|].
  - unfold loopState. by apply loop_appends.
  - exists []. by rewrite app_nil_r.
Qed.

(** The project, the main file and the resource set. *)
Definition sameContext (r r' : compileResult) : Prop :=
  proj r' = proj r /\ mainSpxFile r' = mainSpxFile r /\
  spxResourceSet r' = spxResourceSet r.

Definition sameBindings (r r' : compileResult) : Prop :=
  spxSoundResourceAutoBindings r' = spxSoundResourceAutoBindings r /\
  spxSpriteResourceAutoBindings r' = spxSpriteResourceAutoBindings r.

(** The diagnostics of [r'] are those of [r] followed by diagnostics that
    satisfy [P], and consistent if those of [r] are. *)
Definition appendsOnly (P : Diagnostic -> Prop) (r r' : compileResult) : Prop :=
  ((forall u, seenConsistent r u) -> forall u, seenConsistent r' u) /\
  forall u, exists added,
    diagnosticsFor r' u = diagnosticsFor r u ++ added /\ Forall P added.

(** What a resolver may do to a compile result: add references and error
    diagnostics. *)
Definition resolverFrame (r r' : compileResult) : Prop :=
  sameContext r r' /\ sameBindings r r' /\ appendsOnly isError r r'.

Lemma appendsOnly_refl P r : appendsOnly P r r.
Proof. split; [done|]. intros u. exists []. by rewrite app_nil_r. Qed.

Lemma appendsOnly_trans P r1 r2 r3 :
  appendsOnly P r1 r2 -> appendsOnly P r2 r3 -> appendsOnly P r1 r3.
Proof.
  intros [Hc1 Ha1] [Hc2 Ha2]. split; [auto|].
  intros u. destruct (Ha1 u) as (a1 & E1 & F1), (Ha2 u) as (a2 & E2 & F2).
  exists (a1 ++ a2). rewrite E2, E1, app_assoc. split; [done|].
  by apply Forall_app.
Qed.

Lemma appendsOnly_weaken (P Q : Diagnostic -> Prop) r r' :
  (forall d, P d -> Q d) -> appendsOnly P r r' -> appendsOnly Q r r'.
Proof.
  intros HPQ [Hc Ha]. split; [done|]. intros u.
  destruct (Ha u) as (a & E & F). exists a. split; [done|].
  by eapply Forall_impl.
Qed.

Lemma resolverFrame_refl r : resolverFrame r r.
Proof. split; [|split]; [done | done | apply appendsOnly_refl]. Qed.

Lemma resolverFrame_trans r1 r2 r3 :
  resolverFrame r1 r2 -> resolverFrame r2 r3 -> resolverFrame r1 r3.
Proof.
  intros ((?&?&?)&(?&?)&?) ((?&?&?)&(?&?)&?).
  split; [|split].
  - unfold sameContext. split_and!; congruence.
  - unfold sameBindings. split; congruence.
  - by eapply appendsOnly_trans.
Qed.

Lemma appendsOnly_addDiagnostics P r uri diags :
  Forall P diags -> appendsOnly P r (addDiagnostics r uri diags).
Proof.
  intros HP. split.
  - intros. by apply seenConsistent_add.
  - by apply addDiagnostics_appends.
Qed.

Lemma addDiagnostics_context r uri diags :
  sameContext r (addDiagnostics r uri diags) /\
  sameBindings r (addDiagnostics r uri diags) /\
  spxResourceRefs (addDiagnostics r uri diags) = spxResourceRefs r /\
  seenSpxResourceRefs (addDiagnostics r uri diags) = seenSpxResourceRefs r.
Proof. by rewrite addDiagnostics_eq. Qed.

Lemma resolverFrame_addDiagnostics r r1 uri diags :
  resolverFrame r r1 -> Forall isError diags ->
  resolverFrame r (addDiagnostics r1 uri diags).
Proof.
  intros H HP. eapply resolverFrame_trans; [exact H|].
  destruct (addDiagnostics_context r1 uri diags) as (? & ? & _).
  split; [|split]; [done | done | by apply appendsOnly_addDiagnostics].
Qed.

Lemma addSpxResourceRef_frame r ref :
  sameContext r (addSpxResourceRef r ref) /\
  sameBindings r (addSpxResourceRef r ref) /\
  diagnostics (addSpxResourceRef r ref) = diagnostics r /\
  seenDiagnostics (addSpxResourceRef r ref) = seenDiagnostics r /\
  hasErrorSeverityDiagnostic (addSpxResourceRef r ref) = hasErrorSeverityDiagnostic r.
Proof. unfold addSpxResourceRef. by destruct (decide _). Qed.

Lemma resolverFrame_addSpxResourceRef r r1 ref :
  resolverFrame r r1 -> resolverFrame r (addSpxResourceRef r1 ref).
Proof.
  intros H. eapply resolverFrame_trans; [exact H|].
  destruct (addSpxResourceRef_frame r1 ref) as (? & ? & Hd & Hs & _).
  split; [|split]; [done | done | ]. split.
  - intros Hc u. unfold seenConsistent, seenFor, diagnosticsFor in *.
    rewrite Hd, Hs. apply Hc.
  - intros u. exists []. unfold diagnosticsFor. by rewrite Hd, app_nil_r.
Qed.

End Frame.

Section ResolverFrames.

Variable s : Server.

Ltac frame_step :=
  first
    [ apply resolverFrame_refl
    | apply resolverFrame_addDiagnostics; [ | by repeat constructor ]
    | apply resolverFrame_addSpxResourceRef ].

Ltac frame_solve := cbv zeta; repeat case_match; cbn [fst]; repeat frame_step.

Lemma inspectSpxBackdropResourceRefAtExpr_frame r expr dt :
  resolverFrame r (inspectSpxBackdropResourceRefAtExpr s r expr dt).1.
Proof. unfold inspectSpxBackdropResourceRefAtExpr. frame_solve. Qed.

Lemma inspectSpxSoundResourceRefAtExpr_frame r expr dt :
  resolverFrame r (inspectSpxSoundResourceRefAtExpr s r expr dt).1.
Proof. unfold inspectSpxSoundResourceRefAtExpr. frame_solve. Qed.

Lemma inspectSpxWidgetResourceRefAtExpr_frame r expr dt :
  resolverFrame r (inspectSpxWidgetResourceRefAtExpr s r expr dt).1.
Proof. unfold inspectSpxWidgetResourceRefAtExpr. frame_solve. Qed.

Lemma inspectSpxSpriteCostumeResourceRefAtExpr_frame r sprite expr dt :
  resolverFrame r (inspectSpxSpriteCostumeResourceRefAtExpr s r sprite expr dt).1.
Proof. unfold inspectSpxSpriteCostumeResourceRefAtExpr. frame_solve. Qed.

Lemma inspectSpxSpriteAnimationResourceRefAtExpr_frame r sprite expr dt :
  resolverFrame r (inspectSpxSpriteAnimationResourceRefAtExpr s r sprite expr dt).1.
Proof. unfold inspectSpxSpriteAnimationResourceRefAtExpr. frame_solve. Qed.

Lemma inspectSpxSpriteResourceRefAtExpr_frame r expr dt :
  resolverFrame r (inspectSpxSpriteResourceRefAtExpr s r expr dt).1.
Proof.
  destruct expr as [| |id fn args| | | |]; cbn [inspectSpxSpriteResourceRefAtExpr];
    try solve [frame_solve].
  destruct fn as [| | |id' x sel| | |]; try solve [frame_solve].
  destruct x; cbn [inspectSpxSpriteResourceRefAtExpr]; frame_solve.
Qed.

Lemma inspectSpxResourceRefForTypeAtExpr_frame r expr typ sprite :
  resolverFrame r (inspectSpxResourceRefForTypeAtExpr s r expr typ sprite).
Proof.
  unfold inspectSpxResourceRefForTypeAtExpr. cbv zeta.
  repeat case_match;
    first [ apply resolverFrame_refl
          | apply inspectSpxBackdropResourceRefAtExpr_frame
          | apply inspectSpxSpriteResourceRefAtExpr_frame
          | apply inspectSpxSpriteCostumeResourceRefAtExpr_frame
          | apply inspectSpxSpriteAnimationResourceRefAtExpr_frame
          | apply inspectSpxSoundResourceRefAtExpr_frame
          | apply inspectSpxWidgetResourceRefAtExpr_frame ].
Qed.

End ResolverFrames.

(** ** C4: a reference to a sound that does not exist *)

Section SoundNotFound.

Variable s : Server.

(** The references seen are references stored. *)
Definition refsConsistent (r : compileResult) : Prop :=
  forall ref, ref ∈ default ∅ (seenSpxResourceRefs r) -> ref ∈ spxResourceRefs r.

Lemma addSpxResourceRef_stored (r : compileResult) (ref : SpxResourceRef) :
  refsConsistent r -> ref ∈ spxResourceRefs (addSpxResourceRef r ref).
Proof.
  intros Hc. unfold addSpxResourceRef. destruct (decide _) as [Hin|Hnin]; simpl.
  - by apply Hc.
  - apply elem_of_app. right. by apply list_elem_of_singleton.
Qed.

(** A name that is not read off an identifier is a string literal. *)
Lemma spxSoundNameAt_literal (r : compileResult) (expr : Node) (dt : option GoType)
    (name : string) (kind : SpxResourceRefKind) :
  spxSoundNameAt r expr dt = Some (name, kind) ->
  isIdent expr = false -> kind = SpxResourceRefKindStringLiteral.
Proof.
  unfold spxSoundNameAt, nameRefKind. intros H Hid. rewrite Hid in H.
  repeat case_match; simplify_eq/=; done.
Qed.

(** C4.  When the sound resolver reads the non-empty name [name] off the
    expression (a string literal or a string constant of the sound name
    type, or an auto-bound variable of the sound type) and the resource set
    has no sound of that name, it first records the reference with the
    sound's ID, the kind and the node, then adds the error diagnostic
    "sound resource <name> not found" for the document and range of the
    expression, and returns nil.  So the reference is among the stored
    references although the lookup missed, and a diagnostic with this
    severity, range and message is among the stored diagnostics of the
    document; for an expression that is not an identifier the kind is
    string-literal. *)
Theorem inspectSpxSoundResourceRefAtExpr_not_found
    (result : compileResult) (expr : Node) (declaredType : option GoType)
    (name : string) (kind : SpxResourceRefKind) :
  spxSoundNameAt result expr declaredType = Some (name, kind) ->
  name <> "" ->
  Sound (spxResourceSet result) name = None ->
  let ref := mkRef (SpxSoundResourceID name) kind expr in
  let uri := nodeDocumentURI s (proj result) expr in
  let diag :=
    mkDiagnostic SeverityError (RangeForNode (proj result) expr)
      ("sound resource " +:+ Quote (proj result) name +:+ " not found") in
  let out := inspectSpxSoundResourceRefAtExpr s result expr declaredType in
  out = (addDiagnostics (addSpxResourceRef result ref) uri [diag], None) /\
  (refsConsistent result -> ref ∈ spxResourceRefs out.1) /\
  (seenConsistent result uri -> stored diag (diagnosticsFor out.1 uri)) /\
  (isIdent expr = false -> kind = SpxResourceRefKindStringLiteral).
Proof.
  intros Hname Hne Hmiss. cbv zeta.
  assert (inspectSpxSoundResourceRefAtExpr s result expr declaredType =
          (addDiagnostics
             (addSpxResourceRef result (mkRef (SpxSoundResourceID name) kind expr))
             (nodeDocumentURI s (proj result) expr)
             [mkDiagnostic SeverityError (RangeForNode (proj result) expr)
                ("sound resource " +:+ Quote (proj result) name +:+ " not found")],
           None)) as Hout.
  { unfold inspectSpxSoundResourceRefAtExpr. rewrite Hname.
    rewrite decide_False by done. cbv zeta.
    destruct (addSpxResourceRef_frame result
                (mkRef (SpxSoundResourceID name) kind expr)) as ((Hp & _ & Hs) & _).
    by rewrite Hs, Hmiss, Hp. }
  rewrite Hout. cbn [fst]. split_and!.
  - done.
  - intros Hc.
    destruct (addDiagnostics_context
                (addSpxResourceRef result (mkRef (SpxSoundResourceID name) kind expr))
                (nodeDocumentURI s (proj result) expr)
                [mkDiagnostic SeverityError (RangeForNode (proj result) expr)
                   ("sound resource " +:+ Quote (proj result) name +:+ " not found")])
      as (_ & _ & -> & _).
    by apply addSpxResourceRef_stored.
  - intros Hc.
    destruct (addSpxResourceRef_frame result
                (mkRef (SpxSoundResourceID name) kind expr)) as (_ & _ & Hd & Hs & _).
    edestruct (addDiagnostics_spec
                 (addSpxResourceRef result (mkRef (SpxSoundResourceID name) kind expr))
                 (nodeDocumentURI s (proj result) expr)) as (added & -> & _ & _ & _ & Hall).
    { unfold seenConsistent, seenFor, diagnosticsFor in *. rewrite Hd, Hs. exact Hc. }
    apply Hall. by apply list_elem_of_singleton.
  - by eapply spxSoundNameAt_literal.
Qed.

End SoundNotFound.

(** Fixtures: the double quote, and a project in which [strconv.Unquote]
    and [%q] handle strings without escapes. *)
Definition dq : ascii := ascii_of_nat 34.

Definition unquotePlain (lit : string) : option string :=
  match list_ascii_of_string lit with
  | c :: rest =>
      match rev rest with
      | c' :: inner =>
          if decide (c = dq /\ c' = dq) then Some (string_of_list_ascii (rev inner))
          else None
      | [] => None
      end
  | [] => None
  end.

Definition quotePlain (str : string) : string := String dq (str +:+ String dq "").

(** [play "missing"] in main.spx: the argument is node 5, a string literal
    whose parameter type is the sound name type. *)
Definition missingLit : Node :=
  BasicLit 5%positive 6%Z STRING (String dq ("missing" +:+ String dq "")).

Definition playProject : Project :=
  {| Types := [(Some missingLit,
                {| tvType := Some (BasicType KUntypedString); tvIsType := false;
                   tvValue := Some (StringVal "missing") |})];
     Defs := []; Uses := [];
     ObjectOf := fun _ => None;
     DefIdentFor := fun _ => None;
     ValueSpecOf := fun _ => None;
     NodeFilename := fun _ => "main.spx";
     PosFilename := fun _ => "main.spx";
     InnermostScopeAt := fun _ => None;
     FileScope := fun _ => None;
     ASTFiles := fun _ => None;
     IsDefinedInClassFieldsDecl := fun _ => false;
     HasSpriteType := fun _ => false;
     RangeForNode := fun _ => range00;
     PathEnclosing := fun _ => None;
     NewSpxResourceSet := fun _ => inl emptyResourceSet;
     IdentImplicit := fun _ => false;
     SelectorTypeNameForIdent := fun _ => "";
     CheckSigFuncEx := fun _ => false;
     CheckSigFuncExObjects := fun _ => None;
     ListSpxFiles := inl ["main.spx"];
     AST := fun _ => ASTParsed None;
     TypeInfoErrors := [];
     AnalyzerDiagnostics := [];
     Unquote := unquotePlain;
     Quote := quotePlain |}.

(** The theorem at work on [play "missing"] without any sound. *)
Lemma inspectSpxSoundResourceRefAtExpr_not_found_witness :
  inspectSpxSoundResourceRefAtExpr server0 (newCompileResult playProject) missingLit
    (Some SpxSoundNameType)
  = (addDiagnostics
       (addSpxResourceRef (newCompileResult playProject)
          (mkRef (SpxSoundResourceID "missing") SpxResourceRefKindStringLiteral missingLit))
       (nodeDocumentURI server0 (proj (newCompileResult playProject)) missingLit)
       [mkDiagnostic SeverityError
          (RangeForNode (proj (newCompileResult playProject)) missingLit)
          ("sound resource " +:+ Quote (proj (newCompileResult playProject)) "missing"
           +:+ " not found")],
     None).
Proof.
  refine (proj1 (inspectSpxSoundResourceRefAtExpr_not_found server0
                   (newCompileResult playProject) missingLit (Some SpxSoundNameType)
                   "missing" SpxResourceRefKindStringLiteral _ _ _)).
  - vm_compute. reflexivity.
  - discriminate.
  - vm_compute. reflexivity.
Defined.

(** ** C5: the resource root named by [run] *)

Section ResourceRoot.

Variable s : Server.

(** Induction on AST nodes, with the property of all children at hand. *)
Lemma Node_children_ind (P : Node -> Prop)
    (step : forall n, Forall P (childNodes n) -> P n) :
  forall n, P n.
Proof.
  fix IH 1. intros n. apply step.
  destruct n as [| |id fn args|id x sel|id p elts|id p lhs rhs|id p cs]; simpl.
  - constructor.
  - constructor.
  - constructor; [apply IH|].
    induction args as [|c l IHl]; constructor; [apply IH | apply IHl].
  - constructor; [apply IH|]. constructor; [apply IH|]. constructor.
  - induction elts as [|c l IHl]; constructor; [apply IH | apply IHl].
  - apply Forall_app. split.
    + induction lhs as [|c l IHl]; constructor; [apply IH | apply IHl].
    + induction rhs as [|c l IHl]; constructor; [apply IH | apply IHl].
  - induction cs as [|c l IHl]; constructor; [apply IH | apply IHl].
Qed.

(** [Inspect] by the children of a node. *)
Lemma Inspect_eq {S : Type} (f : Node -> S -> bool * S) (n : Node) (st : S) :
  Inspect f n st =
    if (f n st).1 then foldl (fun st c => Inspect f c st) (f n st).2 (childNodes n)
    else (f n st).2.
Proof.
  assert (forall l st0,
            (fix each (nodes : list Node) (st : S) {struct nodes} : S :=
               match nodes with
               | [] => st
               | n0 :: nodes' => each nodes' (Inspect f n0 st)
               end) l st0 = foldl (fun st c => Inspect f c st) st0 l) as Heach.
  { induction l as [|c l IHl]; intros st0; [done|]. simpl. apply IHl. }
  destruct n; cbn [Inspect childNodes]; destruct (f _ st) as [[] st']; cbn [fst snd negb];
    rewrite ?Heach; try reflexivity.
  by rewrite foldl_app.
Qed.

(** The first argument of a call of [run] that the inspection stops at,
    with its recorded type and value. *)
Definition runCallArg (p : Project) (n : Node) : option (Node * TypeAndValue) :=
  match n with
  | CallExpr _ (Ident _ _ name) (firstArg :: _) =>
      if bool_decide (name = "run") then
        match lookupNode (Types p) (nodeId firstArg) with
        | Some tv => Some (firstArg, tv)
        | None => None
        end
      else None
  | _ => None
  end.

(** The calls of [run] that the inspection of a node stops at, in its
    order: it does not descend into such a call. *)
Fixpoint visitedRunArgs (p : Project) (n : Node) : list (Node * TypeAndValue) :=
  match runCallArg p n with
  | Some c => [c]
  | None =>
      let each := fix each (nodes : list Node) : list (Node * TypeAndValue) :=
        match nodes with
        | [] => []
        | m :: nodes' => visitedRunArgs p m ++ each nodes'
        end in
      match n with
      | Ident _ _ _ | BasicLit _ _ _ _ => []
      | CallExpr _ fn args => visitedRunArgs p fn ++ each args
      | SelectorExpr _ x sel => visitedRunArgs p x ++ visitedRunArgs p sel
      | SliceLit _ _ elts => each elts
      | AssignStmt _ _ lhs rhs => each lhs ++ each rhs
      | OtherNode _ _ cs => each cs
      end
  end.

Lemma visitedRunArgs_eq (p : Project) (n : Node) :
  visitedRunArgs p n =
    match runCallArg p n with
    | Some c => [c]
    | None => flat_map (visitedRunArgs p) (childNodes n)
    end.
Proof.
  assert (forall l,
            (fix each (nodes : list Node) : list (Node * TypeAndValue) :=
               match nodes with
               | [] => []
               | m :: nodes' => visitedRunArgs p m ++ each nodes'
               end) l = flat_map (visitedRunArgs p) l) as Heach.
  { induction l as [|c l IHl]; [done|]. simpl. by rewrite IHl. }
  destruct n; cbn [visitedRunArgs childNodes]; destruct (runCallArg p _);
    rewrite ?Heach; try reflexivity.
  - simpl. by rewrite app_nil_r.
  - by rewrite flat_map_app.
Qed.

Definition assignable (tv : TypeAndValue) : bool :=
  match tvType tv with
  | Some t => AssignableToString t
  | None => false
  end.

Definition runArgDiagnostic (p : Project) (arg : Node) : Diagnostic :=
  mkDiagnostic SeverityError (RangeForNode p arg)
    "first argument of run must be a string literal or constant".

(** What the inspection does at a call of [run] it stops at. *)
Definition runStep (main : string) (st : string * compileResult)
    (c : Node * TypeAndValue) : string * compileResult :=
  if assignable c.2
  then (default "" (getStringLitOrConstValue (Unquote (proj st.2)) c.1 c.2), st.2)
  else (st.1, addDiagnostics st.2 (toDocumentURI s main) [runArgDiagnostic (proj st.2) c.1]).

Lemma inspectRunCall_eq (main : string) (n : Node) (st : string * compileResult) :
  inspectRunCall s main n st =
    match runCallArg (proj st.2) n with
    | Some c => (false, runStep main st c)
    | None => (true, st)
    end.
Proof.
  destruct st as [dir r]. unfold inspectRunCall, runCallArg, runStep, assignable.
  simpl. repeat case_match; simplify_eq/=; try done; congruence.
Qed.

Lemma runStep_proj main st c : proj (runStep main st c).2 = proj st.2.
Proof.
  unfold runStep. destruct (assignable _); [done|]. simpl.
  by destruct (addDiagnostics_context st.2 (toDocumentURI s main)
                 [runArgDiagnostic (proj st.2) c.1]) as ((? & _) & _).
Qed.

Lemma runSteps_proj main cs : forall st, proj (foldl (runStep main) st cs).2 = proj st.2.
Proof.
  induction cs as [|c cs IH]; intros st; [done|]. simpl.
  by rewrite IH, runStep_proj.
Qed.

(** The inspection is the run of [runStep] over the calls it stops at. *)
Lemma Inspect_runCalls (main : string) (p : Project) (n : Node) :
  forall st, proj st.2 = p ->
  Inspect (inspectRunCall s main) n st = foldl (runStep main) st (visitedRunArgs p n).
Proof.
  induction n as [n IH] using Node_children_ind. intros st Hp.
  rewrite Inspect_eq, visitedRunArgs_eq, inspectRunCall_eq, Hp.
  destruct (runCallArg p n) as [c|]; [done|]. cbn [fst snd].
  revert st Hp. induction IH as [|c cs Hc _ IHcs]; intros st Hp; [done|].
  simpl. rewrite foldl_app. rewrite <- Hc by done. apply IHcs.
  rewrite Hc by done. by rewrite runSteps_proj.
Qed.

(** The default of the resource root. *)
Definition rootOf (dir : string) : string :=
  if decide (dir = "") then "assets" else dir.

(** The value that a call of [run] with a string-typed first argument sets
    [spxResourceRootDir] to. *)
Definition runArgValue (p : Project) (c : Node * TypeAndValue) : string :=
  default "" (getStringLitOrConstValue (Unquote p) c.1 c.2).

Lemma spxResourceRootDirOf_eq (result : compileResult) (file : Node) :
  ASTFiles (proj result) (mainSpxFile result) = Some file ->
  spxResourceRootDirOf s result =
    (rootOf (foldl (runStep (mainSpxFile result)) ("", result)
               (visitedRunArgs (proj result) file)).1,
     (foldl (runStep (mainSpxFile result)) ("", result)
        (visitedRunArgs (proj result) file)).2).
Proof.
  intros Hfile. unfold spxResourceRootDirOf. rewrite Hfile.
  rewrite (Inspect_runCalls _ (proj result)) by done.
  by destruct (foldl _ _ _).
Qed.

Lemma runStep_appendsOnly main st c : appendsOnly isError st.2 (runStep main st c).2.
Proof.
  unfold runStep. destruct (assignable _); [apply appendsOnly_refl|].
  apply appendsOnly_addDiagnostics. by repeat constructor.
Qed.

Lemma runSteps_appendsOnly main cs :
  forall st, appendsOnly isError st.2 (foldl (runStep main) st cs).2.
Proof.
  induction cs as [|c cs IH]; intros st; [apply appendsOnly_refl|].
  simpl. eapply appendsOnly_trans; [apply runStep_appendsOnly | apply IH].
Qed.

Lemma stored_app (d : Diagnostic) (l added : list Diagnostic) :
  stored d l -> stored d (l ++ added).
Proof. unfold stored. rewrite Exists_app. by left. Qed.

(** Every call whose first argument is not of a string type leaves its
    diagnostic. *)
Lemma runSteps_diagnostic main cs arg tv :
  (arg, tv) ∈ cs -> assignable tv = false ->
  forall st, (forall u, seenConsistent st.2 u) ->
  stored (runArgDiagnostic (proj st.2) arg)
    (diagnosticsFor (foldl (runStep main) st cs).2 (toDocumentURI s main)).
Proof.
  intros Hin Hna. induction cs as [|c cs IH]; intros st Hcons.
  { by apply elem_of_nil in Hin. }
  simpl. apply elem_of_cons in Hin as [<-|Hin].
  - destruct (runSteps_appendsOnly main cs (runStep main st (arg, tv)))
      as [_ Happ].
    destruct (Happ (toDocumentURI s main)) as (added & -> & _).
    apply stored_app. unfold runStep. simpl. rewrite Hna. simpl.
    destruct (addDiagnostics_spec st.2 (toDocumentURI s main)
                [runArgDiagnostic (proj st.2) arg] (Hcons _))
      as (added' & -> & _ & _ & _ & Hall).
    apply Hall. by apply list_elem_of_singleton.
  - rewrite <- (runStep_proj main st c). apply IH; [done|].
    by apply (runStep_appendsOnly main st c).
Qed.

Lemma runSteps_not_assignable main cs :
  Forall (fun c => assignable c.2 = false) cs ->
  forall st, (foldl (runStep main) st cs).1 = st.1.
Proof.
  induction 1 as [|c cs Hc _ IH]; intros st; [done|].
  simpl. rewrite IH. unfold runStep. by rewrite Hc.
Qed.

Lemma runSteps_assignable main cs :
  Forall (fun c => assignable c.2 = true) cs ->
  forall st, (foldl (runStep main) st cs).2 = st.2.
Proof.
  induction 1 as [|c cs Hc _ IH]; intros st; [done|].
  simpl. rewrite IH. unfold runStep. by rewrite Hc.
Qed.

(** C5, amended.  The inspection for the resource root stops at every call
    [run(...)] of main.spx whose callee is the identifier [run], that has
    an argument, whose first argument has a recorded type, and that is not
    inside another such call.  Each of these calls whose first argument has
    a type that is not assignable to [string] gets the error diagnostic
    "first argument of run must be a string literal or constant"; a call
    whose first argument is of a string type gets none, so that no
    diagnostic is added when all calls are of this kind.  The resource root
    is the value of the string literal or constant that is the first
    argument of the last call with a first argument of a string type, and
    "assets" when that value is empty, when that argument is neither a
    literal nor a constant, or when there is no such call. *)
Theorem spxResourceRootDirOf_run_calls (result : compileResult) (file : Node) :
  ASTFiles (proj result) (mainSpxFile result) = Some file ->
  (forall u, seenConsistent result u) ->
  let p := proj result in
  let calls := visitedRunArgs p file in
  let out := spxResourceRootDirOf s result in
  let uri := toDocumentURI s (mainSpxFile result) in
  (forall arg tv, (arg, tv) ∈ calls -> assignable tv = false ->
     stored (runArgDiagnostic p arg) (diagnosticsFor out.2 uri)) /\
  (Forall (fun c => assignable c.2 = true) calls -> out.2 = result) /\
  (Forall (fun c => assignable c.2 = false) calls -> out.1 = "assets") /\
  (forall pre c post,
     calls = pre ++ c :: post -> assignable c.2 = true ->
     Forall (fun c => assignable c.2 = false) post ->
     out.1 = rootOf (runArgValue p c)).
Proof.
  intros Hfile Hcons. cbv zeta. rewrite (spxResourceRootDirOf_eq _ _ Hfile).
  cbn [fst snd]. split_and!.
  - intros arg tv Hin Hna.
    by apply (runSteps_diagnostic (mainSpxFile result) _ arg tv Hin Hna ("", result)).
  - intros Hall. by rewrite runSteps_assignable.
  - intros Hall. by rewrite runSteps_not_assignable.
  - intros pre c post -> Hc Hpost.
    rewrite foldl_app. cbn [foldl]. rewrite runSteps_not_assignable by done.
    unfold runStep at 1. rewrite Hc. cbn [fst snd]. unfold runArgValue.
    by rewrite runSteps_proj.
Qed.

End ResourceRoot.

(** Fixtures: main.spx with the one statement [run dir], where [dir] is a
    variable of type [string], and main.spx with the one statement
    [run 123]. *)
Definition dirIdent : Node := Ident 4%positive 5%Z "dir".
Definition dirTV : TypeAndValue :=
  {| tvType := Some (BasicType KString); tvIsType := false; tvValue := None |}.

Definition intLit : Node := BasicLit 4%positive 5%Z INT "123".
Definition intTV : TypeAndValue :=
  {| tvType := Some (BasicType KUntypedInt); tvIsType := false; tvValue := Some OtherVal |}.

Definition runFile (arg : Node) : Node :=
  OtherNode 1%positive 1%Z
    [CallExpr 2%positive (Ident 3%positive 1%Z "run") [arg]].

Definition runProject (arg : Node) (tv : TypeAndValue) : Project :=
  {| Types := [(Some arg, tv)];
     Defs := []; Uses := [];
     ObjectOf := fun _ => None;
     DefIdentFor := fun _ => None;
     ValueSpecOf := fun _ => None;
     NodeFilename := fun _ => "main.spx";
     PosFilename := fun _ => "main.spx";
     InnermostScopeAt := fun _ => None;
     FileScope := fun _ => None;
     ASTFiles := fun f => if decide (f = "main.spx") then Some (runFile arg) else None;
     IsDefinedInClassFieldsDecl := fun _ => false;
     HasSpriteType := fun _ => false;
     RangeForNode := fun _ => range00;
     PathEnclosing := fun _ => None;
     NewSpxResourceSet := fun _ => inl emptyResourceSet;
     IdentImplicit := fun _ => false;
     SelectorTypeNameForIdent := fun _ => "";
     CheckSigFuncEx := fun _ => false;
     CheckSigFuncExObjects := fun _ => None;
     ListSpxFiles := inl ["main.spx"];
     AST := fun _ => ASTParsed None;
     TypeInfoErrors := [];
     AnalyzerDiagnostics := [];
     Unquote := unquotePlain;
     Quote := quotePlain |}.

(** The compile result when [compileAt] has recorded main.spx. *)
Definition mainResult (p : Project) : compileResult :=
  set_mainSpxFile (newCompileResult p) "main.spx".

(** C5.  As stated the claim fails for [run dir] with a string variable
    [dir]: the first argument is neither a string literal nor a constant,
    the root defaults to "assets", but no diagnostic is emitted. *)
Lemma spxResourceRootDirOf_string_variable :
  getStringLitOrConstValue unquotePlain dirIdent dirTV = None /\
  spxResourceRootDirOf server0 (mainResult (runProject dirIdent dirTV))
  = ("assets", mainResult (runProject dirIdent dirTV)) /\
  diagnostics (mainResult (runProject dirIdent dirTV)) = ∅.
Proof. split_and!; [reflexivity | vm_compute; reflexivity | reflexivity]. Qed.

(** The theorem at work on [run 123]: the diagnostic is stored. *)
Lemma spxResourceRootDirOf_run_calls_witness :
  stored (runArgDiagnostic (proj (mainResult (runProject intLit intTV))) intLit)
    (diagnosticsFor
       (spxResourceRootDirOf server0 (mainResult (runProject intLit intTV))).2
       (toDocumentURI server0 (mainSpxFile (mainResult (runProject intLit intTV))))).
Proof.
  refine (proj1 (spxResourceRootDirOf_run_calls server0
                   (mainResult (runProject intLit intTV)) (runFile intLit) _ _)
            intLit intTV _ _).
  - reflexivity.
  - intros u. exact (proj1 (diagnosticsInvariant_new (runProject intLit intTV)) u).
  - apply list_elem_of_singleton. reflexivity.
  - reflexivity.
Defined.

(** ** C6: auto-bindings and the first var block *)

Section AutoBinding.

Variable s : Server.

(** The guards of the first pass before the auto-binding test: a variable
    of a named type, defined at a valid position of the main file, at its
    outermost scope. *)
Definition eligible (r : compileResult) (ident : Node) (obj : Object) : bool :=
  IsValid (Pos ident) && bool_decide (objKind obj = VarObj) &&
  bool_decide (is_Some (asNamed (objType obj))) &&
  bool_decide (NodeFilename (proj r) ident = mainSpxFile r) &&
  bool_decide (InnermostScopeAt (proj r) (Pos ident) = FileScope (proj r) (mainSpxFile r)).

Definition soundCandidate (r : compileResult) (obj : Object) : bool :=
  isSpxSoundResourceAutoBinding r obj (objType obj).

Definition spriteCandidate (r : compileResult) (obj : Object) : bool :=
  isSpxSpriteResourceAutoBinding r obj (objType obj).

Definition candidate (r : compileResult) (obj : Object) : bool :=
  soundCandidate r obj || spriteCandidate r obj.

Definition firstVarBlock (r : compileResult) (obj : Object) : bool :=
  IsDefinedInClassFieldsDecl (proj r) obj.

(** What an entry of [Defs] does to the auto-binding sets and whether it
    warns. *)
Definition bindsSound (r : compileResult) (e : option Node * option Object) : option ObjId :=
  match e with
  | (Some ident, Some obj) =>
      if eligible r ident obj && soundCandidate r obj && firstVarBlock r obj
      then Some (objId obj) else None
  | _ => None
  end.

Definition bindsSprite (r : compileResult) (e : option Node * option Object) : option ObjId :=
  match e with
  | (Some ident, Some obj) =>
      if eligible r ident obj && negb (soundCandidate r obj) && spriteCandidate r obj
         && firstVarBlock r obj
      then Some (objId obj) else None
  | _ => None
  end.

Definition warns (r : compileResult) (e : option Node * option Object) : option Diagnostic :=
  match e with
  | (Some ident, Some obj) =>
      if eligible r ident obj && candidate r obj && negb (firstVarBlock r obj)
      then Some (autoBindingWarning r ident) else None
  | _ => None
  end.

Definition addId (id : option ObjId) (ids : gset ObjId) : gset ObjId :=
  match id with Some i => {[i]} ∪ ids | None => ids end.

(** These depend on the project, the main file and the resource set only. *)
Lemma context_eligible r r' ident obj :
  sameContext r r' -> eligible r' ident obj = eligible r ident obj.
Proof. intros (Hp & Hm & Hs). unfold eligible. by rewrite Hp, Hm. Qed.

Lemma context_candidates r r' obj :
  sameContext r r' ->
  soundCandidate r' obj = soundCandidate r obj /\
  spriteCandidate r' obj = spriteCandidate r obj /\
  candidate r' obj = candidate r obj /\
  firstVarBlock r' obj = firstVarBlock r obj.
Proof.
  intros (Hp & Hm & Hs).
  unfold candidate, soundCandidate, spriteCandidate, firstVarBlock,
    isSpxSoundResourceAutoBinding, isSpxSpriteResourceAutoBinding.
  by rewrite Hp, Hs.
Qed.

Lemma context_entry r r' e :
  sameContext r r' ->
  bindsSound r' e = bindsSound r e /\ bindsSprite r' e = bindsSprite r e /\
  warns r' e = warns r e.
Proof.
  intros Hc. destruct e as [[ident|] [obj|]]; try done. simpl.
  destruct (context_candidates r r' obj Hc) as (-> & -> & -> & ->).
  rewrite (context_eligible r r' ident obj Hc).
  destruct Hc as (Hp & _). unfold autoBindingWarning. by rewrite Hp.
Qed.

Lemma sameContext_trans r1 r2 r3 :
  sameContext r1 r2 -> sameContext r2 r3 -> sameContext r1 r3.
Proof. intros (?&?&?) (?&?&?). unfold sameContext. split_and!; congruence. Qed.

(** A diagnostic of the first pass: an error of a resolver, or the warning
    of the entry. *)
Definition errorOr (w : option Diagnostic) (d : Diagnostic) : Prop :=
  isError d \/ w = Some d.

Lemma appendsOnly_set_autoBindings P r a b : appendsOnly P r (set_autoBindings r a b).
Proof.
  split.
  - intros Hc u. exact (Hc u).
  - intros u. exists []. by rewrite app_nil_r.
Qed.

(** The effect of one entry of [Defs]. *)
Definition defSpec (r r' : compileResult) (e : option Node * option Object) : Prop :=
  sameContext r r' /\
  spxSoundResourceAutoBindings r' = addId (bindsSound r e) (spxSoundResourceAutoBindings r) /\
  spxSpriteResourceAutoBindings r' = addId (bindsSprite r e) (spxSpriteResourceAutoBindings r) /\
  appendsOnly (errorOr (warns r e)) r r' /\
  (forall w, warns r e = Some w -> (forall u, seenConsistent r u) ->
     stored w (diagnosticsFor r' (toDocumentURI s (mainSpxFile r)))).

(** A resolver frame is what an entry does that neither binds nor warns. *)
Lemma defSpec_frame r r' e :
  bindsSound r e = None -> bindsSprite r e = None -> warns r e = None ->
  resolverFrame r r' -> defSpec r r' e.
Proof.
  intros H1 H2 H3 (Hc & (Hb1 & Hb2) & Ha). unfold defSpec.
  rewrite H1, H2, H3. split_and!; try done.
  eapply appendsOnly_weaken; [|exact Ha]. intros d Hd. by left.
Qed.

Lemma bind_case r a b ident typ :
  let r' := inspectSpxResourceRefForTypeAtExpr s (set_autoBindings r a b) ident typ None in
  sameContext r r' /\
  spxSoundResourceAutoBindings r' = a /\
  spxSpriteResourceAutoBindings r' = b /\
  appendsOnly (errorOr None) r r' /\
  (forall w : Diagnostic, None = Some w -> (forall u, seenConsistent r u) ->
     stored w (diagnosticsFor r' (toDocumentURI s (mainSpxFile r)))).
Proof.
  cbv zeta.
  destruct (inspectSpxResourceRefForTypeAtExpr_frame s (set_autoBindings r a b) ident typ None)
    as (Hc & (Hb1 & Hb2) & Ha).
  split_and!; [exact Hc | exact Hb1 | exact Hb2 | | done].
  eapply appendsOnly_weaken; [ | eapply appendsOnly_trans; [ | exact Ha] ].
  - intros d Hd. by left.
  - apply appendsOnly_set_autoBindings.
Qed.

Lemma warn_case r uri w :
  let r' := addDiagnostics r uri [w] in
  sameContext r r' /\
  spxSoundResourceAutoBindings r' = spxSoundResourceAutoBindings r /\
  spxSpriteResourceAutoBindings r' = spxSpriteResourceAutoBindings r /\
  appendsOnly (errorOr (Some w)) r r' /\
  (forall w', Some w = Some w' -> (forall u, seenConsistent r u) ->
     stored w' (diagnosticsFor r' uri)).
Proof.
  cbv zeta. destruct (addDiagnostics_context r uri [w]) as (Hc & (Hb1 & Hb2) & _).
  split_and!; [exact Hc | exact Hb1 | exact Hb2 | | ].
  - apply appendsOnly_addDiagnostics. constructor; [by right | constructor].
  - intros w' [= <-] Hcons.
    destruct (addDiagnostics_spec r uri [w] (Hcons uri)) as (added & -> & _ & _ & _ & Hall).
    apply Hall. by apply list_elem_of_singleton.
Qed.

Lemma inspectInitializer_frame r ident obj :
  resolverFrame r (inspectInitializer s r ident obj).
Proof.
  unfold inspectInitializer. repeat case_match; try apply resolverFrame_refl;
    apply inspectSpxResourceRefForTypeAtExpr_frame.
Qed.

(** The auto-binding of an entry at a valid position. *)
Lemma inspectAutoBinding_spec r ident obj :
  IsValid (Pos ident) = true ->
  defSpec r (inspectAutoBinding s r ident obj) (Some ident, Some obj).
Proof.
  intros Hv. unfold inspectAutoBinding. cbv zeta.
  change (isSpxSoundResourceAutoBinding r obj (objType obj)) with (soundCandidate r obj).
  change (isSpxSpriteResourceAutoBinding r obj (objType obj)) with (spriteCandidate r obj).
  change (IsDefinedInClassFieldsDecl (proj r) obj) with (firstVarBlock r obj).
  assert (eligible r ident obj =
          bool_decide (objKind obj = VarObj) &&
          bool_decide (is_Some (asNamed (objType obj))) &&
          bool_decide (NodeFilename (proj r) ident = mainSpxFile r) &&
          bool_decide (InnermostScopeAt (proj r) (Pos ident)
                       = FileScope (proj r) (mainSpxFile r))) as Hel.
  { unfold eligible. by rewrite Hv. }
  assert (forall r', resolverFrame r r' -> eligible r ident obj && candidate r obj = false ->
            defSpec r r' (Some ident, Some obj)) as Hskip.
  { intros r' Hf Hno. apply defSpec_frame; try done;
      unfold bindsSound, bindsSprite, warns, candidate in *;
      destruct (eligible r ident obj), (soundCandidate r obj), (spriteCandidate r obj);
      simpl in *; congruence. }
  destruct (bool_decide (objKind obj = VarObj)) eqn:E1; cbn [negb andb] in *;
    [ | apply Hskip; [apply resolverFrame_refl | by rewrite Hel] ].
  destruct (bool_decide (is_Some (asNamed (objType obj)))) eqn:E2; cbn [negb andb] in *;
    [ | apply Hskip; [apply resolverFrame_refl | by rewrite Hel] ].
  destruct (bool_decide (NodeFilename (proj r) ident = mainSpxFile r)) eqn:E3;
    cbn [negb andb orb] in *;
    [ | apply Hskip; [apply resolverFrame_refl | by rewrite Hel] ].
  destruct (bool_decide (InnermostScopeAt (proj r) (Pos ident)
                         = FileScope (proj r) (mainSpxFile r))) eqn:E4;
    cbn [negb andb orb] in *;
    [ | apply Hskip; [apply resolverFrame_refl | by rewrite Hel] ].
  apply bool_decide_eq_true in E3.
  destruct (soundCandidate r obj) eqn:Esnd, (spriteCandidate r obj) eqn:Espr;
    cbn [negb andb orb];
    try (apply Hskip; [apply resolverFrame_refl | unfold candidate; by rewrite Hel, Esnd, Espr]).
  all: unfold defSpec, bindsSound, bindsSprite, warns, candidate; rewrite Hel, Esnd, Espr.
  all: destruct (firstVarBlock r obj) eqn:Efb; cbn [negb andb orb addId].
  all: first [ apply bind_case | rewrite E3; apply warn_case ].
Qed.

(** What the body of the first loop does for one entry. *)
Lemma inspectDef_spec r e : defSpec r (inspectDef s r e) e.
Proof.
  destruct e as [[ident|] [obj|]];
    try (apply defSpec_frame; [done | done | done | apply resolverFrame_refl]).
  unfold inspectDef.
  destruct (IsValid (Pos ident)) eqn:Hv; cbn [negb].
  2: { apply defSpec_frame; try apply resolverFrame_refl;
         unfold bindsSound, bindsSprite, warns, eligible; by rewrite Hv. }
  pose proof (inspectInitializer_frame r ident obj) as Hf1.
  pose proof (inspectAutoBinding_spec (inspectInitializer s r ident obj) ident obj Hv)
    as Hspec.
  revert Hf1 Hspec. generalize (inspectInitializer s r ident obj). intros r1 Hf1.
  generalize (inspectAutoBinding s r1 ident obj). intros r2.
  destruct Hf1 as (Hc1 & (Hb1 & Hb2) & Ha1).
  unfold defSpec.
  destruct (context_entry r r1 (Some ident, Some obj) Hc1) as (-> & -> & ->).
  pose proof Hc1 as (Hp & Hm & Hs). rewrite Hm, Hb1, Hb2.
  intros (Hc2 & Hs2 & Hp2 & Ha2 & Hw2).
  split_and!; [by eapply sameContext_trans | done | done | | ].
  - eapply appendsOnly_trans; [ | exact Ha2].
    eapply appendsOnly_weaken; [ | exact Ha1]. intros d Hd. by left.
  - intros w Hw Hcons. apply Hw2; [done|]. by apply Ha1.
Qed.


(** The effect of the first loop over the entries [es]. *)
Definition passSpec (r r' : compileResult) (es : list (option Node * option Object)) : Prop :=
  sameContext r r' /\
  (forall id, id ∈ spxSoundResourceAutoBindings r' <->
     id ∈ spxSoundResourceAutoBindings r \/ exists e, e ∈ es /\ bindsSound r e = Some id) /\
  (forall id, id ∈ spxSpriteResourceAutoBindings r' <->
     id ∈ spxSpriteResourceAutoBindings r \/ exists e, e ∈ es /\ bindsSprite r e = Some id) /\
  appendsOnly (fun d => isError d \/ exists e, e ∈ es /\ warns r e = Some d) r r' /\
  (forall e w, e ∈ es -> warns r e = Some w -> (forall u, seenConsistent r u) ->
     stored w (diagnosticsFor r' (toDocumentURI s (mainSpxFile r)))).

Lemma elem_of_addId (id : ObjId) (o : option ObjId) (ids : gset ObjId) :
  id ∈ addId o ids <-> id ∈ ids \/ o = Some id.
Proof. destruct o as [i|]; simpl; [set_solver | naive_solver]. Qed.

Lemma inspectDefs_spec (es : list (option Node * option Object)) :
  forall r, passSpec r (foldl (inspectDef s) r es) es.
Proof.
  induction es as [|e es IH]; intros r.
  - unfold passSpec. split_and!; try done.
    + intros id. split; [by left | intros [?|(e & He & _)]; [done | by apply elem_of_nil in He]].
    + intros id. split; [by left | intros [?|(e & He & _)]; [done | by apply elem_of_nil in He]].
    + apply appendsOnly_refl.
    + intros e w He. by apply elem_of_nil in He.
  - cbn [foldl].
    destruct (inspectDef_spec r e) as (Hc1 & Hs1 & Hp1 & Ha1 & Hw1).
    destruct (IH (inspectDef s r e)) as (Hc2 & Hs2 & Hp2 & Ha2 & Hw2).
    pose proof Hc1 as (_ & Hm & _).
    assert (forall e', bindsSound (inspectDef s r e) e' = bindsSound r e' /\
                       bindsSprite (inspectDef s r e) e' = bindsSprite r e' /\
                       warns (inspectDef s r e) e' = warns r e') as Hctx
      by (intros e'; by apply context_entry).
    unfold passSpec. split_and!.
    + by eapply sameContext_trans.
    + intros id. rewrite Hs2, Hs1, elem_of_addId. split.
      * intros [[?|?]|(e' & He' & Hb)]; [by left | right; exists e; split; [left|done] | ].
        right. exists e'. split; [by right | by rewrite <- (proj1 (Hctx e'))].
      * intros [?|(e' & [->|He']%elem_of_cons & Hb)]; [by left; left | by left; right | ].
        right. exists e'. split; [done | by rewrite (proj1 (Hctx e'))].
    + intros id. rewrite Hp2, Hp1, elem_of_addId. split.
      * intros [[?|?]|(e' & He' & Hb)]; [by left | right; exists e; split; [left|done] | ].
        right. exists e'. split; [by right | by rewrite <- (proj1 (proj2 (Hctx e')))].
      * intros [?|(e' & [->|He']%elem_of_cons & Hb)]; [by left; left | by left; right | ].
        right. exists e'. split; [done | by rewrite (proj1 (proj2 (Hctx e')))].
    + eapply appendsOnly_trans.
      * eapply appendsOnly_weaken; [ | exact Ha1].
        intros d [?|Hd]; [by left | right]. exists e. split; [left | done].
      * eapply appendsOnly_weaken; [ | exact Ha2].
        intros d [?|(e' & He' & Hd)]; [by left | right]. exists e'.
        split; [by right | by rewrite <- (proj2 (proj2 (Hctx e')))].
    + intros e' w [->|He']%elem_of_cons Hw Hcons.
      * destruct Ha2 as [_ Happ].
        destruct (Happ (toDocumentURI s (mainSpxFile r))) as (added & -> & _).
        apply stored_app. by apply Hw1.
      * rewrite <- Hm. apply (Hw2 e' w He').
        -- by rewrite (proj2 (proj2 (Hctx e'))).
        -- by apply Ha1.
Qed.

(** The second and the third loop only add references and errors. *)
Lemma foldl_frame {A} (f : compileResult -> A -> compileResult) :
  (forall r a, resolverFrame r (f r a)) ->
  forall l r, resolverFrame r (foldl f r l).
Proof.
  intros Hf. induction l as [|a l IH]; intros r; [apply resolverFrame_refl|].
  simpl. eapply resolverFrame_trans; [apply Hf | apply IH].
Qed.

Lemma inspectUse_frame r e : resolverFrame r (inspectUse s r e).
Proof.
  unfold inspectUse. repeat case_match; try apply resolverFrame_refl.
  apply inspectSpxResourceRefForTypeAtExpr_frame.
Qed.

Lemma inspectArgs_frame params sprite args :
  forall r i last, resolverFrame r (inspectArgs s r params sprite i last args).
Proof.
  induction args as [|arg args IH]; intros r i last; [apply resolverFrame_refl|].
  cbn [inspectArgs]. cbv zeta. eapply resolverFrame_trans; [ | apply IH].
  destruct arg; try apply inspectSpxResourceRefForTypeAtExpr_frame.
  apply foldl_frame. intros. apply inspectSpxResourceRefForTypeAtExpr_frame.
Qed.

Lemma inspectTyped_frame r e : resolverFrame r (inspectTyped s r e).
Proof.
  unfold inspectTyped.
  repeat case_match; subst; try apply resolverFrame_refl;
    try apply inspectSpxResourceRefForTypeAtExpr_frame.
  all: match goal with
       | H : _ = (?r1, _) |- resolverFrame ?r0 (inspectArgs _ ?r1 _ _ _ _ _) =>
           eapply resolverFrame_trans; [ | apply inspectArgs_frame];
           first [ injection H as <- _; apply resolverFrame_refl
                 | pose proof (inspectSpxSpriteResourceRefAtExpr_frame s r0) as Hf;
                   match type of H with
                   | inspectSpxSpriteResourceRefAtExpr _ _ ?e ?t = _ =>
                       specialize (Hf e t); by rewrite H in Hf
                   end ]
       end.
Qed.

Lemma resolverFrame_passSpec r r' r'' es :
  passSpec r r' es -> resolverFrame r' r'' -> passSpec r r'' es.
Proof.
  intros (Hc & Hs & Hp & Ha & Hw) (Hc' & [Hs' Hp'] & Ha').
  unfold passSpec. split_and!.
  - by eapply sameContext_trans.
  - intros id. by rewrite Hs'.
  - intros id. by rewrite Hp'.
  - eapply appendsOnly_trans; [exact Ha|].
    eapply appendsOnly_weaken; [ | exact Ha']. intros d ?. by left.
  - intros e w He Hwe Hcons.
    destruct Ha' as [_ Happ].
    destruct (Happ (toDocumentURI s (mainSpxFile r))) as (added & -> & _).
    apply stored_app. by apply (Hw e w).
Qed.

Lemma inspectForSpxResourceRefs_passSpec r :
  passSpec r (inspectForSpxResourceRefs s r) (Defs (proj r)).
Proof.
  unfold inspectForSpxResourceRefs. cbv zeta.
  eapply resolverFrame_passSpec; [ | apply foldl_frame, inspectTyped_frame].
  eapply resolverFrame_passSpec; [ | apply foldl_frame, inspectUse_frame].
  apply inspectDefs_spec.
Qed.

(** The warning of some candidate of the main file that is declared
    outside the first var block. *)
Definition lateCandidateWarning (r : compileResult) (d : Diagnostic) : Prop :=
  exists ident obj,
    (Some ident, Some obj) ∈ Defs (proj r) /\
    eligible r ident obj = true /\ candidate r obj = true /\
    firstVarBlock r obj = false /\ d = autoBindingWarning r ident.

Lemma warns_lateCandidate r e d :
  e ∈ Defs (proj r) -> warns r e = Some d -> lateCandidateWarning r d.
Proof.
  destruct e as [[ident|] [obj|]]; try done. simpl. intros He Hw.
  destruct (eligible r ident obj) eqn:E1; [|done].
  destruct (candidate r obj) eqn:E2; [|done].
  destruct (firstVarBlock r obj) eqn:E3; [done|].
  simpl in Hw. injection Hw as <-. by exists ident, obj.
Qed.

(** C6. For a variable of the main file, defined at its outermost scope,
    that is a sound or sprite auto-binding candidate: when it is not
    declared in the first var block, [inspectForSpxResourceRefs] leaves the
    warning "resources must be defined in the first var block for
    auto-binding" at the variable among the diagnostics of the main file
    and adds its object to neither auto-binding set; when it is declared in
    the first var block, its object is in the sound set for a sound
    candidate and in the sprite set otherwise.  Every diagnostic the
    function adds is an error or the warning of a candidate declared
    outside the first var block, so none is added for one declared inside
    it. *)
Theorem inspectForSpxResourceRefs_auto_binding
    (r : compileResult) (ident : Node) (obj : Object) :
  (forall u, seenConsistent r u) ->
  (Some ident, Some obj) ∈ Defs (proj r) ->
  (forall ident' obj', (Some ident', Some obj') ∈ Defs (proj r) ->
     objId obj' = objId obj -> obj' = obj) ->
  eligible r ident obj = true ->
  candidate r obj = true ->
  let r' := inspectForSpxResourceRefs s r in
  (firstVarBlock r obj = false ->
     stored (autoBindingWarning r ident)
       (diagnosticsFor r' (toDocumentURI s (mainSpxFile r))) /\
     (objId obj ∈ spxSoundResourceAutoBindings r' ->
        objId obj ∈ spxSoundResourceAutoBindings r) /\
     (objId obj ∈ spxSpriteResourceAutoBindings r' ->
        objId obj ∈ spxSpriteResourceAutoBindings r)) /\
  (firstVarBlock r obj = true ->
     if soundCandidate r obj
     then objId obj ∈ spxSoundResourceAutoBindings r'
     else objId obj ∈ spxSpriteResourceAutoBindings r') /\
  appendsOnly (fun d => isError d \/ lateCandidateWarning r d) r r'.
Proof.
  intros Hcons Hin Hid Hel Hcand r'.
  destruct (inspectForSpxResourceRefs_passSpec r) as (Hc & Hs & Hp & Ha & Hw).
  fold r' in Hc, Hs, Hp, Ha, Hw.
  split; [|split].
  - intros Hfirst. split; [|split].
    + apply (Hw (Some ident, Some obj)); [done | | done].
      simpl. by rewrite Hel, Hcand, Hfirst.
    + intros [?|(e & He & Hb)]%Hs; [done|]. exfalso.
      destruct e as [[ident'|] [obj'|]]; try done. simpl in Hb.
      destruct (firstVarBlock r obj') eqn:E;
        [ | by rewrite andb_false_r in Hb].
      case_match; [|done]. injection Hb as Hb.
      rewrite (Hid ident' obj' He Hb) in E. congruence.
    + intros [?|(e & He & Hb)]%Hp; [done|]. exfalso.
      destruct e as [[ident'|] [obj'|]]; try done. simpl in Hb.
      destruct (firstVarBlock r obj') eqn:E;
        [ | by rewrite andb_false_r in Hb].
      case_match; [|done]. injection Hb as Hb.
      rewrite (Hid ident' obj' He Hb) in E. congruence.
  - intros Hfirst. destruct (soundCandidate r obj) eqn:Esound.
    + apply Hs. right. exists (Some ident, Some obj). split; [done|].
      simpl. by rewrite Hel, Esound, Hfirst.
    + apply Hp. right. exists (Some ident, Some obj). split; [done|].
      unfold candidate in Hcand. rewrite Esound in Hcand. simpl in Hcand.
      simpl. by rewrite Hel, Esound, Hcand, Hfirst.
  - eapply appendsOnly_weaken; [ | exact Ha].
    intros d [?|(e & He & Hd)]; [by left | right].
    by eapply warns_lateCandidate.
Qed.

End AutoBinding.

(** Fixtures: main.spx declares [explosion Sound] in its first var block and
    [laser Sound] in a later one; both sounds exist. *)
Definition explosionIdent : Node := Ident 1%positive 6%Z "explosion".
Definition laserIdent : Node := Ident 2%positive 30%Z "laser".

Definition explosionVar : Object :=
  {| objId := 1%positive; objKind := VarObj; objName := "explosion";
     objType := SpxSoundType; objPkgPath := Some "main" |}.
Definition laserVar : Object :=
  {| objId := 2%positive; objKind := VarObj; objName := "laser";
     objType := SpxSoundType; objPkgPath := Some "main" |}.

Definition soundSet : SpxResourceSet :=
  {| backdrops := ∅; sprites := ∅; sounds := {["explosion"; "laser"]}; widgets := ∅ |}.

Definition soundProject : Project :=
  {| Types := [];
     Defs := [(Some explosionIdent, Some explosionVar); (Some laserIdent, Some laserVar)];
     Uses := [];
     ObjectOf := fun _ => None;
     DefIdentFor := fun _ => None;
     ValueSpecOf := fun _ => None;
     NodeFilename := fun _ => "main.spx";
     PosFilename := fun _ => "main.spx";
     InnermostScopeAt := fun _ => Some 1%positive;
     FileScope := fun _ => Some 1%positive;
     ASTFiles := fun _ => None;
     IsDefinedInClassFieldsDecl := fun obj => bool_decide (objId obj = 1%positive);
     HasSpriteType := fun _ => false;
     RangeForNode := fun _ => range00;
     PathEnclosing := fun _ => None;
     NewSpxResourceSet := fun _ => inl soundSet;
     IdentImplicit := fun _ => false;
     SelectorTypeNameForIdent := fun _ => "";
     CheckSigFuncEx := fun _ => false;
     CheckSigFuncExObjects := fun _ => None;
     ListSpxFiles := inl ["main.spx"];
     AST := fun _ => ASTParsed None;
     TypeInfoErrors := [];
     AnalyzerDiagnostics := [];
     Unquote := unquotePlain;
     Quote := quotePlain |}.

Definition soundResult : compileResult :=
  set_spxResourceSet (mainResult soundProject) soundSet.

(** The theorem at work on [laser]: the warning is stored and the variable
    is in neither auto-binding set. *)
Lemma inspectForSpxResourceRefs_auto_binding_witness :
  stored (autoBindingWarning soundResult laserIdent)
    (diagnosticsFor (inspectForSpxResourceRefs server0 soundResult)
       (toDocumentURI server0 (mainSpxFile soundResult))) /\
  (objId laserVar ∉ spxSoundResourceAutoBindings (inspectForSpxResourceRefs server0 soundResult)) /\
  (objId laserVar ∉ spxSpriteResourceAutoBindings (inspectForSpxResourceRefs server0 soundResult)).
Proof.
  destruct (inspectForSpxResourceRefs_auto_binding server0 soundResult laserIdent laserVar)
    as (Hlate & _ & _).
  - intros u. exact (proj1 (diagnosticsInvariant_new soundProject) u).
  - apply elem_of_cons. right. apply elem_of_cons. by left.
  - intros ident' obj' [H|H]%elem_of_cons Hid.
    + injection H as _ ->. discriminate Hid.
    + apply list_elem_of_singleton in H. by injection H as _ ->.
  - vm_compute. reflexivity.
  - vm_compute. reflexivity.
  - destruct (Hlate eq_refl) as (Hst & Hs & Hp). split; [exact Hst|].
    split; intros Hin; [apply Hs in Hin | apply Hp in Hin];
      by apply not_elem_of_empty in Hin.
Defined.

(* ================================================================== *)
(** * Part III.  Further properties of the code                        *)
(* ================================================================== *)

(** ** Document URIs and paths *)

Section DocumentURIs.

Lemma CutPrefix_spec (prefix s rest : string) :
  CutPrefix s prefix = Some rest <-> s = prefix +:+ rest.
Proof.
  revert s. induction prefix as [|a prefix IH]; intros s.
  - rewrite append_nil. destruct s; simpl; split; congruence.
  - destruct s as [|b s]; simpl; [by rewrite append_cons|].
    rewrite append_cons. destruct (decide (a = b)) as [->|Hne].
    + rewrite IH. split; [by intros -> | by intros [= ->]].
    + split; [done | intros [= -> _]; done].
Qed.

(** A document URI is mapped to the path [path] exactly when it is the URI
    that [toDocumentURI] makes of [path]: the two functions are inverse to
    each other, and [fromDocumentURI] fails exactly on the URIs that do not
    start with the workspace root URI. *)
Theorem fromDocumentURI_inverse (s : Server) (uri : DocumentURI) (path : string) :
  fromDocumentURI s uri = inl path <-> uri = toDocumentURI s path.
Proof.
  unfold fromDocumentURI, toDocumentURI, HasPrefix, TrimPrefix.
  destruct (CutPrefix uri (workspaceRootURI s)) as [rest|] eqn:E; simpl.
  - apply CutPrefix_spec in E. subst uri. split.
    + by intros [= ->].
    + intros Heq. f_equal.
      revert Heq. generalize (workspaceRootURI s) as root.
      induction root as [|a root IH]; intros Heq.
      * by rewrite !append_nil in Heq.
      * rewrite !append_cons in Heq. injection Heq as Heq. by apply IH.
  - split; [done|]. intros ->.
    assert (CutPrefix (workspaceRootURI s +:+ path) (workspaceRootURI s) = Some path) as E'
      by (by apply CutPrefix_spec).
    congruence.
Qed.

End DocumentURIs.

(** ** Batches of file changes *)

Section FileChanges.

Context {P : Type} `{FileStoreLaws P}.

Lemma modifyFile_other (p : P) (ch : FileChange) (path : string) :
  ChangePath ch <> path -> File (modifyFile p ch) path = File p path.
Proof.
  intros Hne. unfold modifyFile.
  destruct (File p (ChangePath ch)) as [old|]; [destruct (_ >? _)%Z|];
    first [done | by apply File_PutFile_ne].
Qed.

Lemma modifyFile_stored (p : P) (ch : FileChange) :
  exists f, File (modifyFile p ch) (ChangePath ch) = Some f /\
            (ChangeVersion ch <= Version f)%Z.
Proof.
  destruct (File p (ChangePath ch)) as [old|] eqn:E.
  - rewrite (modifyFile_existing p ch old E).
    destruct (Version old <? ChangeVersion ch)%Z eqn:Hlt.
    + exists (file (ChangeContent ch) (ChangeVersion ch)). split; [|simpl; lia].
      apply File_PutFile. intros old' E'. simpl.
      apply Z.ltb_lt in Hlt. congruence.
    + exists old. split; [done|]. apply Z.ltb_ge in Hlt. lia.
  - rewrite (modifyFile_new p ch E).
    exists (file (ChangeContent ch) (ChangeVersion ch)). split; [|simpl; lia].
    apply File_PutFile. intros old' E'. congruence.
Qed.

Lemma modifyFile_grows (p : P) (ch : FileChange) (path : string) (old : FileImpl) :
  File p path = Some old ->
  exists new, File (modifyFile p ch) path = Some new /\ (Version old <= Version new)%Z.
Proof.
  intros Hold. destruct (decide (ChangePath ch = path)) as [<-|Hne].
  - rewrite (modifyFile_existing p ch old Hold).
    destruct (Version old <? ChangeVersion ch)%Z eqn:Hlt.
    + exists (file (ChangeContent ch) (ChangeVersion ch)).
      apply Z.ltb_lt in Hlt. split; [|simpl; lia].
      apply File_PutFile. intros old' E'. simpl. congruence.
    + exists old. split; [done | lia].
  - exists old. split; [|lia]. by rewrite modifyFile_other.
Qed.

(** [ModifyFiles] leaves every path alone that no change of the batch
    names. *)
Theorem ModifyFiles_other_paths (p : P) (changes : list FileChange) (path : string) :
  path ∉ ChangePath <$> changes ->
  File (ModifyFiles p changes) path = File p path.
Proof.
  unfold ModifyFiles. revert p.
  induction changes as [|ch changes IH]; intros p Hnotin; [done|].
  cbn [foldl]. rewrite fmap_cons, not_elem_of_cons in Hnotin.
  destruct Hnotin as [Hne Hnotin].
  rewrite IH by done. by apply modifyFile_other.
Qed.

Lemma modifyFiles_grow (changes : list FileChange) :
  forall (p : P) (path : string) (old : FileImpl),
    File p path = Some old ->
    exists new, File (foldl modifyFile p changes) path = Some new /\
                (Version old <= Version new)%Z.
Proof.
  induction changes as [|ch changes IH]; intros p path old Hold.
  - exists old. split; [done | lia].
  - cbn [foldl].
    destruct (modifyFile_grows p ch path old Hold) as (mid & Hmid & Hle).
    destruct (IH _ path mid Hmid) as (new & Hnew & Hle').
    exists new. split; [done | lia].
Qed.

(** Whatever the batch, a file that exists before [ModifyFiles] exists
    after it, with a version that is not smaller. *)
Theorem ModifyFiles_versions_grow
    (p : P) (changes : list FileChange) (path : string) (old : FileImpl) :
  File p path = Some old ->
  exists new, File (ModifyFiles p changes) path = Some new /\
              (Version old <= Version new)%Z.
Proof. apply modifyFiles_grow. Qed.

(** No change of a batch is lost to an older one: after [ModifyFiles] the
    path of every change holds a file whose version is at least the
    version of the change. *)
Theorem ModifyFiles_keeps_newest (p : P) (changes : list FileChange) (ch : FileChange) :
  ch ∈ changes ->
  exists f, File (ModifyFiles p changes) (ChangePath ch) = Some f /\
            (ChangeVersion ch <= Version f)%Z.
Proof.
  unfold ModifyFiles. revert p.
  induction changes as [|ch' changes IH]; intros p Hin.
  - by apply elem_of_nil in Hin.
  - cbn [foldl]. apply elem_of_cons in Hin as [->|Hin]; [|by apply IH].
    destruct (modifyFile_stored p ch') as (f & Hf & Hle).
    destruct (modifyFiles_grow changes (modifyFile p ch') _ f Hf)
      as (new & Hnew & Hle').
    exists new. split; [done | lia].
Qed.

End FileChanges.

(** The three theorems at work on a map of files that holds main.spx at
    version 5: a batch for Hero.spx leaves main.spx alone, and a batch with
    versions 3 and 7 for main.spx ends at version 7. *)
Definition oneFile : gmap string FileImpl := {[ "main.spx" := file [104%Z] 5 ]}.

Lemma ModifyFiles_other_paths_witness :
  ModifyFiles oneFile [change "Hero.spx" [105%Z] 1] !! "main.spx" = oneFile !! "main.spx".
Proof.
  refine (ModifyFiles_other_paths oneFile [change "Hero.spx" [105%Z] 1] "main.spx" _).
  simpl. intros Hin. apply list_elem_of_singleton in Hin. discriminate Hin.
Defined.

Lemma ModifyFiles_versions_grow_witness :
  exists new, ModifyFiles oneFile [change "main.spx" [105%Z] 3] !! "main.spx" = Some new /\
              (5 <= Version new)%Z.
Proof.
  refine (ModifyFiles_versions_grow oneFile [change "main.spx" [105%Z] 3] "main.spx"
            (file [104%Z] 5) _).
  reflexivity.
Defined.

Lemma ModifyFiles_keeps_newest_witness :
  exists f,
    ModifyFiles oneFile [change "main.spx" [105%Z] 3; change "main.spx" [106%Z] 7]
      !! "main.spx" = Some f /\
    (7 <= Version f)%Z.
Proof.
  refine (ModifyFiles_keeps_newest oneFile
            [change "main.spx" [105%Z] 3; change "main.spx" [106%Z] 7]
            (change "main.spx" [106%Z] 7) _).
  apply elem_of_cons. right. apply elem_of_cons. by left.
Defined.

(** ** Locations are deduplicated by document and start position *)

Section Locations.

Definition colon : ascii := ":"%char.

Lemma absent_colon_digits (u : Decimal.uint) :
  absent colon (NilEmpty.string_of_uint u).
Proof. induction u; simpl; try exact I; (split; [discriminate | assumption]). Qed.

Lemma absent_colon_fmt_d (n : N) : absent colon (fmt.d n).
Proof. apply absent_colon_digits. Qed.

Lemma absent_app_present (c : ascii) (s t : string) :
  ~ absent c (s +:+ String c t).
Proof.
  induction s as [|a s IH]; rewrite ?append_nil, ?append_cons; simpl.
  - intros [Hne _]. done.
  - intros [_ Habs]. done.
Qed.

(** Two strings that end in [c] and a [c]-free rest are cut at the same
    place: the cut is at the last [c]. *)
Lemma cut_at_last (c : ascii) (s1 s2 t1 t2 : string) :
  absent c t1 -> absent c t2 ->
  s1 +:+ String c t1 = s2 +:+ String c t2 -> s1 = s2 /\ t1 = t2.
Proof.
  intros H1 H2. revert s2. induction s1 as [|a s1 IH]; intros [|b s2];
    rewrite ?append_cons, ?append_nil.
  - intros H. by injection H.
  - intros H. injection H as _ H. subst t1. by apply absent_app_present in H1.
  - intros H. injection H as _ H. subst t2. by apply absent_app_present in H2.
  - intros H. injection H as -> H. destruct (IH _ H) as [-> ->]. done.
Qed.

(** What the key of a location stands for. *)
Definition sameStart (l1 l2 : Location) : Prop :=
  LocURI l1 = LocURI l2 /\ Start (LocRange l1) = Start (LocRange l2).

Lemma locationKey_sameStart (l1 l2 : Location) :
  locationKey l1 = locationKey l2 <-> sameStart l1 l2.
Proof.
  unfold locationKey, sameStart. split.
  - destruct l1 as [u1 [[a1 b1] e1]], l2 as [u2 [[a2 b2] e2]]. simpl.
    intros Hkey.
    change ":" with (String colon "") in Hkey.
    rewrite <- !append_assoc in Hkey.
    rewrite !(append_assoc _ (String colon "") (fmt.d b1)) in Hkey.
    rewrite !(append_assoc _ (String colon "") (fmt.d b2)) in Hkey.
    rewrite !append_cons, !append_nil in Hkey.
    apply cut_at_last in Hkey as [Hkey Hb]; [ | apply absent_colon_fmt_d ..].
    rewrite !append_assoc, !append_cons, !append_nil in Hkey.
    apply cut_at_last in Hkey as [-> Ha]; [ | apply absent_colon_fmt_d ..].
    apply fmt_d_inj in Ha, Hb. by subst.
  - intros [-> ->]. done.
Qed.

Definition keys (ls : list Location) : list string := locationKey <$> ls.

Lemma deduplicate_loop (locations : list Location) :
  forall (res : list Location) (seen : gset string),
    (forall k, k ∈ seen <-> k ∈ keys res) ->
    NoDup (keys res) ->
    (exists added, (foldl deduplicateLocation (res, seen) locations).1 = res ++ added /\
                   sublist added locations) /\
    NoDup (keys (foldl deduplicateLocation (res, seen) locations).1) /\
    (forall l, l ∈ locations ->
       locationKey l ∈ keys (foldl deduplicateLocation (res, seen) locations).1).
Proof.
  induction locations as [|loc locations IH]; intros res seen Hseen Hnd; cbn [foldl].
  - simpl. split_and!; [ | done | ].
    + exists []. by rewrite app_nil_r.
    + intros l Hl. by apply elem_of_nil in Hl.
  - assert (deduplicateLocation (res, seen) loc =
            if decide (locationKey loc ∈ seen) then (res, seen)
            else (res ++ [loc], {[locationKey loc]} ∪ seen)) as -> by reflexivity.
    destruct (decide (locationKey loc ∈ seen)) as [Hin|Hnotin].
    + destruct (IH res seen Hseen Hnd) as ((added & Hadded & Hsub) & Hnd' & Hall).
      split_and!; [ | done | ].
      * exists added. split; [done | by apply sublist_cons].
      * intros l [->|Hl]%elem_of_cons; [|by apply Hall].
        rewrite Hadded. unfold keys. rewrite fmap_app, elem_of_app. left.
        by apply Hseen.
    + assert (forall k, k ∈ {[locationKey loc]} ∪ seen <-> k ∈ keys (res ++ [loc])) as Hseen'.
      { intros k. unfold keys. rewrite fmap_app, elem_of_app, elem_of_union, Hseen.
        simpl. rewrite list_elem_of_singleton, elem_of_singleton. tauto. }
      assert (NoDup (keys (res ++ [loc]))) as Hnd1.
      { unfold keys. rewrite fmap_app. apply NoDup_app. split_and!; [done | | ].
        - intros k Hk. simpl. rewrite list_elem_of_singleton. intros ->.
          by apply Hnotin, Hseen.
        - simpl. apply NoDup_singleton. }
      destruct (IH _ _ Hseen' Hnd1) as ((added & Hadded & Hsub) & Hnd' & Hall).
      split_and!; [ | done | ].
      * exists (loc :: added). rewrite Hadded, <- app_assoc. split; [done|].
        by apply sublist_skip.
      * intros l [->|Hl]%elem_of_cons; [|by apply Hall].
        rewrite Hadded. unfold keys. rewrite !fmap_app, !elem_of_app. left. right.
        simpl. by apply list_elem_of_singleton.
Qed.

(** [deduplicateLocations] keeps a subsequence of its input in which no two
    entries are of the same document and start position, and which has an
    entry for the document and start position of every input location.
    The end of the range plays no part. *)
Theorem deduplicateLocations_by_start (locations : list Location) :
  let result := deduplicateLocations locations in
  sublist result locations /\
  (forall i j l1 l2, result !! i = Some l1 -> result !! j = Some l2 ->
     sameStart l1 l2 -> i = j) /\
  (forall l, l ∈ locations -> exists l', l' ∈ result /\ sameStart l' l).
Proof.
  cbv zeta. unfold deduplicateLocations.
  destruct (deduplicate_loop locations [] ∅) as ((added & Hadded & Hsub) & Hnd & Hall).
  - intros k. unfold keys. simpl. split; intros Hk; [by apply elem_of_empty in Hk | by apply elem_of_nil in Hk].
  - apply NoDup_nil_2.
  - rewrite app_nil_l in Hadded. split_and!.
    + by rewrite Hadded.
    + intros i j l1 l2 Hi Hj Hsame. apply locationKey_sameStart in Hsame.
      eapply NoDup_lookup; [exact Hnd | | ].
      * unfold keys. rewrite list_lookup_fmap, Hi. done.
      * unfold keys. rewrite list_lookup_fmap, Hj. simpl. by rewrite Hsame.
    + intros l Hl. apply Hall in Hl. unfold keys in Hl.
      apply list_elem_of_fmap in Hl as (l' & Hkey & Hl').
      exists l'. split; [done|]. by apply locationKey_sameStart.
Qed.

Lemma deduplicate_fresh (locations : list Location) :
  forall (res : list Location) (seen : gset string),
    NoDup (keys locations) ->
    (forall l, l ∈ locations -> locationKey l ∉ seen) ->
    (foldl deduplicateLocation (res, seen) locations).1 = res ++ locations.
Proof.
  induction locations as [|loc locations IH]; intros res seen Hnd Hfresh; cbn [foldl].
  - by rewrite app_nil_r.
  - assert (deduplicateLocation (res, seen) loc =
            if decide (locationKey loc ∈ seen) then (res, seen)
            else (res ++ [loc], {[locationKey loc]} ∪ seen)) as -> by reflexivity.
    rewrite decide_False by (apply Hfresh; by left).
    unfold keys in Hnd. rewrite fmap_cons in Hnd. apply NoDup_cons in Hnd as [Hloc Hnd].
    rewrite IH; [by rewrite <- app_assoc | done | ].
    intros l Hl. rewrite elem_of_union, elem_of_singleton. intros [Heq|Hin].
    + apply Hloc. rewrite <- Heq. by apply list_elem_of_fmap_2.
    + apply (Hfresh l); [by right | done].
Qed.

(** Deduplicating twice is deduplicating once. *)
Theorem deduplicateLocations_idempotent (locations : list Location) :
  deduplicateLocations (deduplicateLocations locations) = deduplicateLocations locations.
Proof.
  unfold deduplicateLocations at 1 3.
  rewrite deduplicate_fresh; [done | | ].
  - apply (deduplicate_loop locations [] ∅).
    + intros k. unfold keys. simpl.
      split; intros Hk; [by apply elem_of_empty in Hk | by apply elem_of_nil in Hk].
    + apply NoDup_nil_2.
  - intros l _. apply not_elem_of_empty.
Qed.

End Locations.

(** ** Names *)

Section Names.

(** On a string that starts with an upper-case ASCII letter
    [toLowerCamelCase] replaces that letter by its lower-case letter and
    keeps the rest; on any string that starts with an ASCII byte it sets
    bit 5 of that byte, keeps the length, and a second application changes
    nothing. *)
Theorem toLowerCamelCase_ascii (c : ascii) (rest : string) :
  (N_of_ascii c < 128)%N ->
  toLowerCamelCase (String c rest)
    = String (ascii_of_N (N.lor (N_of_ascii c) 32)) rest /\
  ((65 <= N_of_ascii c <= 90)%N ->
     toLowerCamelCase (String c rest) = String (ascii_of_N (N_of_ascii c + 32)) rest) /\
  toLowerCamelCase (toLowerCamelCase (String c rest)) = toLowerCamelCase (String c rest).
Proof.
  intros Hascii.
  destruct c as [b0 b1 b2 b3 b4 b5 b6 b7].
  destruct b7; [destruct b0, b1, b2, b3, b4, b5, b6; cbn in Hascii; lia|].
  split; [|split].
  - destruct b0, b1, b2, b3, b4, b5, b6; reflexivity.
  - intros Hupper.
    destruct b0, b1, b2, b3, b4, b5, b6; cbn in Hupper; first [lia | reflexivity].
  - destruct b0, b1, b2, b3, b4, b5, b6; reflexivity.
Qed.

Lemma toLowerCamelCase_ascii_witness :
  toLowerCamelCase "Turn" = "turn" /\ toLowerCamelCase (toLowerCamelCase "Turn") = "turn".
Proof.
  destruct (toLowerCamelCase_ascii "T"%char "urn") as (H1 & H2 & H3).
  - cbn. lia.
  - split; [exact H1 | rewrite H3; exact H1].
Defined.

(** A first byte outside ASCII becomes the two bytes of the UTF-8 encoding
    of the code point of that byte with bit 5 set: the result is one byte
    longer than the input, whose other bytes all follow. *)
Theorem toLowerCamelCase_non_ascii (c : ascii) (rest : string) :
  (128 <= N_of_ascii c)%N ->
  exists c1 c2,
    toLowerCamelCase (String c rest) = String c1 (String c2 rest) /\
    (N_of_ascii c1 = 0xC2 \/ N_of_ascii c1 = 0xC3)%N /\
    String.length (toLowerCamelCase (String c rest)) = S (String.length (String c rest)).
Proof.
  intros Hhigh.
  destruct c as [b0 b1 b2 b3 b4 b5 b6 b7].
  destruct b7; [|destruct b0, b1, b2, b3, b4, b5, b6; cbn in Hhigh; lia].
  destruct b0, b1, b2, b3, b4, b5, b6;
    (eexists _, _; split; [reflexivity | split; [cbn; auto | reflexivity]]).
Qed.

Lemma toLowerCamelCase_non_ascii_witness :
  exists c1 c2,
    toLowerCamelCase (String (ascii_of_N 0xC3) (String (ascii_of_N 0x89) "a"))
      = String c1 (String c2 (String (ascii_of_N 0x89) "a")) /\
    (N_of_ascii c1 = 0xC2 \/ N_of_ascii c1 = 0xC3)%N /\
    String.length (toLowerCamelCase (String (ascii_of_N 0xC3) (String (ascii_of_N 0x89) "a")))
      = 4.
Proof.
  refine (toLowerCamelCase_non_ascii (ascii_of_N 0xC3) (String (ascii_of_N 0x89) "a") _).
  cbn. lia.
Defined.

Definition underscore : ascii := "_"%char.

Lemma Cut_spec (sep : ascii) (s before after : string) :
  Cut s sep = Some (before, after) <->
  s = before +:+ String sep after /\ absent sep before.
Proof.
  revert before after. induction s as [|c s IH]; intros before after; simpl.
  - split; [done|]. intros [Heq _]. destruct before; discriminate Heq.
  - destruct (decide (c = sep)) as [->|Hne].
    + split.
      * intros [= <- <-]. by rewrite append_nil.
      * intros [Heq Habs]. destruct before as [|b before].
        -- rewrite append_nil in Heq. by injection Heq as ->.
        -- rewrite append_cons in Heq. injection Heq as -> _. by destruct Habs.
    + split.
      * destruct (Cut s sep) as [[b a]|]; [|done].
        intros [= <- <-]. destruct (proj1 (IH b a) eq_refl) as [-> Habs].
        rewrite append_cons. split; [done|]. simpl. done.
      * intros [Heq Habs]. destruct before as [|b' before].
        -- rewrite append_nil in Heq. injection Heq as -> _. done.
        -- rewrite append_cons in Heq. injection Heq as -> Heq.
           destruct Habs as [_ Habs].
           by rewrite (proj2 (IH before after) (conj Heq Habs)).
Qed.

(** [SplitGoptMethodName] succeeds exactly on the names
    [Gopt_<recv>_<rest>] in which [recv] has no underscore: the receiver
    type name is [recv], so it ends at the first underscore after the
    prefix, and the method name is [rest] without a leading [Gopx_]. *)
Theorem SplitGoptMethodName_spec (name recvTypeName methodName : string) :
  SplitGoptMethodName name = Some (recvTypeName, methodName) <->
  exists rest,
    name = GoptPrefix +:+ recvTypeName +:+ String underscore rest /\
    absent underscore recvTypeName /\
    methodName = TrimPrefix rest GopxPrefix.
Proof.
  unfold SplitGoptMethodName, HasPrefix, TrimPrefix at 1.
  destruct (CutPrefix name GoptPrefix) as [tail|] eqn:E; simpl.
  - apply CutPrefix_spec in E. subst name.
    destruct (Cut tail "_"%char) as [[recv rest]|] eqn:EC.
    + apply Cut_spec in EC as [-> Habs]. split.
      * intros [= <- <-]. by exists rest.
      * intros (rest' & Heq & Habs' & ->).
        assert (recv +:+ String underscore rest
                = recvTypeName +:+ String underscore rest') as Htail.
        { clear -Heq. unfold GoptPrefix in Heq. rewrite !append_cons, !append_nil in Heq.
          by injection Heq. }
        apply cut_at_delimiter in Htail as [-> ->]; done.
    + split; [done|]. intros (rest' & Heq & Habs' & _).
      assert (Cut tail "_"%char = Some (recvTypeName, rest')) as EC'.
      { apply Cut_spec. split; [|done].
        unfold GoptPrefix in Heq. rewrite !append_cons, !append_nil in Heq.
        by injection Heq. }
      congruence.
  - split; [done|]. intros (rest & Heq & _).
    assert (CutPrefix name GoptPrefix = Some (recvTypeName +:+ String underscore rest)) as E'
      by (by apply CutPrefix_spec).
    congruence.
Qed.

(** [Unparen] never returns a parenthesized expression, and it leaves an
    expression alone that it has returned. *)
Theorem Unparen_no_paren (e : astutil.Expr) :
  (forall l x r, astutil.Unparen e <> astutil.ParenExpr l x r) /\
  astutil.Unparen (astutil.Unparen e) = astutil.Unparen e.
Proof. induction e as [l x IH r | n]; simpl; [exact IH | done]. Qed.

End Names.

(** ** The resource reference at a position *)

Section ResourceRefAtPosition.

Variable FsetPosition : Z -> TokenPosition.
Variable NodePos : NodeId -> Z.
Variable NodeEnd : NodeId -> Z.

Abbreviation outside := (refOutside FsetPosition NodePos NodeEnd).
Abbreviation span := (refSpan FsetPosition NodePos NodeEnd).

(** The state of the loop after the references [seen]. *)
Definition bestOf (position : TokenPosition) (seen : list SpxResourceRef)
    (st : option SpxResourceRef * Z) : Prop :=
  match st.1 with
  | None => forall ref, ref ∈ seen -> outside position ref = true
  | Some best =>
      st.2 = span best /\ best ∈ seen /\ outside position best = false /\
      forall ref, ref ∈ seen -> outside position ref = false -> (span best <= span ref)%Z
  end.

Lemma refAtStep_bestOf position seen st ref :
  bestOf position seen st ->
  bestOf position (seen ++ [ref]) (refAtStep FsetPosition NodePos NodeEnd position st ref).
Proof.
  destruct st as [[best|] bestSpan]; unfold bestOf, refAtStep; simpl.
  - intros (-> & Hin & Hinside & Hmin).
    destruct (outside position ref) eqn:Hout; simpl.
    + split_and!; [done | by apply elem_of_app; left | done | ].
      intros ref' [Hin'|Hin']%elem_of_app; [by apply Hmin|].
      apply list_elem_of_singleton in Hin' as ->. congruence.
    + destruct (span ref <? span best)%Z eqn:Hlt; simpl.
      * apply Z.ltb_lt in Hlt.
        split_and!; [done | apply elem_of_app; right; by apply list_elem_of_singleton | done | ].
        intros ref' [Hin'|Hin']%elem_of_app Hinside'.
        -- specialize (Hmin ref' Hin' Hinside'). lia.
        -- apply list_elem_of_singleton in Hin' as ->. lia.
      * apply Z.ltb_ge in Hlt.
        split_and!; [done | by apply elem_of_app; left | done | ].
        intros ref' [Hin'|Hin']%elem_of_app Hinside'; [by apply Hmin|].
        apply list_elem_of_singleton in Hin' as ->. done.
  - intros Hall. destruct (outside position ref) eqn:Hout; simpl.
    + intros ref' [Hin'|Hin']%elem_of_app; [by apply Hall|].
      by apply list_elem_of_singleton in Hin' as ->.
    + split_and!; [done | apply elem_of_app; right; by apply list_elem_of_singleton | done | ].
      intros ref' [Hin'|Hin']%elem_of_app Hinside'.
      * rewrite (Hall ref' Hin') in Hinside'. done.
      * apply list_elem_of_singleton in Hin' as ->. lia.
Qed.

Lemma refAt_loop position refs :
  forall seen st,
    bestOf position seen st ->
    bestOf position (seen ++ refs)
      (foldl (refAtStep FsetPosition NodePos NodeEnd position) st refs).
Proof.
  induction refs as [|ref refs IH]; intros seen st Hst; cbn [foldl].
  - by rewrite app_nil_r.
  - replace (seen ++ ref :: refs) with ((seen ++ [ref]) ++ refs)
      by (by rewrite <- app_assoc).
    apply IH. by apply refAtStep_bestOf.
Qed.

(** [spxResourceRefAtASTFilePosition] returns nil exactly when no recorded
    reference covers the position (same file, same line, column within the
    node); otherwise it returns a recorded reference that covers the
    position and whose node is not wider than that of any other reference
    that covers it. *)
Theorem spxResourceRefAtASTFilePosition_narrowest
    (r : compileResult) (position : TokenPosition) :
  match spxResourceRefAtASTFilePosition FsetPosition NodePos NodeEnd r position with
  | None => forall ref, ref ∈ spxResourceRefs r -> outside position ref = true
  | Some best =>
      best ∈ spxResourceRefs r /\ outside position best = false /\
      forall ref, ref ∈ spxResourceRefs r -> outside position ref = false ->
        (span best <= span ref)%Z
  end.
Proof.
  unfold spxResourceRefAtASTFilePosition.
  pose proof (refAt_loop position (spxResourceRefs r) [] (None, 0%Z)) as Hloop.
  rewrite app_nil_l in Hloop. unfold bestOf at 2 in Hloop.
  destruct (foldl _ _ _).1 as [best|].
  - destruct Hloop as (_ & H1 & H2 & H3); [|done].
    simpl. intros ref Href. by apply elem_of_nil in Href.
  - apply Hloop. simpl. intros ref Href. by apply elem_of_nil in Href.
Qed.

End ResourceRefAtPosition.

(** ** The stores of a compile result *)

Section Stores.

(** The fingerprint format has no collisions: two diagnostics have the same
    fingerprint exactly when they agree in severity, range and message. *)
Theorem fingerprint_collision_free (d1 d2 : Diagnostic) :
  fingerprint d1 = fingerprint d2 <->
  Severity d1 = Severity d2 /\ DRange d1 = DRange d2 /\ Message d1 = Message d2.
Proof. apply fingerprint_sameTriple. Qed.

Lemma loop_sublist (diags : list Diagnostic) :
  forall st, exists added,
    (foldl addDiagnostic st diags).1.2 = st.1.2 ++ added /\ sublist added diags.
Proof.
  induction diags as [|d diags IH]; intros [[seen ds] flag].
  - exists []. by rewrite app_nil_r.
  - cbn [foldl]. unfold addDiagnostic at 2. destruct (decide _).
    + destruct (IH (seen, ds, flag)) as (added & Hadded & Hsub).
      exists added. split; [done | by apply sublist_cons].
    + destruct (IH ({[fingerprint d]} ∪ seen, ds ++ [d],
                    if decide (Severity d = SeverityError) then true else flag))
        as (added & -> & Hsub).
      exists (d :: added). simpl. rewrite <- app_assoc. split; [done|].
      by apply sublist_skip.
Qed.

(** [addDiagnostics] only appends: the diagnostics of the document keep
    their places and are followed by some of the given ones in the given
    order; the diagnostics of every other document, the project, the main
    file, the resource set, the references and the auto-bindings stay as
    they are. *)
Theorem addDiagnostics_appends_only
    (r : compileResult) (uri : DocumentURI) (diags : list Diagnostic) :
  let r' := addDiagnostics r uri diags in
  (exists added, diagnosticsFor r' uri = diagnosticsFor r uri ++ added /\
                 sublist added diags) /\
  (forall u, u <> uri -> diagnosticsFor r' u = diagnosticsFor r u) /\
  proj r' = proj r /\ mainSpxFile r' = mainSpxFile r /\
  spxResourceSet r' = spxResourceSet r /\
  spxResourceRefs r' = spxResourceRefs r /\
  spxSoundResourceAutoBindings r' = spxSoundResourceAutoBindings r /\
  spxSpriteResourceAutoBindings r' = spxSpriteResourceAutoBindings r.
Proof.
  cbv zeta.
  destruct (addDiagnostics_context r uri diags) as ((Hp & Hm & Hs) & (Hb1 & Hb2) & Hr & _).
  split_and!; try done.
  - rewrite diagnosticsFor_add, decide_True by done. unfold loopState.
    apply loop_sublist.
  - intros u Hne. by rewrite diagnosticsFor_add, decide_False.
Qed.

Definition triple (d : Diagnostic) : DiagnosticSeverity * Range * string :=
  (Severity d, DRange d, Message d).

(** In every compile result that a sequence of [addDiagnostics] calls
    builds from [newCompileResult], the diagnostics stored for a document
    have pairwise different (severity, range, message) triples. *)
Theorem addDiagnostics_no_duplicate_triples
    (p : Project) (calls : list (DocumentURI * list Diagnostic)) (uri : DocumentURI) :
  NoDup (triple <$> diagnosticsFor (addAll p calls) uri).
Proof.
  destruct (diagnosticsInvariant_addAll p calls) as [Hcons _].
  destruct (Hcons uri) as [_ Hnd].
  apply (NoDup_fmap_1 (fun t : DiagnosticSeverity * Range * string =>
           fmt.d t.1.1 +:+ String fmt.LF (fmt_v_Range t.1.2 +:+ String fmt.LF t.2))).
  by rewrite <- list_fmap_compose.
Qed.

(** The compile results that a sequence of [addSpxResourceRef] calls builds
    from a new one. *)
Definition addRefs (p : Project) (refs : list SpxResourceRef) : compileResult :=
  foldl addSpxResourceRef (newCompileResult p) refs.

Definition refsInvariant (r : compileResult) : Prop :=
  NoDup (spxResourceRefs r) /\
  forall ref, ref ∈ default ∅ (seenSpxResourceRefs r) <-> ref ∈ spxResourceRefs r.

Lemma addSpxResourceRef_loop (refs : list SpxResourceRef) :
  forall r, refsInvariant r ->
    refsInvariant (foldl addSpxResourceRef r refs) /\
    (exists added, spxResourceRefs (foldl addSpxResourceRef r refs)
                   = spxResourceRefs r ++ added /\ sublist added refs) /\
    (forall ref, ref ∈ refs -> ref ∈ spxResourceRefs (foldl addSpxResourceRef r refs)).
Proof.
  induction refs as [|ref refs IH]; intros r Hinv; cbn [foldl].
  - split_and!; [done | | ].
    + exists []. by rewrite app_nil_r.
    + intros ref Href. by apply elem_of_nil in Href.
  - destruct Hinv as [Hnd Hseen].
    assert (refsInvariant (addSpxResourceRef r ref) /\
            (exists added, spxResourceRefs (addSpxResourceRef r ref)
                           = spxResourceRefs r ++ added /\ sublist added [ref]) /\
            ref ∈ spxResourceRefs (addSpxResourceRef r ref)) as (Hinv1 & (a1 & Ha1 & Hs1) & Hin1).
    { unfold addSpxResourceRef. destruct (decide _) as [Hin|Hnin]; simpl.
      - split_and!.
        + split; [done|]. simpl. exact Hseen.
        + exists []. rewrite app_nil_r. split; [done | apply sublist_nil_l].
        + by apply Hseen.
      - split_and!.
        + split; simpl.
          * apply NoDup_app. split_and!; [done | | apply NoDup_singleton].
            intros x Hx ->%list_elem_of_singleton. by apply Hnin, Hseen.
          * intros x. rewrite elem_of_union, elem_of_singleton, elem_of_app,
              list_elem_of_singleton, Hseen. tauto.
        + exists [ref]. done.
        + apply elem_of_app. right. by apply list_elem_of_singleton. }
    destruct (IH _ Hinv1) as (Hinv2 & (a2 & Ha2 & Hs2) & Hall).
    split_and!; [done | | ].
    + exists (a1 ++ a2). rewrite Ha2, Ha1, app_assoc. split; [done|].
      change (ref :: refs) with ([ref] ++ refs). by apply sublist_app.
    + intros x [->|Hx]%elem_of_cons; [|by apply Hall].
      rewrite Ha2. apply elem_of_app. by left.
Qed.

(** [addSpxResourceRef] stores every reference once: after any sequence of
    calls on a new compile result the stored references are a subsequence
    of the references given, without repetition, and every reference given
    is among them. *)
Theorem addSpxResourceRef_stores_once (p : Project) (refs : list SpxResourceRef) :
  NoDup (spxResourceRefs (addRefs p refs)) /\
  sublist (spxResourceRefs (addRefs p refs)) refs /\
  forall ref, ref ∈ spxResourceRefs (addRefs p refs) <-> ref ∈ refs.
Proof.
  unfold addRefs.
  destruct (addSpxResourceRef_loop refs (newCompileResult p))
    as ((Hnd & _) & (added & Hadded & Hsub) & Hall).
  - split; [apply NoDup_nil_2 | ]. intros ref. simpl.
    split; intros Href; [by apply elem_of_empty in Href | by apply elem_of_nil in Href].
  - simpl in Hadded. split_and!; [done | by rewrite Hadded | ].
    intros ref. split; [|by apply Hall].
    rewrite Hadded. intros Hin. by eapply elem_of_sublist.
Qed.

End Stores.

(** ** What the resolvers change *)

Section ResolverEffects.

Variable s : Server.

(** Whatever the expression and the type, [inspectSpxResourceRefForTypeAtExpr]
    leaves the project, the main file, the resource set and both
    auto-binding sets as they are, and what it adds to the diagnostics of a
    document are errors that follow the diagnostics already there. *)
Theorem inspectSpxResourceRefForTypeAtExpr_only_adds_errors
    (r : compileResult) (expr : Node) (typ : option GoType)
    (spxSpriteResource : option SpxSpriteResource) :
  let r' := inspectSpxResourceRefForTypeAtExpr s r expr typ spxSpriteResource in
  proj r' = proj r /\ mainSpxFile r' = mainSpxFile r /\
  spxResourceSet r' = spxResourceSet r /\
  spxSoundResourceAutoBindings r' = spxSoundResourceAutoBindings r /\
  spxSpriteResourceAutoBindings r' = spxSpriteResourceAutoBindings r /\
  forall u, exists added,
    diagnosticsFor r' u = diagnosticsFor r u ++ added /\
    Forall (fun d => Severity d = SeverityError) added.
Proof.
  cbv zeta.
  destruct (inspectSpxResourceRefForTypeAtExpr_frame s r expr typ spxSpriteResource)
    as ((Hp & Hm & Hs) & (Hb1 & Hb2) & (_ & Ha)).
  split_and!; done.
Qed.

(** The message of the warning for a candidate outside the first var
    block. *)
Definition firstVarBlockMessage : string :=
  "resources must be defined in the first var block for auto-binding".

(** [inspectForSpxResourceRefs] leaves the project, the main file and the
    resource set as they are, never takes an object out of an auto-binding
    set, and what it adds to the diagnostics of a document are errors and
    warnings about the first var block, after the diagnostics already
    there. *)
Theorem inspectForSpxResourceRefs_only_adds (r : compileResult) :
  let r' := inspectForSpxResourceRefs s r in
  proj r' = proj r /\ mainSpxFile r' = mainSpxFile r /\
  spxResourceSet r' = spxResourceSet r /\
  spxSoundResourceAutoBindings r ⊆ spxSoundResourceAutoBindings r' /\
  spxSpriteResourceAutoBindings r ⊆ spxSpriteResourceAutoBindings r' /\
  forall u, exists added,
    diagnosticsFor r' u = diagnosticsFor r u ++ added /\
    Forall (fun d => Severity d = SeverityError \/
                     (Severity d = SeverityWarning /\ Message d = firstVarBlockMessage))
           added.
Proof.
  cbv zeta.
  destruct (inspectForSpxResourceRefs_passSpec s r) as ((Hp & Hm & Hs) & Hb1 & Hb2 & (_ & Ha) & _).
  split_and!; try done.
  - intros id Hid. apply Hb1. by left.
  - intros id Hid. apply Hb2. by left.
  - intros u. destruct (Ha u) as (added & Hadded & Hall). exists added.
    split; [done|]. eapply Forall_impl; [exact Hall|].
    intros d [Herr|Hlate]; [by left | right].
    destruct Hlate as (e & He & Hw).
    destruct (warns_lateCandidate r e d He Hw) as (ident & obj & _ & _ & _ & _ & ->).
    done.
Qed.

End ResolverEffects.

(** ** The outcomes of the resolvers by name *)

Section ResolverOutcomes.

Variable s : Server.

Lemma addDiagnostics_stores (r : compileResult) (uri : DocumentURI) (d : Diagnostic) :
  seenConsistent r uri -> stored d (diagnosticsFor (addDiagnostics r uri [d]) uri).
Proof.
  intros Hc.
  destruct (addDiagnostics_spec r uri [d] Hc) as (added & -> & _ & _ & _ & Hall).
  apply Hall. by apply list_elem_of_singleton.
Qed.

Lemma addSpxResourceRef_consistent (r : compileResult) (ref : SpxResourceRef) (u : DocumentURI) :
  seenConsistent r u -> seenConsistent (addSpxResourceRef r ref) u.
Proof.
  destruct (addSpxResourceRef_frame r ref) as (_ & _ & Hd & Hs & _).
  unfold seenConsistent, seenFor, diagnosticsFor. by rewrite Hd, Hs.
Qed.

Lemma addSpxResourceRef_diagnostics (r : compileResult) (ref : SpxResourceRef) (u : DocumentURI) :
  diagnosticsFor (addSpxResourceRef r ref) u = diagnosticsFor r u.
Proof.
  destruct (addSpxResourceRef_frame r ref) as (_ & _ & Hd & _).
  unfold diagnosticsFor. by rewrite Hd.
Qed.

(** The three outcomes of a resolver that has read the name [name] off the
    expression: [lookup] is the result of the lookup in the resource set,
    [ref] the reference, [emptyMsg] and [missingMsg] the two messages. *)
Definition namedOutcome (result : compileResult) (expr : Node) (name : string)
    (ref : SpxResourceRef) (lookup : option string) (emptyMsg missingMsg : string)
    (out : compileResult * option string) : Prop :=
  let uri := nodeDocumentURI s (proj result) expr in
  let range := RangeForNode (proj result) expr in
  if decide (name = "") then
    out.2 = None /\ spxResourceRefs out.1 = spxResourceRefs result /\
    stored (mkDiagnostic SeverityError range emptyMsg) (diagnosticsFor out.1 uri)
  else
    ref ∈ spxResourceRefs out.1 /\
    match lookup with
    | Some res =>
        out.2 = Some res /\ forall u, diagnosticsFor out.1 u = diagnosticsFor result u
    | None =>
        out.2 = None /\
        stored (mkDiagnostic SeverityError range missingMsg) (diagnosticsFor out.1 uri)
    end.

Lemma namedOutcome_intro (result : compileResult) (expr : Node) (name : string)
    (ref : SpxResourceRef) (lookup : option string) (emptyMsg missingMsg : string) :
  refsConsistent result ->
  seenConsistent result (nodeDocumentURI s (proj result) expr) ->
  namedOutcome result expr name ref lookup emptyMsg missingMsg
    (if decide (name = "") then
       (addDiagnostics result (nodeDocumentURI s (proj result) expr)
          [mkDiagnostic SeverityError (RangeForNode (proj result) expr) emptyMsg], None)
     else
       match lookup with
       | None =>
           (addDiagnostics (addSpxResourceRef result ref)
              (nodeDocumentURI s (proj result) expr)
              [mkDiagnostic SeverityError (RangeForNode (proj result) expr) missingMsg],
            None)
       | Some res => (addSpxResourceRef result ref, Some res)
       end).
Proof.
  intros Hrefs Hseen. unfold namedOutcome. cbv zeta.
  destruct (decide (name = "")) as [->|Hne]; cbn [fst snd].
  - split_and!; [done | | by apply addDiagnostics_stores].
    by destruct (addDiagnostics_context result (nodeDocumentURI s (proj result) expr)
                   [mkDiagnostic SeverityError (RangeForNode (proj result) expr) emptyMsg])
      as (_ & _ & -> & _).
  - destruct lookup as [res|]; cbn [fst snd].
    + split_and!; [by apply addSpxResourceRef_stored | done | ].
      intros u. apply addSpxResourceRef_diagnostics.
    + split_and!; [ | done | ].
      * destruct (addDiagnostics_context (addSpxResourceRef result ref)
                    (nodeDocumentURI s (proj result) expr)
                    [mkDiagnostic SeverityError (RangeForNode (proj result) expr) missingMsg])
          as (_ & _ & -> & _).
        by apply addSpxResourceRef_stored.
      * apply addDiagnostics_stores. by apply addSpxResourceRef_consistent.
Qed.

Ltac outcome_solve name ref :=
  intros Htyp Hname Hrefs Hseen;
  match goal with
  | |- namedOutcome ?result ?expr _ _ ?lookup ?emptyMsg ?missingMsg ?out =>
      assert (out =
              (if decide (name = "") then
                 (addDiagnostics result (nodeDocumentURI s (proj result) expr)
                    [mkDiagnostic SeverityError (RangeForNode (proj result) expr) emptyMsg],
                  None)
               else
                 match lookup with
                 | None =>
                     (addDiagnostics (addSpxResourceRef result ref)
                        (nodeDocumentURI s (proj result) expr)
                        [mkDiagnostic SeverityError (RangeForNode (proj result) expr)
                           missingMsg],
                      None)
                 | Some res => (addSpxResourceRef result ref, Some res)
                 end)) as ->;
      [ cbv zeta; rewrite Htyp, Hname;
        rewrite bool_decide_eq_true_2 by done; cbn [negb];
        destruct (decide (name = "")); [done|];
        destruct (addSpxResourceRef_frame result ref) as ((Hp & _ & Hs) & _);
        rewrite ?Hs, ?Hp; done
      | by apply namedOutcome_intro ]
  end.

(** The backdrop resolver on an expression of the backdrop name type whose
    string value is [name]: for the empty name it adds the error "backdrop
    resource name cannot be empty", records no reference and returns nil;
    otherwise it records the reference and then either returns the
    backdrop, adding no diagnostic, or adds the error "backdrop resource
    <name> not found" and returns nil. *)
Theorem inspectSpxBackdropResourceRefAtExpr_outcomes
    (result : compileResult) (expr : Node) (declaredType : option GoType) (name : string) :
  typeFor (TypesAt (proj result) expr) declaredType = Some SpxBackdropNameType ->
  getStringLitOrConstValue (Unquote (proj result)) expr (TypesAt (proj result) expr)
    = Some name ->
  refsConsistent result ->
  seenConsistent result (nodeDocumentURI s (proj result) expr) ->
  namedOutcome result expr name
    (mkRef (SpxBackdropResourceID name) (nameRefKind expr) expr)
    (Backdrop (spxResourceSet result) name)
    "backdrop resource name cannot be empty"
    ("backdrop resource " +:+ Quote (proj result) name +:+ " not found")
    (inspectSpxBackdropResourceRefAtExpr s result expr declaredType).
Proof.
  unfold inspectSpxBackdropResourceRefAtExpr.
  outcome_solve name (mkRef (SpxBackdropResourceID name) (nameRefKind expr) expr).
Qed.

(** The widget resolver on an expression of the widget name type whose
    string value is [name]: the same three outcomes, with the messages
    "widget resource name cannot be empty" and "widget resource <name> not
    found". *)
Theorem inspectSpxWidgetResourceRefAtExpr_outcomes
    (result : compileResult) (expr : Node) (declaredType : option GoType) (name : string) :
  typeFor (TypesAt (proj result) expr) declaredType = Some SpxWidgetNameType ->
  getStringLitOrConstValue (Unquote (proj result)) expr (TypesAt (proj result) expr)
    = Some name ->
  refsConsistent result ->
  seenConsistent result (nodeDocumentURI s (proj result) expr) ->
  namedOutcome result expr name
    (mkRef (SpxWidgetResourceID name) (nameRefKind expr) expr)
    (Widget (spxResourceSet result) name)
    "widget resource name cannot be empty"
    ("widget resource " +:+ Quote (proj result) name +:+ " not found")
    (inspectSpxWidgetResourceRefAtExpr s result expr declaredType).
Proof.
  unfold inspectSpxWidgetResourceRefAtExpr.
  outcome_solve name (mkRef (SpxWidgetResourceID name) (nameRefKind expr) expr).
Qed.

(** The costume resolver on an expression of the costume name type whose
    string value is [name], for the sprite [sprite]: the same three
    outcomes; the reference names the sprite and the costume, the lookup is
    among the costumes of the sprite, and the message of a miss names
    both. *)
Theorem inspectSpxSpriteCostumeResourceRefAtExpr_outcomes
    (result : compileResult) (sprite : SpxSpriteResource) (expr : Node)
    (declaredType : option GoType) (name : string) :
  typeFor (TypesAt (proj result) expr) declaredType = Some SpxSpriteCostumeNameType ->
  getStringLitOrConstValue (Unquote (proj result)) expr (TypesAt (proj result) expr)
    = Some name ->
  refsConsistent result ->
  seenConsistent result (nodeDocumentURI s (proj result) expr) ->
  namedOutcome result expr name
    (mkRef (SpxSpriteCostumeResourceID (SpriteName_ sprite) name) (nameRefKind expr) expr)
    (Costume sprite name)
    "sprite costume resource name cannot be empty"
    ("costume resource " +:+ Quote (proj result) name +:+ " not found in sprite "
     +:+ Quote (proj result) (SpriteName_ sprite))
    (inspectSpxSpriteCostumeResourceRefAtExpr s result sprite expr declaredType).
Proof.
  unfold inspectSpxSpriteCostumeResourceRefAtExpr.
  outcome_solve name
    (mkRef (SpxSpriteCostumeResourceID (SpriteName_ sprite) name) (nameRefKind expr) expr).
Qed.

(** The animation resolver on an expression of the animation name type
    whose string value is [name], for the sprite [sprite]: the same three
    outcomes, the lookup being among the animations of the sprite. *)
Theorem inspectSpxSpriteAnimationResourceRefAtExpr_outcomes
    (result : compileResult) (sprite : SpxSpriteResource) (expr : Node)
    (declaredType : option GoType) (name : string) :
  typeFor (TypesAt (proj result) expr) declaredType = Some SpxSpriteAnimationNameType ->
  getStringLitOrConstValue (Unquote (proj result)) expr (TypesAt (proj result) expr)
    = Some name ->
  refsConsistent result ->
  seenConsistent result (nodeDocumentURI s (proj result) expr) ->
  namedOutcome result expr name
    (mkRef (SpxSpriteAnimationResourceID (SpriteName_ sprite) name) (nameRefKind expr) expr)
    (Animation sprite name)
    "sprite animation resource name cannot be empty"
    ("animation resource " +:+ Quote (proj result) name +:+ " not found in sprite "
     +:+ Quote (proj result) (SpriteName_ sprite))
    (inspectSpxSpriteAnimationResourceRefAtExpr s result sprite expr declaredType).
Proof.
  unfold inspectSpxSpriteAnimationResourceRefAtExpr.
  outcome_solve name
    (mkRef (SpxSpriteAnimationResourceID (SpriteName_ sprite) name) (nameRefKind expr) expr).
Qed.

End ResolverOutcomes.

(** The four theorems at work on the literal "missing" in a project without
    resources, and on a sprite with one costume and one animation. *)
Definition heroSprite : SpxSpriteResource :=
  {| SpriteName_ := "Hero"; Costumes := {["idle"]}; Animations := {["walk"]} |}.

Lemma newCompileResult_refsConsistent (p : Project) : refsConsistent (newCompileResult p).
Proof. intros ref Href. simpl in Href. by apply elem_of_empty in Href. Qed.

Lemma inspectSpxBackdropResourceRefAtExpr_outcomes_witness :
  namedOutcome server0 (newCompileResult playProject) missingLit "missing"
    (mkRef (SpxBackdropResourceID "missing") (nameRefKind missingLit) missingLit)
    (Backdrop (spxResourceSet (newCompileResult playProject)) "missing")
    "backdrop resource name cannot be empty"
    ("backdrop resource " +:+ Quote (proj (newCompileResult playProject)) "missing"
     +:+ " not found")
    (inspectSpxBackdropResourceRefAtExpr server0 (newCompileResult playProject) missingLit
       (Some SpxBackdropNameType)).
Proof.
  refine (inspectSpxBackdropResourceRefAtExpr_outcomes server0
            (newCompileResult playProject) missingLit (Some SpxBackdropNameType)
            "missing" _ _ _ _).
  - reflexivity.
  - vm_compute. reflexivity.
  - apply newCompileResult_refsConsistent.
  - apply diagnosticsInvariant_new.
Defined.

Lemma inspectSpxWidgetResourceRefAtExpr_outcomes_witness :
  namedOutcome server0 (newCompileResult playProject) missingLit "missing"
    (mkRef (SpxWidgetResourceID "missing") (nameRefKind missingLit) missingLit)
    (Widget (spxResourceSet (newCompileResult playProject)) "missing")
    "widget resource name cannot be empty"
    ("widget resource " +:+ Quote (proj (newCompileResult playProject)) "missing"
     +:+ " not found")
    (inspectSpxWidgetResourceRefAtExpr server0 (newCompileResult playProject) missingLit
       (Some SpxWidgetNameType)).
Proof.
  refine (inspectSpxWidgetResourceRefAtExpr_outcomes server0
            (newCompileResult playProject) missingLit (Some SpxWidgetNameType)
            "missing" _ _ _ _).
  - reflexivity.
  - vm_compute. reflexivity.
  - apply newCompileResult_refsConsistent.
  - apply diagnosticsInvariant_new.
Defined.

Lemma inspectSpxSpriteCostumeResourceRefAtExpr_outcomes_witness :
  namedOutcome server0 (newCompileResult playProject) missingLit "missing"
    (mkRef (SpxSpriteCostumeResourceID (SpriteName_ heroSprite) "missing")
       (nameRefKind missingLit) missingLit)
    (Costume heroSprite "missing")
    "sprite costume resource name cannot be empty"
    ("costume resource " +:+ Quote (proj (newCompileResult playProject)) "missing"
     +:+ " not found in sprite "
     +:+ Quote (proj (newCompileResult playProject)) (SpriteName_ heroSprite))
    (inspectSpxSpriteCostumeResourceRefAtExpr server0 (newCompileResult playProject)
       heroSprite missingLit (Some SpxSpriteCostumeNameType)).
Proof.
  refine (inspectSpxSpriteCostumeResourceRefAtExpr_outcomes server0
            (newCompileResult playProject) heroSprite missingLit
            (Some SpxSpriteCostumeNameType) "missing" _ _ _ _).
  - reflexivity.
  - vm_compute. reflexivity.
  - apply newCompileResult_refsConsistent.
  - apply diagnosticsInvariant_new.
Defined.

Lemma inspectSpxSpriteAnimationResourceRefAtExpr_outcomes_witness :
  namedOutcome server0 (newCompileResult playProject) missingLit "missing"
    (mkRef (SpxSpriteAnimationResourceID (SpriteName_ heroSprite) "missing")
       (nameRefKind missingLit) missingLit)
    (Animation heroSprite "missing")
    "sprite animation resource name cannot be empty"
    ("animation resource " +:+ Quote (proj (newCompileResult playProject)) "missing"
     +:+ " not found in sprite "
     +:+ Quote (proj (newCompileResult playProject)) (SpriteName_ heroSprite))
    (inspectSpxSpriteAnimationResourceRefAtExpr server0 (newCompileResult playProject)
       heroSprite missingLit (Some SpxSpriteAnimationNameType)).
Proof.
  refine (inspectSpxSpriteAnimationResourceRefAtExpr_outcomes server0
            (newCompileResult playProject) heroSprite missingLit
            (Some SpxSpriteAnimationNameType) "missing" _ _ _ _).
  - reflexivity.
  - vm_compute. reflexivity.
  - apply newCompileResult_refsConsistent.
  - apply diagnosticsInvariant_new.
Defined.

(** ** UTF-16 columns and byte offsets *)

Section Columns.

Open Scope Z_scope.

(** Content is well formed when every rune is decoded from as many bytes as
    its encoding has and the bytes skipped after its first byte are
    continuation bytes, which is how valid UTF-8 decodes; [skip] is the
    number of bytes still to skip, as in [rangeRunes]. *)
Fixpoint wellFormed (skip : nat) (s : list Z) : bool :=
  match s with
  | [] => bool_decide (skip = 0%nat)
  | b :: rest =>
      match skip with
      | S k => utf8.isCont b && wellFormed k rest
      | O =>
          let '(r, size) := utf8.DecodeRune s in
          (utf8.RuneLen r =? Z.of_nat size) && wellFormed (size - 1) rest
      end
  end.

(** The number of bytes of the encodings of [runes]. *)
Definition encodedLen (runes : list Z) : Z :=
  foldr (fun r n => utf8.RuneLen r + n) 0 runes.

(** The number of UTF-16 words of [runes], as [utf16Offset] counts them. *)
Definition utf16Len (runes : list Z) : Z :=
  foldr (fun r n => (if utf16.RuneLen r =? 2 then 2 else 1) + n) 0 runes.

Lemma DecodeRune_size (b : Z) (rest : list Z) (r : Z) (size : nat) :
  utf8.DecodeRune (b :: rest) = (r, size) -> (1 <= size <= S (length rest))%nat.
Proof.
  unfold utf8.DecodeRune. intros Hd.
  repeat case_match; simplify_eq; simpl; lia.
Qed.

Lemma RuneLen_RuneError_1 : utf8.RuneLen utf8.RuneError <> 1.
Proof. vm_compute. discriminate. Qed.

(** A rune that was decoded cleanly depends on its own bytes only. *)
Lemma DecodeRune_app (b : Z) (rest q : list Z) (r : Z) (size : nat) :
  utf8.DecodeRune (b :: rest) = (r, size) ->
  utf8.RuneLen r = Z.of_nat size ->
  utf8.DecodeRune (b :: rest ++ q) = (r, size).
Proof.
  unfold utf8.DecodeRune. intros Hd Hlen.
  destruct (utf8.first b) as [| |sz lo hi]; [done | done |].
  destruct rest as [|b1 rest]; simpl in *.
  { simplify_eq; by destruct RuneLen_RuneError_1. }
  destruct ((b1 <? lo) || (hi <? b1)); [done|].
  destruct (sz <=? 2)%nat; [done|].
  destruct rest as [|b2 rest]; simpl in *.
  { simplify_eq; by destruct RuneLen_RuneError_1. }
  destruct (negb (utf8.isCont b2)); [done|].
  destruct (sz <=? 3)%nat; [done|].
  destruct rest as [|b3 rest]; simpl in *.
  { simplify_eq; by destruct RuneLen_RuneError_1. }
  done.
Qed.

Lemma wellFormed_runes (s : list Z) :
  forall k, wellFormed k s = true ->
    encodedLen (rangeRunes k s) = Z.of_nat (length s) - Z.of_nat k /\
    Forall (fun r => 1 <= utf8.RuneLen r) (rangeRunes k s).
Proof.
  induction s as [|b rest IH]; intros k Hwf.
  - simpl in Hwf. apply bool_decide_eq_true in Hwf as ->. by split.
  - destruct k as [|k].
    + cbn [wellFormed rangeRunes] in *.
      destruct (utf8.DecodeRune (b :: rest)) as [r size] eqn:Hd.
      apply andb_true_iff in Hwf as [Hlen Hwf]. apply Z.eqb_eq in Hlen.
      apply DecodeRune_size in Hd. destruct (IH _ Hwf) as [Hsum Hall].
      split.
      * cbn [encodedLen foldr]. fold (encodedLen (rangeRunes (size - 1) rest)).
        rewrite Hsum, Hlen. simpl length. lia.
      * constructor; [lia | done].
    + cbn [wellFormed rangeRunes] in *.
      apply andb_true_iff in Hwf as [_ Hwf]. destruct (IH _ Hwf) as [Hsum Hall].
      split; [|done]. rewrite Hsum. simpl length. lia.
Qed.

Lemma wellFormed_app (p q : list Z) :
  forall k, wellFormed k p = true ->
    rangeRunes k (p ++ q) = rangeRunes k p ++ rangeRunes 0 q.
Proof.
  induction p as [|b rest IH]; intros k Hwf.
  - simpl in Hwf. apply bool_decide_eq_true in Hwf as ->. done.
  - destruct k as [|k].
    + cbn [wellFormed] in Hwf.
      destruct (utf8.DecodeRune (b :: rest)) as [r size] eqn:Hd.
      apply andb_true_iff in Hwf as [Hlen Hwf]. apply Z.eqb_eq in Hlen.
      change ((b :: rest) ++ q) with (b :: rest ++ q).
      cbn [rangeRunes]. rewrite (DecodeRune_app _ _ q _ _ Hd Hlen), Hd.
      rewrite (IH _ Hwf). done.
    + cbn [wellFormed] in Hwf. apply andb_true_iff in Hwf as [_ Hwf].
      change ((b :: rest) ++ q) with (b :: rest ++ q).
      cbn [rangeRunes]. by apply IH.
Qed.

(** A rune with an encoding has one or two UTF-16 words. *)
Lemma utf16_RuneLen_encoded (r : Z) :
  1 <= utf8.RuneLen r ->
  utf16.RuneLen r = (if utf16.RuneLen r =? 2 then 2 else 1).
Proof.
  unfold utf8.RuneLen, utf16.RuneLen, utf8.MaxRune.
  repeat case_match; lia.
Qed.

Lemma encodedLen_cons (r : Z) (runes : list Z) :
  encodedLen (r :: runes) = utf8.RuneLen r + encodedLen runes.
Proof. reflexivity. Qed.

Lemma encodedLen_nonneg (runes : list Z) :
  Forall (fun r => 1 <= utf8.RuneLen r) runes -> 0 <= encodedLen runes.
Proof. induction 1; rewrite ?encodedLen_cons; [done | lia]. Qed.

Lemma loop_bounds (runes : list Z) :
  Forall (fun r => 1 <= utf8.RuneLen r) runes ->
  forall off units bytes,
    bytes <= utf16OffsetToUTF8_loop runes off units bytes <= bytes + encodedLen runes.
Proof.
  induction 1 as [|r runes Hr Hall IH]; intros off units bytes;
    cbn [utf16OffsetToUTF8_loop]; rewrite ?encodedLen_cons.
  - change (encodedLen []) with 0. lia.
  - pose proof (encodedLen_nonneg runes Hall).
    destruct (units >=? off); [lia|].
    specialize (IH off (units + utf16.RuneLen r) (bytes + utf8.RuneLen r)). lia.
Qed.

Lemma utf16Len_cons (r : Z) (runes : list Z) :
  utf16Len (r :: runes) = (if utf16.RuneLen r =? 2 then 2 else 1) + utf16Len runes.
Proof. reflexivity. Qed.

Lemma utf16Len_nonneg (runes : list Z) : 0 <= utf16Len runes.
Proof.
  induction runes as [|r runes IH]; rewrite ?utf16Len_cons; [done|].
  destruct (utf16.RuneLen r =? 2); lia.
Qed.

Lemma utf16Len_app (l1 l2 : list Z) : utf16Len (l1 ++ l2) = utf16Len l1 + utf16Len l2.
Proof.
  induction l1 as [|r l1 IH]; [done|].
  change ((r :: l1) ++ l2) with (r :: l1 ++ l2). rewrite !utf16Len_cons, IH. lia.
Qed.

(** The loop stops behind the runes whose UTF-16 words fill the offset. *)
Lemma loop_prefix (runes more : list Z) :
  Forall (fun r => 1 <= utf8.RuneLen r) runes ->
  forall off units bytes,
    off = units + utf16Len runes ->
    utf16OffsetToUTF8_loop (runes ++ more) off units bytes = bytes + encodedLen runes.
Proof.
  induction 1 as [|r runes Hr Hall IH]; intros off units bytes Hoff.
  - change (utf16Len []) with 0 in Hoff. change (encodedLen []) with 0.
    rewrite app_nil_l. destruct more as [|r more]; cbn [utf16OffsetToUTF8_loop]; [lia|].
    rewrite Z.geb_leb, (proj2 (Z.leb_le _ _)) by lia. lia.
  - rewrite utf16Len_cons in Hoff. rewrite encodedLen_cons.
    pose proof (utf16_RuneLen_encoded r Hr) as Hw.
    pose proof (utf16Len_nonneg runes) as Hpos.
    change ((r :: runes) ++ more) with (r :: runes ++ more).
    cbn [utf16OffsetToUTF8_loop].
    rewrite Z.geb_leb, (proj2 (Z.leb_gt _ _)) by (destruct (utf16.RuneLen r =? 2); lia).
    rewrite IH; [lia|]. rewrite Hw. lia.
Qed.

Lemma utf16OffsetToUTF8_bounds (s : list Z) (utf16Offset : Z) :
  wellFormed 0 s = true ->
  0 <= utf16OffsetToUTF8 s utf16Offset <= Z.of_nat (length s).
Proof.
  intros Hwf. unfold utf16OffsetToUTF8.
  destruct (utf16Offset <=? 0); [lia|].
  destruct (wellFormed_runes s 0%nat Hwf) as [Hsum Hall].
  pose proof (loop_bounds _ Hall utf16Offset 0 0). lia.
Qed.

(** In well-formed content [utf16OffsetToUTF8] stays within the content,
    whatever the UTF-16 offset. *)
Theorem utf16OffsetToUTF8_within (s : list Z) (utf16Offset : Z) :
  wellFormed 0 s = true ->
  0 <= utf16OffsetToUTF8 s utf16Offset <= Z.of_nat (length s).
Proof. apply utf16OffsetToUTF8_bounds. Qed.

(** The byte offset of the UTF-16 length of a well-formed prefix is the
    length of that prefix, whatever follows it: [utf16OffsetToUTF8] undoes
    [utf16Offset]. *)
Theorem utf16OffsetToUTF8_utf16Offset (prefix rest : list Z) :
  wellFormed 0 prefix = true ->
  utf16OffsetToUTF8 (prefix ++ rest) (utf16Offset prefix) = Z.of_nat (length prefix).
Proof.
  intros Hwf. unfold utf16OffsetToUTF8, utf16Offset. fold (utf16Len (rangeRunes 0 prefix)).
  destruct (wellFormed_runes prefix 0%nat Hwf) as [Hsum Hall].
  pose proof (utf16Len_nonneg (rangeRunes 0 prefix)) as Hpos.
  destruct (utf16Len (rangeRunes 0 prefix) <=? 0) eqn:Hzero.
  - apply Z.leb_le in Hzero.
    destruct (rangeRunes 0 prefix) as [|r runes] eqn:Hrunes.
    + change (encodedLen []) with 0 in Hsum. lia.
    + rewrite utf16Len_cons in Hzero.
      pose proof (utf16Len_nonneg runes). destruct (utf16.RuneLen r =? 2); lia.
  - rewrite (wellFormed_app prefix rest 0%nat Hwf).
    rewrite (loop_prefix _ _ Hall); lia.
Qed.

(** *** Lines of well-formed content *)

Lemma wellFormed_skipped (s : list Z) :
  forall k, wellFormed k s = true ->
    (k <= length s)%nat /\
    forall j b, (j < k)%nat -> s !! j = Some b -> utf8.isCont b = true.
Proof.
  induction s as [|b rest IH]; intros k Hwf.
  - simpl in Hwf. apply bool_decide_eq_true in Hwf as ->. split; [done|]. lia.
  - destruct k as [|k]; [split; [simpl; lia | lia]|].
    cbn [wellFormed] in Hwf. apply andb_true_iff in Hwf as [Hb Hwf].
    destruct (IH _ Hwf) as [Hle Hcont]. split; [simpl; lia|].
    intros [|j] c Hj Hc; simpl in Hc; [by simplify_eq|].
    apply (Hcont j); [lia | done].
Qed.

(** The content behind a line feed is well formed. *)
Lemma wellFormed_drop (s : list Z) :
  forall k i, wellFormed k s = true -> s !! i = Some 10 ->
    wellFormed 0 (drop (S i) s) = true.
Proof.
  induction s as [|b rest IH]; intros k i Hwf Hi; [done|].
  destruct i as [|i]; simpl in Hi.
  - simplify_eq. destruct k as [|k]; cbn [wellFormed] in Hwf.
    + change (utf8.DecodeRune (10 :: rest)) with (10, 1%nat) in Hwf.
      apply andb_true_iff in Hwf as [_ Hwf]. exact Hwf.
    + by apply andb_true_iff in Hwf as [? _].
  - change (drop (S (S i)) (b :: rest)) with (drop (S i) rest).
    destruct k as [|k]; cbn [wellFormed] in Hwf.
    + destruct (utf8.DecodeRune (b :: rest)) as [r size].
      apply andb_true_iff in Hwf as [_ Hwf]. by eapply IH.
    + apply andb_true_iff in Hwf as [_ Hwf]. by eapply IH.
Qed.

(** A rune that was decoded cleanly is decoded from a prefix that holds its
    bytes. *)
Lemma DecodeRune_take (b : Z) (rest : list Z) (j : nat) (r : Z) (size : nat) :
  utf8.DecodeRune (b :: rest) = (r, size) ->
  utf8.RuneLen r = Z.of_nat size ->
  (size - 1 <= j)%nat ->
  utf8.DecodeRune (b :: take j rest) = (r, size).
Proof.
  unfold utf8.DecodeRune. intros Hd Hlen Hj.
  destruct (utf8.first b) as [| |sz lo hi]; [done | done |].
  destruct rest as [|b1 rest]; [by destruct j|]. simpl in Hd.
  destruct ((b1 <? lo) || (hi <? b1)) eqn:E1.
  { simplify_eq; by destruct RuneLen_RuneError_1. }
  destruct j as [|j].
  { repeat case_match; simplify_eq; first [lia | by destruct RuneLen_RuneError_1]. }
  simpl. rewrite E1. destruct (sz <=? 2)%nat; [done|].
  destruct rest as [|b2 rest]; [by destruct j|]. simpl in Hd.
  destruct (negb (utf8.isCont b2)) eqn:E2.
  { simplify_eq; by destruct RuneLen_RuneError_1. }
  destruct j as [|j].
  { repeat case_match; simplify_eq; first [lia | by destruct RuneLen_RuneError_1]. }
  simpl. rewrite E2. destruct (sz <=? 3)%nat; [done|].
  destruct rest as [|b3 rest]; [by destruct j|]. simpl in Hd.
  destruct j as [|j].
  { repeat case_match; simplify_eq; first [lia | by destruct RuneLen_RuneError_1]. }
  done.
Qed.

Lemma isCont_line_feed : utf8.isCont 10 = false.
Proof. reflexivity. Qed.

(** The content before a line feed, and all of it, is well formed. *)
Lemma wellFormed_take (s : list Z) :
  forall k j, wellFormed k s = true ->
    s !! j = Some 10 \/ (length s <= j)%nat ->
    wellFormed k (take j s) = true.
Proof.
  induction s as [|b rest IH]; intros k j Hwf Hj.
  - by rewrite take_nil.
  - destruct j as [|j].
    + destruct Hj as [Hj|Hj]; [|simpl in Hj; lia]. simpl in Hj. simplify_eq.
      destruct k as [|k]; [done|]. cbn [wellFormed] in Hwf.
      by apply andb_true_iff in Hwf as [? _].
    + assert (rest !! j = Some 10 \/ (length rest <= j)%nat) as Hj'
        by (destruct Hj as [Hj|Hj]; [by left | right; simpl in Hj; lia]).
      change (take (S j) (b :: rest)) with (b :: take j rest).
      destruct k as [|k]; cbn [wellFormed] in *.
      * destruct (utf8.DecodeRune (b :: rest)) as [r size] eqn:Hd.
        apply andb_true_iff in Hwf as [Hlen Hwf].
        destruct (wellFormed_skipped _ _ Hwf) as [Hle Hcont].
        assert (size - 1 <= j)%nat as Hsize.
        { destruct Hj' as [Hj'|Hj']; [|lia].
          destruct (decide (j < size - 1)%nat) as [Hlt|]; [|lia].
          pose proof (Hcont j 10 Hlt Hj') as Hc. by rewrite isCont_line_feed in Hc. }
        rewrite (DecodeRune_take _ _ j _ _ Hd (proj1 (Z.eqb_eq _ _) Hlen) Hsize).
        rewrite Hlen. simpl. by apply IH.
      * apply andb_true_iff in Hwf as [Hb Hwf]. rewrite Hb. simpl. by apply IH.
Qed.

(** Every line start but the first lies behind a line feed. *)
Lemma lineStartsFrom_line_feed (content : list Z) :
  forall (i : Z) (k : nat) (a : Z),
    lineStartsFrom i content !! k = Some a ->
    exists idx : nat, a = i + Z.of_nat idx + 1 /\ content !! idx = Some 10.
Proof.
  induction content as [|b rest IH]; intros i k a Ha; simpl in Ha; [done|].
  destruct (b =? 10) eqn:Eb.
  - apply Z.eqb_eq in Eb as ->. destruct k as [|k]; simpl in Ha.
    + simplify_eq. exists 0%nat. split; [lia | done].
    + destruct (IH _ _ _ Ha) as (idx & -> & Hidx). exists (S idx). split; [lia | done].
  - destruct (IH _ _ _ Ha) as (idx & -> & Hidx). exists (S idx). split; [lia | done].
Qed.

Lemma lineStarts_line_feed (content : list Z) (k : nat) (a : Z) :
  lineStarts content !! k = Some a ->
  a = 0 \/ exists idx : nat, a = Z.of_nat idx + 1 /\ content !! idx = Some 10.
Proof.
  unfold lineStarts. destruct k as [|k]; simpl.
  - intros [= <-]. by left.
  - intros Ha. right. destruct (lineStartsFrom_line_feed _ _ _ _ Ha) as (idx & -> & Hidx).
    exists idx. split; [lia | done].
Qed.

(** A line of well-formed content, from its start to the line feed or the
    end of the content, is well formed. *)
Lemma wellFormed_line (content : list Z) (lo hi : Z) :
  wellFormed 0 content = true ->
  (lo = 0 \/ exists idx : nat, lo = Z.of_nat idx + 1 /\ content !! idx = Some 10) ->
  (hi = Z.of_nat (length content) \/ content !! Z.to_nat hi = Some 10) ->
  0 <= lo <= hi ->
  wellFormed 0 (take (Z.to_nat (hi - lo)) (drop (Z.to_nat lo) content)) = true.
Proof.
  intros Hwf Hlo Hhi Hle.
  assert (wellFormed 0 (drop (Z.to_nat lo) content) = true) as Hdrop.
  { destruct Hlo as [->|(idx & -> & Hidx)]; [by rewrite drop_0|].
    replace (Z.to_nat (Z.of_nat idx + 1)) with (S idx) by lia.
    by eapply wellFormed_drop. }
  apply wellFormed_take; [done|].
  destruct Hhi as [->|Hhi].
  - right. rewrite length_drop. lia.
  - left. rewrite lookup_drop. by replace (Z.to_nat lo + Z.to_nat (hi - lo))%nat
      with (Z.to_nat hi) by lia.
Qed.

Lemma slice_take_drop {A} (s : list A) (lo hi : Z) :
  0 <= lo <= hi -> hi <= Z.of_nat (length s) ->
  slice s lo hi = Some (take (Z.to_nat (hi - lo)) (drop (Z.to_nat lo) s)).
Proof.
  intros H1 H2. unfold slice. by rewrite !(proj2 (Z.leb_le _ _)) by lia.
Qed.

(** The offset of a position in well-formed content: it lies between the
    start of a line and the end of the content. *)
Lemma positionOffset_bounds (content : list Z) (p : Position) :
  wellFormed 0 content = true ->
  exists off, positionOffset content p = Some off /\
              0 <= off <= Z.of_nat (length content).
Proof.
  intros Hwf. unfold positionOffset.
  destruct (Z.of_nat (length content) =? 0) eqn:Elen; [exists 0; split; [done | lia]|].
  apply Z.eqb_neq in Elen.
  destruct (Z.of_N (Line p) >=? Z.of_nat (length (lineStarts content))) eqn:Eline;
    [eexists; split; [done | lia]|].
  rewrite Z.geb_leb in Eline. apply Z.leb_gt in Eline.
  destruct (index_Some (lineStarts content) (Z.of_N (Line p))) as (lo & -> & Hlo);
    [lia|]. cbn [mbind option_bind].
  pose proof (lineStarts_bounds _ _ _ Hlo) as Hlob.
  pose proof (lineStarts_line_feed _ _ _ Hlo) as Hlof.
  destruct (Z.of_N (Line p) + 1 <? Z.of_nat (length (lineStarts content))) eqn:Enext.
  - apply Z.ltb_lt in Enext.
    destruct (index_Some (lineStarts content) (Z.of_N (Line p) + 1))
      as (next & -> & Hnext); [lia|]. cbn [fmap option_fmap option_map mbind option_bind].
    replace (Z.to_nat (Z.of_N (Line p) + 1)) with (S (Z.to_nat (Z.of_N (Line p))))
      in Hnext by lia.
    pose proof (lineStarts_increasing _ _ _ _ Hlo Hnext) as Hinc.
    pose proof (lineStarts_bounds _ _ _ Hnext) as Hnb.
    destruct (lo >=? _); [eexists; split; [done | lia]|].
    rewrite Z.min_l by lia.
    rewrite slice_take_drop by lia. cbn [mbind option_bind].
    eexists. split; [done|].
    assert (wellFormed 0 (take (Z.to_nat (next - 1 - lo)) (drop (Z.to_nat lo) content)) = true)
      as Hline.
    { apply wellFormed_line; [done | done | | lia]. right.
      destruct (lineStarts_line_feed _ _ _ Hnext) as [->|(idx & -> & Hidx)]; [lia|].
      by replace (Z.to_nat (Z.of_nat idx + 1 - 1)) with idx by lia. }
    pose proof (utf16OffsetToUTF8_bounds _ (Z.of_N (Character p)) Hline) as Hb.
    rewrite length_take, length_drop in Hb. lia.
  - cbn [mbind option_bind].
    destruct (lo >=? _) eqn:Ege; [eexists; split; [done | lia]|].
    rewrite Z.geb_leb in Ege. apply Z.leb_gt in Ege.
    rewrite Z.min_id. rewrite slice_take_drop by lia. cbn [mbind option_bind].
    eexists. split; [done|].
    assert (wellFormed 0 (take (Z.to_nat (Z.of_nat (length content) - lo))
                            (drop (Z.to_nat lo) content)) = true) as Hline.
    { apply wellFormed_line; [done | done | by left | lia]. }
    pose proof (utf16OffsetToUTF8_bounds _ (Z.of_N (Character p)) Hline) as Hb.
    rewrite length_take, length_drop in Hb. lia.
Qed.

(** On well-formed content [positionOffset] returns an offset within the
    content, whatever the position. *)
Theorem positionOffset_within (content : list Z) (p : Position) :
  wellFormed 0 content = true ->
  exists off, positionOffset content p = Some off /\
              0 <= off <= Z.of_nat (length content).
Proof. apply positionOffset_bounds. Qed.

(** *** Offsets are rune boundaries *)

(** What [positionOffset] computes: 0 for empty content, the length for a
    line out of range, and otherwise the start [lo] of the line plus the
    byte offset within the line, which ends at [hi]. *)
Lemma positionOffset_shape (content : list Z) (p : Position) :
  positionOffset content p = Some 0 /\ content = [] \/
  (positionOffset content p = Some (Z.of_nat (length content)) /\ content <> [] /\
   (Z.of_nat (length (lineStarts content)) <= Z.of_N (Line p) \/
    exists lo, lineStarts content !! Z.to_nat (Z.of_N (Line p)) = Some lo /\
               Z.of_nat (length content) <= lo)) \/
  exists lo hi,
    positionOffset content p =
      Some (lo + utf16OffsetToUTF8 (take (Z.to_nat (hi - lo)) (drop (Z.to_nat lo) content))
                   (Z.of_N (Character p))) /\
    lineStarts content !! Z.to_nat (Z.of_N (Line p)) = Some lo /\
    0 <= lo <= hi /\ hi <= Z.of_nat (length content) /\
    (lo = 0 \/ exists idx : nat, lo = Z.of_nat idx + 1 /\ content !! idx = Some 10) /\
    (hi = Z.of_nat (length content) \/ content !! Z.to_nat hi = Some 10).
Proof.
  unfold positionOffset.
  destruct (Z.of_nat (length content) =? 0) eqn:Elen.
  { left. split; [done|]. apply Z.eqb_eq in Elen. destruct content; [done | simpl in Elen; lia]. }
  apply Z.eqb_neq in Elen. right.
  assert (content <> []) as Hne by (intros ->; simpl in Elen; lia).
  destruct (Z.of_N (Line p) >=? Z.of_nat (length (lineStarts content))) eqn:Eline.
  { left. rewrite Z.geb_leb in Eline. apply Z.leb_le in Eline. split_and!; [done | done | by left]. }
  rewrite Z.geb_leb in Eline. apply Z.leb_gt in Eline.
  destruct (index_Some (lineStarts content) (Z.of_N (Line p))) as (lo & -> & Hlo);
    [lia|]. cbn [mbind option_bind].
  pose proof (lineStarts_bounds _ _ _ Hlo) as Hlob.
  pose proof (lineStarts_line_feed _ _ _ Hlo) as Hlof.
  destruct (Z.of_N (Line p) + 1 <? Z.of_nat (length (lineStarts content))) eqn:Enext.
  - apply Z.ltb_lt in Enext.
    destruct (index_Some (lineStarts content) (Z.of_N (Line p) + 1))
      as (next & -> & Hnext); [lia|]. cbn [fmap option_fmap option_map mbind option_bind].
    replace (Z.to_nat (Z.of_N (Line p) + 1)) with (S (Z.to_nat (Z.of_N (Line p))))
      in Hnext by lia.
    pose proof (lineStarts_increasing _ _ _ _ Hlo Hnext) as Hinc.
    pose proof (lineStarts_bounds _ _ _ Hnext) as Hnb.
    destruct (lo >=? _) eqn:Ege.
    { left. rewrite Z.geb_leb in Ege. apply Z.leb_le in Ege.
      split_and!; [done | done | right; by exists lo]. }
    right. rewrite Z.min_l by lia.
    rewrite slice_take_drop by lia. cbn [mbind option_bind].
    exists lo, (next - 1). split_and!; [done | done | lia | lia | lia | done | ].
    right. destruct (lineStarts_line_feed _ _ _ Hnext) as [->|(idx & -> & Hidx)]; [lia|].
    by replace (Z.to_nat (Z.of_nat idx + 1 - 1)) with idx by lia.
  - cbn [mbind option_bind].
    destruct (lo >=? _) eqn:Ege.
    { left. rewrite Z.geb_leb in Ege. apply Z.leb_le in Ege.
      split_and!; [done | done | right; by exists lo]. }
    right. rewrite Z.geb_leb in Ege. apply Z.leb_gt in Ege.
    rewrite Z.min_id. rewrite slice_take_drop by lia. cbn [mbind option_bind].
    exists lo, (Z.of_nat (length content)).
    split_and!; [done | done | lia | lia | lia | done | by left].
Qed.

Lemma wellFormed_concat (p q : list Z) :
  forall k, wellFormed k p = true -> wellFormed 0 q = true -> wellFormed k (p ++ q) = true.
Proof.
  induction p as [|b rest IH]; intros k Hp Hq.
  - simpl in Hp. apply bool_decide_eq_true in Hp as ->. done.
  - change ((b :: rest) ++ q) with (b :: rest ++ q).
    destruct k as [|k]; cbn [wellFormed] in *.
    + destruct (utf8.DecodeRune (b :: rest)) as [r size] eqn:Hd.
      apply andb_true_iff in Hp as [Hlen Hp].
      rewrite (DecodeRune_app _ _ q _ _ Hd (proj1 (Z.eqb_eq _ _) Hlen)).
      rewrite Hlen. simpl. by apply IH.
    + apply andb_true_iff in Hp as [Hb Hp]. rewrite Hb. simpl. by apply IH.
Qed.

(** The bytes of the first [m] runes end at a rune boundary. *)
Lemma wellFormed_boundary (s : list Z) :
  forall k m, wellFormed k s = true ->
    let pos := (k + Z.to_nat (encodedLen (take m (rangeRunes k s))))%nat in
    wellFormed k (take pos s) = true /\ wellFormed 0 (drop pos s) = true.
Proof.
  induction s as [|b rest IH]; intros k m Hwf; cbv zeta.
  - simpl in Hwf. apply bool_decide_eq_true in Hwf as ->.
    rewrite take_nil, drop_nil. done.
  - destruct k as [|k].
    + cbn [wellFormed rangeRunes] in *.
      destruct (utf8.DecodeRune (b :: rest)) as [r size] eqn:Hd.
      apply andb_true_iff in Hwf as [Hlen Hwf].
      pose proof (DecodeRune_size _ _ _ _ Hd) as Hsize.
      destruct m as [|m].
      * rewrite take_0. change (encodedLen []) with 0.
        change (0 + Z.to_nat 0)%nat with 0%nat. rewrite take_0, drop_0.
        split; [done|]. cbn [wellFormed]. rewrite Hd, Hlen. exact Hwf.
      * cbn [take]. rewrite encodedLen_cons.
        destruct (IH _ m Hwf) as [Ht Hdr]. cbv zeta in Ht, Hdr.
        destruct (wellFormed_runes rest _ Hwf) as [_ Hall].
        pose proof (encodedLen_nonneg (take m (rangeRunes (size - 1) rest))
                      (Forall_take _ _ _ Hall)) as Hnn.
        apply Z.eqb_eq in Hlen.
        replace (0 + Z.to_nat (utf8.RuneLen r
                   + encodedLen (take m (rangeRunes (size - 1) rest))))%nat
          with (S (size - 1 + Z.to_nat (encodedLen (take m (rangeRunes (size - 1) rest)))))
          by lia.
        cbn [take drop]. split; [|exact Hdr].
        cbn [wellFormed].
        rewrite (DecodeRune_take _ _ _ _ _ Hd Hlen) by lia.
        rewrite (proj2 (Z.eqb_eq _ _) Hlen). simpl. exact Ht.
    + cbn [wellFormed rangeRunes] in *.
      apply andb_true_iff in Hwf as [Hb Hwf].
      destruct (IH _ m Hwf) as [Ht Hdr]. cbv zeta in Ht, Hdr.
      replace (S k + Z.to_nat (encodedLen (take m (rangeRunes k rest))))%nat
        with (S (k + Z.to_nat (encodedLen (take m (rangeRunes k rest))))) by lia.
      cbn [take drop wellFormed]. rewrite Hb. simpl. done.
Qed.

Lemma loop_stops_at_rune (runes : list Z) :
  forall off units bytes, exists m,
    utf16OffsetToUTF8_loop runes off units bytes = bytes + encodedLen (take m runes).
Proof.
  induction runes as [|r runes IH]; intros off units bytes; cbn [utf16OffsetToUTF8_loop].
  - exists 0%nat. change (encodedLen (take 0 [])) with 0. lia.
  - destruct (units >=? off).
    + exists 0%nat. change (encodedLen (take 0 (r :: runes))) with 0. lia.
    + destruct (IH off (units + utf16.RuneLen r) (bytes + utf8.RuneLen r)) as (m & ->).
      exists (S m). cbn [take]. rewrite encodedLen_cons. lia.
Qed.

(** In well-formed content every offset that [positionOffset] returns is a
    rune boundary within the content: the content before it and the
    content from it on are well formed. *)
Lemma positionOffset_boundary (content : list Z) (p : Position) :
  wellFormed 0 content = true ->
  exists off : nat,
    positionOffset content p = Some (Z.of_nat off) /\ (off <= length content)%nat /\
    wellFormed 0 (take off content) = true /\ wellFormed 0 (drop off content) = true.
Proof.
  intros Hwf.
  destruct (positionOffset_shape content p)
    as [[Hp ->]|[[Hp _]|(lo & hi & Hp & _ & Hle & Hhi & Hlo & Hend)]].
  - exists 0%nat. done.
  - exists (length content). rewrite firstn_all, drop_all. done.
  - set (line := take (Z.to_nat (hi - lo)) (drop (Z.to_nat lo) content)) in *.
    assert (wellFormed 0 line = true) as Hline by (by apply wellFormed_line).
    assert (exists m, utf16OffsetToUTF8 line (Z.of_N (Character p))
                      = encodedLen (take m (rangeRunes 0 line))) as (m & Hm).
    { unfold utf16OffsetToUTF8. destruct (_ <=? 0); [by exists 0%nat|].
      destruct (loop_stops_at_rune (rangeRunes 0 line) (Z.of_N (Character p)) 0 0)
        as (m & ->). by exists m. }
    pose proof (utf16OffsetToUTF8_bounds line (Z.of_N (Character p)) Hline) as Hb.
    assert (length line = Z.to_nat (hi - lo)) as Hlen
      by (unfold line; rewrite length_take, length_drop; lia).
    destruct (wellFormed_boundary line 0 m Hline) as [Ht Hd]. cbv zeta in Ht, Hd.
    rewrite <- Hm in Ht, Hd. simpl in Ht, Hd.
    set (u := Z.to_nat (utf16OffsetToUTF8 line (Z.of_N (Character p)))) in *.
    exists (Z.to_nat lo + u)%nat. split_and!.
    + rewrite Hp. f_equal. lia.
    + lia.
    + rewrite <- take_take_drop. apply wellFormed_concat.
      * destruct Hlo as [->|(idx & -> & Hidx)]; [done|].
        replace (Z.to_nat (Z.of_nat idx + 1)) with (S idx) by lia.
        rewrite (take_S_r _ _ _ Hidx). apply wellFormed_concat; [|done].
        apply wellFormed_take; [done | by left].
      * replace (take u (drop (Z.to_nat lo) content)) with (take u line); [done|].
        unfold line. rewrite take_take. f_equal. lia.
    + replace (drop (Z.to_nat lo + u) content)
        with (drop u line ++ drop (Z.to_nat hi) content).
      * apply wellFormed_concat; [done|].
        destruct Hend as [->|Hend]; [by rewrite Nat2Z.id, drop_all|].
        rewrite (drop_S _ _ _ Hend). cbn [wellFormed].
        change (utf8.DecodeRune (10 :: drop (S (Z.to_nat hi)) content)) with (10, 1%nat).
        simpl. by eapply wellFormed_drop.
      * unfold line. rewrite <- drop_drop.
        rewrite <- (drop_take_drop (drop (Z.to_nat lo) content) u (Z.to_nat (hi - lo)))
          by lia.
        f_equal. rewrite drop_drop. f_equal. lia.
Qed.

(** *** Incremental changes *)

Lemma applyChanges_step (content : list Z) (change : TextDocumentContentChangeEvent)
    (changes : list TextDocumentContentChangeEvent) (range : Range) (start end_ : nat) :
  EventRange change = Some range ->
  positionOffset content (Start range) = Some (Z.of_nat start) ->
  positionOffset content (End_ range) = Some (Z.of_nat end_) ->
  (start <= end_ <= length content)%nat ->
  applyChanges content (change :: changes) =
    applyChanges (take start content ++ Text change ++ drop end_ content) changes.
Proof.
  intros Hr Hs He Hle. cbn [applyChanges]. rewrite Hr, Hs, He.
  rewrite (proj2 (Z.ltb_ge _ _)) by lia.
  rewrite !slice_take_drop by lia.
  rewrite drop_0, Z.sub_0_r, !Nat2Z.id.
  by rewrite (take_ge (drop end_ content)) by (rewrite length_drop; lia).
Qed.

Lemma applyChanges_wellFormed (changes : list TextDocumentContentChangeEvent) :
  forall content,
    wellFormed 0 content = true ->
    Forall (fun change => wellFormed 0 (Text change) = true) changes ->
    match applyChanges content changes with
    | Changed content' => wellFormed 0 content' = true
    | ChangeFailed err => err = errNilRange \/ err = errInvalidRange
    | ChangePanic => False
    end.
Proof.
  induction changes as [|change changes IH]; intros content Hwf Hall; [done|].
  apply Forall_cons in Hall as [Htext Hall].
  destruct (EventRange change) as [range|] eqn:Hr;
    [|cbn [applyChanges]; rewrite Hr; by left].
  destruct (positionOffset_boundary content (Start range) Hwf)
    as (start & Hs & Hsl & Hst & _).
  destruct (positionOffset_boundary content (End_ range) Hwf)
    as (end_ & He & Hel & _ & Hed).
  destruct (decide (end_ < start)%nat) as [Hlt|Hge].
  - cbn [applyChanges]. rewrite Hr, Hs, He.
    rewrite (proj2 (Z.ltb_lt _ _)) by lia. by right.
  - rewrite (applyChanges_step _ _ _ _ _ _ Hr Hs He) by lia.
    apply IH; [|done]. by repeat apply wellFormed_concat.
Qed.

(** [applyIncrementalChanges] does not panic on a well-formed file with
    well-formed change texts: it returns well-formed content, or fails
    because the file is missing, a change has no range or a range ends
    before it starts. *)
Theorem applyIncrementalChanges_wellFormed `{FileStore P} (p : P) (path : string)
    (file : FileImpl) (changes : list TextDocumentContentChangeEvent) :
  File p path = Some file ->
  wellFormed 0 (Content file) = true ->
  Forall (fun change => wellFormed 0 (Text change) = true) changes ->
  match applyIncrementalChanges p path changes with
  | Changed content => wellFormed 0 content = true
  | ChangeFailed err => err = errNilRange \/ err = errInvalidRange
  | ChangePanic => False
  end.
Proof.
  intros Hfile Hwf Hall. unfold applyIncrementalChanges. rewrite Hfile.
  by apply applyChanges_wellFormed.
Qed.

Lemma utf16OffsetToUTF8_zero (s : list Z) : utf16OffsetToUTF8 s 0 = 0.
Proof. reflexivity. Qed.

Lemma positionOffset_origin (content : list Z) :
  positionOffset content {| Line := 0; Character := 0 |} = Some 0.
Proof.
  destruct (positionOffset_shape content {| Line := 0; Character := 0 |})
    as [[Hp _]|[(Hp & Hne & Hcase)|(lo & hi & Hp & Hlo & _)]]; [done | |].
  - exfalso. cbn [Line] in Hcase. destruct Hcase as [Hlen|(lo & Hlo & Hle)].
    + unfold lineStarts in Hlen. simpl in Hlen. lia.
    + unfold lineStarts in Hlo. simpl in Hlo. simplify_eq.
      destruct content; [done | simpl in Hle; lia].
  - rewrite Hp. cbn [Line Character] in *. unfold lineStarts in Hlo. simpl in Hlo.
    simplify_eq. by rewrite utf16OffsetToUTF8_zero.
Qed.

Lemma positionOffset_end (content : list Z) (p : Position) :
  Z.of_nat (length (lineStarts content)) <= Z.of_N (Line p) ->
  positionOffset content p = Some (Z.of_nat (length content)).
Proof.
  intros Hline. destruct content as [|b rest]; [done|].
  by apply positionOffset_line_out_of_range.
Qed.

(** A change whose range starts at line 0, character 0 and ends on a line
    at or beyond the number of lines replaces the whole content by its
    text, whatever the content. *)
Theorem applyIncrementalChanges_whole_document `{FileStore P} (p : P) (path : string)
    (file : FileImpl) (change : TextDocumentContentChangeEvent) (end_ : Position) :
  File p path = Some file ->
  EventRange change = Some {| Start := {| Line := 0; Character := 0 |}; End_ := end_ |} ->
  Z.of_nat (length (lineStarts (Content file))) <= Z.of_N (Line end_) ->
  applyIncrementalChanges p path [change] = Changed (Text change).
Proof.
  intros Hfile Hrange Hline. unfold applyIncrementalChanges. rewrite Hfile.
  rewrite (applyChanges_step (Content file) change [] _ 0 (length (Content file)) Hrange).
  - rewrite take_0, drop_all, app_nil_r. done.
  - apply positionOffset_origin.
  - by apply positionOffset_end.
  - lia.
Qed.



End Columns.

(** The two theorems at work on the bytes of "\u00e9a": the first UTF-16
    word ends behind the two bytes of the first rune. *)
Lemma utf16OffsetToUTF8_within_witness :
  (0 <= utf16OffsetToUTF8 [0xC3; 0xA9; 0x61] 1 <= 3)%Z.
Proof.
  refine (utf16OffsetToUTF8_within [0xC3; 0xA9; 0x61]%Z 1%Z _). reflexivity.
Defined.

Lemma utf16OffsetToUTF8_utf16Offset_witness :
  utf16OffsetToUTF8 ([0xC3; 0xA9] ++ [0x61])%Z (utf16Offset [0xC3; 0xA9]%Z) = 2%Z.
Proof.
  refine (utf16OffsetToUTF8_utf16Offset [0xC3; 0xA9]%Z [0x61]%Z _). reflexivity.
Defined.

(** The theorems at work: a position in the two lines "\u00e9" and "a", and
    changes to the file main.spx that holds the byte "h". *)
Lemma positionOffset_within_witness :
  exists off, positionOffset [0xC3; 0xA9; 10; 0x61]%Z (position 0 7) = Some off /\
              (0 <= off <= 4)%Z.
Proof.
  refine (positionOffset_within [0xC3; 0xA9; 10; 0x61]%Z (position 0 7) _). reflexivity.
Defined.

Definition insertAccent : TextDocumentContentChangeEvent :=
  {| EventRange := Some {| Start := position 0 0; End_ := position 0 1 |};
     RangeLength := 1; Text := [0xC3; 0xA9]%Z |}.

Definition replaceAll : TextDocumentContentChangeEvent :=
  {| EventRange := Some {| Start := position 0 0; End_ := position 1 0 |};
     RangeLength := 1; Text := [105]%Z |}.


Lemma applyIncrementalChanges_wellFormed_witness :
  match applyIncrementalChanges oneFile "main.spx" [insertAccent] with
  | Changed content => wellFormed 0 content = true
  | ChangeFailed err => err = errNilRange \/ err = errInvalidRange
  | ChangePanic => False
  end.
Proof.
  refine (applyIncrementalChanges_wellFormed oneFile "main.spx" (file [104%Z] 5)
            [insertAccent] _ _ _).
  - reflexivity.
  - reflexivity.
  - repeat constructor.
Defined.

Lemma applyIncrementalChanges_whole_document_witness :
  applyIncrementalChanges oneFile "main.spx" [replaceAll] = Changed [105%Z].
Proof.
  refine (applyIncrementalChanges_whole_document oneFile "main.spx" (file [104%Z] 5)
            replaceAll (position 1 0) _ _ _).
  - reflexivity.
  - reflexivity.
  - simpl. lia.
Defined.


(** ** The enclosing path *)

Section EnclosingPath.

Import util.
Open Scope Z_scope.

(** [start] and [end] may be given in either order. *)
Theorem PathEnclosingInterval_symmetric (root : File) (start end_ : Z) :
  PathEnclosingInterval root start end_ = PathEnclosingInterval root end_ start.
Proof.
  unfold PathEnclosingInterval. rewrite !Z.gtb_ltb.
  destruct (Z.ltb_spec end_ start), (Z.ltb_spec start end_); try lia; try done.
  by replace end_ with start by lia.
Qed.

(** A path from the root down: every node is a child of the node before it
    and is no token. *)
Fixpoint descends (path : list util.Node) : Prop :=
  match path with
  | parent :: rest =>
      match rest with
      | child :: _ => child ∈ childrenOf parent /\ isToken child = false /\ descends rest
      | [] => True
      end
  | [] => True
  end.

(** The same for a path from the innermost node up to the root. *)
Fixpoint ascends (path : list util.Node) : Prop :=
  match path with
  | child :: rest =>
      match rest with
      | parent :: _ => child ∈ childrenOf parent /\ isToken child = false /\ ascends rest
      | [] => True
      end
  | [] => True
  end.

Lemma visitChildren_descends
    (visit' : util.Node -> Z -> Z -> list util.Node -> list util.Node * bool)
    (cs : list util.Node) :
  Forall (fun c => forall s e p, exists suffix,
            (visit' c s e p).1 = p ++ c :: suffix /\ descends (c :: suffix)) cs ->
  forall path s e np ne prev,
    (visitChildren visit' path s e np ne prev cs).1 = path \/
    exists c suffix,
      (visitChildren visit' path s e np ne prev cs).1 = path ++ c :: suffix /\
      c ∈ cs /\ isToken c = false /\ descends (c :: suffix).
Proof.
  induction 1 as [|c cs Hc _ IH]; intros path s e np ne prev; cbn [visitChildren].
  - by left.
  - destruct (match cs with _ :: _ => _ | [] => _ end) as [between augEnd].
    destruct between; [by left|].
    destruct (_ && _).
    { destruct (isToken c) eqn:Htok; [by left|]. right.
      destruct (Hc s e path) as (suffix & Hs & Hd).
      exists c, suffix. split_and!; [done | by left | done | done]. }
    destruct (_ && _); [by left|].
    destruct (IH path s e np ne (Some (End c))) as [Heq|(c' & suffix & Hs & Hin & Htok & Hd)];
      [by left | right].
    exists c', suffix. split_and!; [done | by right | done | done].
Qed.

Lemma visit_descends (n : util.Node) :
  forall s e path, exists suffix,
    (visit n s e path).1 = path ++ n :: suffix /\ descends (n :: suffix).
Proof.
  induction n as [p e | id p e cs IH] using Node_nested_ind; intros s e' path.
  - exists []. split; [reflexivity | done].
  - cbn [visit].
    destruct (visitChildren_descends visit cs IH (path ++ [astNode id p e cs])
                (if s <? p then p else s) (if e' >? e then e else e') p e None)
      as [Heq|(c & suffix & Hs & Hin & Htok & Hd)].
    + exists []. cbn [Pos End] in *. rewrite Heq. split; [done | done].
    + exists (c :: suffix). cbn [Pos End] in *. rewrite Hs, <- app_assoc.
      split; [done|]. cbn [descends]. split_and!; done.
Qed.

Lemma ascends_snoc (path : list util.Node) (child parent : util.Node) :
  ascends (path ++ [child]) -> child ∈ childrenOf parent -> isToken child = false ->
  ascends (path ++ [child; parent]).
Proof.
  induction path as [|n path IH]; intros Ha Hin Htok.
  - simpl. done.
  - destruct path as [|m path].
    + simpl in *. destruct Ha as (? & ? & _). done.
    + change ((n :: m :: path) ++ [child]) with (n :: m :: (path ++ [child])) in Ha.
      change ((n :: m :: path) ++ [child; parent])
        with (n :: m :: (path ++ [child; parent])).
      cbn [ascends] in Ha. destruct Ha as (H1 & H2 & H3).
      cbn [ascends]. split_and!; [done | done |].
      apply (IH H3 Hin Htok).
Qed.

Lemma descends_rev (path : list util.Node) : descends path -> ascends (rev path).
Proof.
  induction path as [|parent rest IH]; [done|].
  destruct rest as [|child rest]; [done|].
  intros (Hin & Htok & Hd). specialize (IH Hd).
  change (rev (parent :: child :: rest)) with ((rev rest ++ [child]) ++ [parent]).
  rewrite <- app_assoc. by apply ascends_snoc.
Qed.

(** The path that [PathEnclosingInterval] returns is a chain of the tree:
    every node of it but the last is a child of the node that follows it,
    and is no token. *)
Theorem PathEnclosingInterval_chain (root : File) (start end_ : Z) :
  ascends (PathEnclosingInterval root start end_).1.
Proof.
  unfold PathEnclosingInterval.
  destruct (if start >? end_ then _ else _) as [s e].
  destruct (_ && _); [|done].
  destruct (visit_descends (fileNode root) s (if s =? e then s + 1 else e) [])
    as (suffix & Hs & Hd).
  destruct (visit _ _ _ _) as [path exact]. simpl in *. subst path.
  by apply descends_rev.
Qed.

End EnclosingPath.


(** ** The diagnostics of a compile result *)

Section CompileInvariant.

Variable s : Server.

Lemma invariant_fields (r r' : compileResult) :
  diagnostics r' = diagnostics r -> seenDiagnostics r' = seenDiagnostics r ->
  hasErrorSeverityDiagnostic r' = hasErrorSeverityDiagnostic r ->
  diagnosticsInvariant r -> diagnosticsInvariant r'.
Proof.
  intros Hd Hs Hf. unfold diagnosticsInvariant, seenConsistent, seenFor, diagnosticsFor.
  by rewrite Hd, Hs, Hf.
Qed.

Lemma invariant_ref (r : compileResult) (ref : SpxResourceRef) :
  diagnosticsInvariant r -> diagnosticsInvariant (addSpxResourceRef r ref).
Proof.
  destruct (addSpxResourceRef_frame r ref) as (_ & _ & Hd & Hs & Hf).
  by apply invariant_fields.
Qed.

Lemma invariant_autoBindings (r : compileResult) (a b : gset ObjId) :
  diagnosticsInvariant r -> diagnosticsInvariant (set_autoBindings r a b).
Proof. by apply invariant_fields. Qed.

Lemma invariant_foldl {A} (f : compileResult -> A -> compileResult) :
  (forall r a, diagnosticsInvariant r -> diagnosticsInvariant (f r a)) ->
  forall l r, diagnosticsInvariant r -> diagnosticsInvariant (foldl f r l).
Proof.
  intros Hf. induction l as [|a l IH]; intros r Hr; [done|].
  simpl. by apply IH, Hf.
Qed.

Ltac invariant_step :=
  first [ assumption
        | apply diagnosticsInvariant_add
        | apply invariant_ref
        | apply invariant_autoBindings ].

Ltac invariant_solve :=
  cbv zeta; repeat case_match; cbn [fst]; repeat invariant_step.

Lemma backdrop_invariant r expr dt :
  diagnosticsInvariant r ->
  diagnosticsInvariant (inspectSpxBackdropResourceRefAtExpr s r expr dt).1.
Proof. intros H. unfold inspectSpxBackdropResourceRefAtExpr. invariant_solve. Qed.

Lemma sound_invariant r expr dt :
  diagnosticsInvariant r ->
  diagnosticsInvariant (inspectSpxSoundResourceRefAtExpr s r expr dt).1.
Proof. intros H. unfold inspectSpxSoundResourceRefAtExpr. invariant_solve. Qed.

Lemma widget_invariant r expr dt :
  diagnosticsInvariant r ->
  diagnosticsInvariant (inspectSpxWidgetResourceRefAtExpr s r expr dt).1.
Proof. intros H. unfold inspectSpxWidgetResourceRefAtExpr. invariant_solve. Qed.

Lemma costume_invariant r sprite expr dt :
  diagnosticsInvariant r ->
  diagnosticsInvariant (inspectSpxSpriteCostumeResourceRefAtExpr s r sprite expr dt).1.
Proof. intros H. unfold inspectSpxSpriteCostumeResourceRefAtExpr. invariant_solve. Qed.

Lemma animation_invariant r sprite expr dt :
  diagnosticsInvariant r ->
  diagnosticsInvariant (inspectSpxSpriteAnimationResourceRefAtExpr s r sprite expr dt).1.
Proof. intros H. unfold inspectSpxSpriteAnimationResourceRefAtExpr. invariant_solve. Qed.

Lemma sprite_invariant r expr dt :
  diagnosticsInvariant r ->
  diagnosticsInvariant (inspectSpxSpriteResourceRefAtExpr s r expr dt).1.
Proof.
  intros H.
  destruct expr as [| |id fn args| | | |]; cbn [inspectSpxSpriteResourceRefAtExpr];
    try solve [invariant_solve].
  destruct fn as [| | |id' x sel| | |]; try solve [invariant_solve].
  destruct x; cbn [inspectSpxSpriteResourceRefAtExpr]; invariant_solve.
Qed.

Lemma dispatch_invariant r expr typ sprite :
  diagnosticsInvariant r ->
  diagnosticsInvariant (inspectSpxResourceRefForTypeAtExpr s r expr typ sprite).
Proof.
  intros H. unfold inspectSpxResourceRefForTypeAtExpr. cbv zeta.
  repeat case_match;
    first [ assumption
          | by apply backdrop_invariant
          | by apply sprite_invariant
          | by apply costume_invariant
          | by apply animation_invariant
          | by apply sound_invariant
          | by apply widget_invariant ].
Qed.

Lemma inspectDef_invariant r e :
  diagnosticsInvariant r -> diagnosticsInvariant (inspectDef s r e).
Proof.
  intros H. unfold inspectDef. destruct e as [[ident|] [obj|]]; try done.
  destruct (negb _); [done|].
  assert (diagnosticsInvariant (inspectInitializer s r ident obj)) as H1.
  { unfold inspectInitializer. repeat case_match; first [assumption | by apply dispatch_invariant]. }
  revert H1. generalize (inspectInitializer s r ident obj). clear H r. intros r H.
  unfold inspectAutoBinding. cbv zeta.
  repeat case_match;
    first [ assumption
          | by apply diagnosticsInvariant_add
          | by apply dispatch_invariant, invariant_autoBindings ].
Qed.

Lemma inspectUse_invariant r e :
  diagnosticsInvariant r -> diagnosticsInvariant (inspectUse s r e).
Proof.
  intros H. unfold inspectUse.
  repeat case_match; first [assumption | by apply dispatch_invariant].
Qed.

Lemma inspectArgs_invariant params sprite args :
  forall r i last,
    diagnosticsInvariant r ->
    diagnosticsInvariant (inspectArgs s r params sprite i last args).
Proof.
  induction args as [|arg args IH]; intros r i last H; [done|].
  cbn [inspectArgs]. cbv zeta. apply IH.
  destruct arg; try by apply dispatch_invariant.
  apply invariant_foldl; [|done]. intros. by apply dispatch_invariant.
Qed.

Lemma inspectTyped_invariant r e :
  diagnosticsInvariant r -> diagnosticsInvariant (inspectTyped s r e).
Proof.
  intros H. unfold inspectTyped.
  repeat case_match; subst; try assumption; try by apply dispatch_invariant.
  all: match goal with
       | Heq : _ = (?r1, _) |- diagnosticsInvariant (inspectArgs _ ?r1 _ _ _ _ _) =>
           apply inspectArgs_invariant;
           first [ by injection Heq as <- _
                 | match type of Heq with
                   | inspectSpxSpriteResourceRefAtExpr _ ?r0 ?e ?t = _ =>
                       pose proof (sprite_invariant r0 e t H) as Hs;
                       by rewrite Heq in Hs
                   end ]
       end.
Qed.

Lemma inspectForSpxResourceRefs_invariant r :
  diagnosticsInvariant r -> diagnosticsInvariant (inspectForSpxResourceRefs s r).
Proof.
  intros H. unfold inspectForSpxResourceRefs. cbv zeta.
  apply invariant_foldl; [intros; by apply inspectTyped_invariant|].
  apply invariant_foldl; [intros; by apply inspectUse_invariant|].
  apply invariant_foldl; [intros; by apply inspectDef_invariant|].
  done.
Qed.

Lemma runSteps_invariant main cs :
  forall st, diagnosticsInvariant st.2 ->
    diagnosticsInvariant (foldl (runStep s main) st cs).2.
Proof.
  induction cs as [|c cs IH]; intros st H; [done|].
  simpl. apply IH. unfold runStep. destruct (assignable _); [done|].
  by apply diagnosticsInvariant_add.
Qed.

Lemma spxResourceRootDirOf_invariant r :
  diagnosticsInvariant r -> diagnosticsInvariant (spxResourceRootDirOf s r).2.
Proof.
  intros H. destruct (ASTFiles (proj r) (mainSpxFile r)) as [file|] eqn:Hfile.
  - rewrite (spxResourceRootDirOf_eq s r file Hfile). cbn [snd].
    by apply runSteps_invariant.
  - unfold spxResourceRootDirOf. by rewrite Hfile.
Qed.

Lemma inspectForSpxResourceSet_invariant r :
  diagnosticsInvariant r -> diagnosticsInvariant (inspectForSpxResourceSet s r).
Proof.
  intros H. unfold inspectForSpxResourceSet.
  pose proof (spxResourceRootDirOf_invariant r H) as H1.
  destruct (spxResourceRootDirOf s r) as [dir r1]. cbn [snd] in H1.
  destruct (NewSpxResourceSet _ _); [|by apply diagnosticsInvariant_add].
  revert H1. by apply invariant_fields.
Qed.

Lemma inspectDiagnosticsAnalyzers_invariant r :
  diagnosticsInvariant r -> diagnosticsInvariant (inspectDiagnosticsAnalyzers s r).
Proof.
  intros H. unfold inspectDiagnosticsAnalyzers.
  apply invariant_foldl; [|done]. intros r' [f ds] H'. by apply diagnosticsInvariant_add.
Qed.

Lemma handleErr_invariant errs :
  forall r r', diagnosticsInvariant r ->
    foldl (handleErr s) (Some r) errs = Some r' -> diagnosticsInvariant r'.
Proof.
  induction errs as [|err errs IH]; intros r r' H Hr'; simpl in Hr'.
  - by simplify_eq.
  - destruct err as [posValid filename range msg|]; [|by eapply IH].
    destruct (negb posValid).
    + exfalso. clear -Hr'. induction errs as [|e errs IHe]; [done|]. by apply IHe.
    + eapply IH; [|exact Hr']. by apply diagnosticsInvariant_add.
Qed.

(** A document that the loop over the files has not come to yet. *)
Definition unvisited (r : compileResult) (spxFile : string) : Prop :=
  diagnosticsFor r (toDocumentURI s spxFile) = [] /\
  seenFor r (toDocumentURI s spxFile) = ∅.

Lemma toDocumentURI_inj (f g : string) :
  toDocumentURI s f = toDocumentURI s g -> f = g.
Proof.
  unfold toDocumentURI. generalize (workspaceRootURI s) as root.
  induction root as [|a root IH]; intros Heq.
  - by rewrite !append_nil in Heq.
  - rewrite !append_cons in Heq. injection Heq as Heq. by apply IH.
Qed.

(** The diagnostics of the documents other than [uri] are those of [r]. *)
Definition onlyAt (uri : DocumentURI) (r r' : compileResult) : Prop :=
  forall u, u <> uri ->
    diagnosticsFor r' u = diagnosticsFor r u /\ seenFor r' u = seenFor r u.

Lemma onlyAt_trans uri r1 r2 r3 : onlyAt uri r1 r2 -> onlyAt uri r2 r3 -> onlyAt uri r1 r3.
Proof.
  intros H1 H2 u Hu. destruct (H1 u Hu) as [E1 E2], (H2 u Hu) as [E3 E4].
  split; congruence.
Qed.

Lemma onlyAt_add uri r ds : onlyAt uri r (addDiagnostics r uri ds).
Proof. intros u Hu. by apply addDiagnostics_other. Qed.

Lemma onlyAt_foldl uri ds :
  forall r, onlyAt uri r (foldl (fun r d => addDiagnostics r uri [d]) r ds).
Proof.
  induction ds as [|d ds IH]; intros r; [done|].
  simpl. eapply onlyAt_trans; [apply onlyAt_add | apply IH].
Qed.

Lemma compileFile_invariant r f :
  diagnosticsInvariant r -> unvisited r f ->
  diagnosticsInvariant (compileFile s r f) /\
  onlyAt (toDocumentURI s f) r (compileFile s r f).
Proof.
  intros H [Hd Hs]. unfold compileFile. cbv zeta.
  set (uri := toDocumentURI s f) in *.
  set (r1 := set_diagnostics r (<[uri := []]> (diagnostics r)) (seenDiagnostics r)
               (hasErrorSeverityDiagnostic r)).
  assert (forall u, diagnosticsFor r1 u = diagnosticsFor r u) as Hsame.
  { intros u. unfold diagnosticsFor, r1. simpl. destruct (decide (uri = u)) as [<-|Hne].
    - rewrite lookup_insert_eq. symmetry. exact Hd.
    - by rewrite lookup_insert_ne. }
  assert (diagnosticsInvariant r1) as H1.
  { destruct H as [Hcons Hflag]. split.
    - intros u. unfold seenConsistent. rewrite Hsame. apply Hcons.
    - change (hasErrorSeverityDiagnostic r1) with (hasErrorSeverityDiagnostic r).
      rewrite Hflag. by setoid_rewrite Hsame. }
  assert (onlyAt uri r r1) as O1 by (intros u Hu; by rewrite Hsame).
  change (proj r1) with (proj r).
  set (r2 := foldl (fun result d => addDiagnostics result uri [d]) r1
               (astErrorDiagnostics (AST (proj r) f))).
  assert (diagnosticsInvariant r2) as H2
    by (apply invariant_foldl; [intros; by apply diagnosticsInvariant_add | done]).
  assert (onlyAt uri r r2) as O2 by (eapply onlyAt_trans; [exact O1 | apply onlyAt_foldl]).
  destruct (astFileOf _) as [astFile|]; [|done].
  destruct (_ && _).
  - split; [by apply diagnosticsInvariant_add|].
    eapply onlyAt_trans; [exact O2 | apply onlyAt_add].
  - destruct (bool_decide _); [|done]. split; [|done].
    revert H2. by apply invariant_fields.
Qed.

Lemma compileFiles_invariant files :
  NoDup files ->
  forall r, diagnosticsInvariant r -> (forall f, f ∈ files -> unvisited r f) ->
    diagnosticsInvariant (foldl (compileFile s) r files).
Proof.
  induction 1 as [|f files Hf _ IH]; intros r H Hun; [done|].
  simpl. destruct (compileFile_invariant r f H) as [H' Honly]; [apply Hun; by left|].
  apply IH; [done|]. intros g Hg.
  destruct (Honly (toDocumentURI s g)) as [Hd Hs].
  - intros Heq. apply toDocumentURI_inj in Heq. by subst.
  - unfold unvisited. rewrite Hd, Hs. apply Hun. by right.
Qed.

(** Every compile result that [compileAt] returns for a list of files
    without repetition keeps the two invariants of the diagnostics: no
    document holds two diagnostics of the same (severity, range, message),
    and [hasErrorSeverityDiagnostic] is true exactly when a diagnostic of
    error severity is stored. *)
Theorem compileAt_diagnostics_invariant (snapshot : Project) (spxFiles : list string) :
  ListSpxFiles snapshot = inl spxFiles ->
  NoDup spxFiles ->
  match compileAt s snapshot with
  | compiled result =>
      (forall uri, NoDup (triple <$> diagnosticsFor result uri)) /\
      (hasErrorSeverityDiagnostic result = true <->
       exists uri d, d ∈ diagnosticsFor result uri /\ Severity d = SeverityError)
  | compileError _ | compilePanic _ => True
  end.
Proof.
  intros Hfiles Hnd.
  assert (forall r, diagnosticsInvariant r ->
            (forall uri, NoDup (triple <$> diagnosticsFor r uri)) /\
            (hasErrorSeverityDiagnostic r = true <->
             exists uri d, d ∈ diagnosticsFor r uri /\ Severity d = SeverityError)) as Hobs.
  { intros r [Hcons Hflag]. split.
    - intros uri. destruct (Hcons uri) as [_ Hn].
      apply (NoDup_fmap_1 (fun t : DiagnosticSeverity * Range * string =>
               fmt.d t.1.1 +:+ String fmt.LF (fmt_v_Range t.1.2 +:+ String fmt.LF t.2))).
      by rewrite <- list_fmap_compose.
    - rewrite Hflag. unfold hasError. setoid_rewrite Exists_exists. naive_solver. }
  assert (diagnosticsInvariant (foldl (compileFile s) (newCompileResult snapshot) spxFiles))
    as Hloop.
  { apply compileFiles_invariant; [done | apply diagnosticsInvariant_new | ].
    intros f _. split; reflexivity. }
  unfold compileAt. rewrite Hfiles.
  destruct (decide (length spxFiles = 0%nat)); [done|]. cbv zeta.
  destruct (decide (mainSpxFile _ = "")).
  - destruct (decide (size _ = 0%nat)); [done|]. by apply Hobs.
  - destruct (foldl (handleErr s) _ _) as [r|] eqn:Herr; [|done].
    apply Hobs.
    apply inspectDiagnosticsAnalyzers_invariant, inspectForSpxResourceRefs_invariant,
      inspectForSpxResourceSet_invariant.
    by eapply handleErr_invariant.
Qed.

End CompileInvariant.

(** The theorem at work on a project whose only file is main.spx, with the
    two sound variables of [soundProject]: the whole of [compileAt] runs. *)
Definition mainProject : Project :=
  {| Types := [];
     Defs := [(Some explosionIdent, Some explosionVar); (Some laserIdent, Some laserVar)];
     Uses := [];
     ObjectOf := fun _ => None;
     DefIdentFor := fun _ => None;
     ValueSpecOf := fun _ => None;
     NodeFilename := fun _ => "main.spx";
     PosFilename := fun _ => "main.spx";
     InnermostScopeAt := fun _ => Some 1%positive;
     FileScope := fun _ => Some 1%positive;
     ASTFiles := fun _ => None;
     IsDefinedInClassFieldsDecl := fun obj => bool_decide (objId obj = 1%positive);
     HasSpriteType := fun _ => false;
     RangeForNode := fun _ => range00;
     PathEnclosing := fun _ => None;
     NewSpxResourceSet := fun _ => inl soundSet;
     IdentImplicit := fun _ => false;
     SelectorTypeNameForIdent := fun _ => "";
     CheckSigFuncEx := fun _ => false;
     CheckSigFuncExObjects := fun _ => None;
     ListSpxFiles := inl ["main.spx"];
     AST := fun _ =>
       ASTParsed (Some {| PkgName := "main"; FilePosValid := true; NameRange := range00 |});
     TypeInfoErrors := [];
     AnalyzerDiagnostics := [];
     Unquote := unquotePlain;
     Quote := quotePlain |}.

Lemma compileAt_diagnostics_invariant_witness :
  match compileAt server0 mainProject with
  | compiled result =>
      (forall uri, NoDup (triple <$> diagnosticsFor result uri)) /\
      (hasErrorSeverityDiagnostic result = true <->
       exists uri d, d ∈ diagnosticsFor result uri /\ Severity d = SeverityError)
  | compileError _ | compilePanic _ => True
  end.
Proof.
  refine (compileAt_diagnostics_invariant server0 mainProject ["main.spx"] _ _).
  - reflexivity.
  - repeat constructor. by intros H%elem_of_nil.
Defined.
